(** * gas-optimizer: lexer, fallback parser and analysis passes

    A shallow embedding of [main.go] and of the parser file of the
    repository, with the properties of its specification stated over it.

    Conventions.
    - Go [string] is a byte sequence: [string] of [ascii].
    - Go [int] is modelled by [Z] (counters, savings) or [nat] (cursor, line
      numbers); the values reached here are bounded by the size of the
      in-memory tree, far from the 64-bit range, so no wrap-around is written.
    - Go [map[string]int] is [gmap string Z]; a [range] over it visits the
      entries in an unspecified order, modelled by [rangeMap].
    - Pointers to nodes are never shared by the builders, so trees are values. *)

From Stdlib Require Import ZArith Lia Ascii String List Permutation Sorted.
From stdpp Require Import base option list strings gmap fin_maps pretty.
Import ListNotations.

Set Warnings "-register-all".

Local Open Scope string_scope.
Local Open Scope list_scope.

(** ** Tokens and tree nodes *)

Inductive TokenType :=
| TokenIdentifier
| TokenKeyword
| TokenOperator
| TokenPunctuation
| TokenNumber
| TokenWhitespace.

Definition TokenType_eqb (a b : TokenType) : bool :=
  match a, b with
  | TokenIdentifier, TokenIdentifier
  | TokenKeyword, TokenKeyword
  | TokenOperator, TokenOperator
  | TokenPunctuation, TokenPunctuation
  | TokenNumber, TokenNumber
  | TokenWhitespace, TokenWhitespace => true
  | _, _ => false
  end.

Module Token.
Record t := mk { Type_ : TokenType; Value : string; Line : nat }.
(** The zero value of the struct. *)
Definition zero : t := mk TokenIdentifier "" 0.
End Token.

Module Node.
Inductive t := mk { Type_ : string; Value : string; Children : list t; Line : nat }.
End Node.

(** ** Lexer *)

Definition tab : string := String (ascii_of_nat 9) EmptyString.
Definition newline : ascii := ascii_of_nat 10.

(** [strings.Split(source, "\n")]: never empty, the empty text gives one
    empty line. *)
Fixpoint splitLines (s : string) : list string :=
  match s with
  | EmptyString => [EmptyString]
  | String c rest =>
      if Ascii.eqb c newline then EmptyString :: splitLines rest
      else match splitLines rest with
           | h :: t => String c h :: t
           | [] => [String c EmptyString]
           end
  end.

(** [string(line[i])]: the conversion of a byte to a string gives the UTF-8
    encoding of the code point of that number, two bytes from 0x80 on. *)
Definition stringOfByte (b : ascii) : string :=
  let n := nat_of_ascii b in
  if (n <? 128)%nat then String b EmptyString
  else String (ascii_of_nat (192 + n / 64)%nat)
         (String (ascii_of_nat (128 + n mod 64)%nat) EmptyString).

(** A [map[string]bool] literal whose values are all [true], given by its
    keys; the lookup of an absent key yields [false]. *)
Definition lookupTrue (table : list string) (key : string) : bool :=
  existsb (String.eqb key) table.

Definition keywords : list string :=
  ["for"; "while"; "if"; "function"; "uint"; "public"; "mapping"; "returns"].
Definition operators : list string := ["="; "."; ";"; "<"; "++"].
Definition punctuation : list string := ["("; ")"; "{"; "}"].

Definition nonEmpty (s : string) : bool := negb (String.eqb s "").

Section Lexer.
(** Library functions the lexer calls: [strings.TrimSpace], and whether
    [fmt.Sscanf(value, "%d", new(int))] returns a nil error. *)
Variable TrimSpace : string -> string.
Variable scanInt : string -> bool.

Definition classifyToken (value : string) (line : nat) : Token.t :=
  if lookupTrue keywords value then Token.mk TokenKeyword value line
  else if scanInt value then Token.mk TokenNumber value line
  else Token.mk TokenIdentifier value line.

Definition flush (current : string) (lineNum : nat) (tokens : list Token.t)
  : list Token.t :=
  if nonEmpty current then tokens ++ [classifyToken current (lineNum + 1)]
  else tokens.

(** The loop over the bytes of one line, with the flush that follows it. *)
Fixpoint scanLine (line : string) (lineNum : nat) (current : string)
    (tokens : list Token.t) : list Token.t :=
  match line with
  | EmptyString => flush current lineNum tokens
  | String b rest =>
      let char := stringOfByte b in
      if String.eqb char " " || String.eqb char tab then
        if nonEmpty current
        then scanLine rest lineNum "" (flush current lineNum tokens)
        else scanLine rest lineNum current tokens
      else if lookupTrue operators char || lookupTrue punctuation char then
        let tokens := flush current lineNum tokens in
        let tokType :=
          if lookupTrue punctuation char then TokenPunctuation
          else TokenOperator in
        scanLine rest lineNum "" (tokens ++ [Token.mk tokType char (lineNum + 1)])
      else scanLine rest lineNum (current ++ char) tokens
  end.

Fixpoint tokenizeLines (lines : list string) (lineNum : nat)
    (tokens : list Token.t) : list Token.t :=
  match lines with
  | [] => tokens
  | line :: rest =>
      let line := TrimSpace line in
      if nonEmpty line
      then tokenizeLines rest (S lineNum) (scanLine line lineNum "" tokens)
      else tokenizeLines rest (S lineNum) tokens
  end.

Definition tokenize (source : string) : list Token.t :=
  tokenizeLines (splitLines source) 0 [].
End Lexer.

(** Instances of the two library functions, exact on ASCII text without
    digit separators: leading and trailing blanks are cut, and a value scans
    as an integer when it starts, after an optional sign, with a decimal
    digit (the digits read must fit 64 bits; only short values are used). *)
Definition isBlank (c : ascii) : bool :=
  let n := nat_of_ascii c in
  ((n =? 32) || ((9 <=? n) && (n <=? 13)))%nat.

Fixpoint trimLeft (s : string) : string :=
  match s with
  | String c rest => if isBlank c then trimLeft rest else s
  | EmptyString => EmptyString
  end.

Fixpoint trimRight (s : string) : string :=
  match s with
  | EmptyString => EmptyString
  | String c rest =>
      match trimRight rest with
      | EmptyString => if isBlank c then EmptyString else String c EmptyString
      | r => String c r
      end
  end.

Definition TrimSpace_ascii (s : string) : string := trimRight (trimLeft s).

Definition isDigit (c : ascii) : bool :=
  let n := nat_of_ascii c in ((48 <=? n) && (n <=? 57))%nat.

Definition scanInt_dec (s : string) : bool :=
  match s with
  | String c rest =>
      if isDigit c then true
      else if (Ascii.eqb c "+" || Ascii.eqb c "-")%char
           then match rest with String d _ => isDigit d | _ => false end
           else false
  | EmptyString => false
  end.

(** ** Fallback parser *)

Module Parser.
Record t := mk {
  Tokens : list Token.t;
  Pos : nat;
  Source : string;
  Current : Token.t
}.
End Parser.

Definition NewParser (TrimSpace : string -> string) (scanInt : string -> bool)
    (source : string) : Parser.t :=
  Parser.mk (tokenize TrimSpace scanInt source) 0 source Token.zero.

(** [for cond { body }] with a bound on the number of iterations; [None]
    only when the bound is reached while [cond] still holds. *)
Fixpoint whileLoop {S : Type} (cond : S -> bool) (body : S -> option S)
    (fuel : nat) (s : S) : option S :=
  if cond s then
    match fuel with
    | O => None
    | Datatypes.S fuel' => s' ← body s; whileLoop cond body fuel' s'
    end
  else Some s.

Definition advance (p : Parser.t) : Parser.t :=
  if (Parser.Pos p <? length (Parser.Tokens p))%nat then
    Parser.mk (Parser.Tokens p) (Parser.Pos p + 1) (Parser.Source p)
      (nth (Parser.Pos p) (Parser.Tokens p) Token.zero)
  else p.

Definition currentIs (p : Parser.t) (ty : TokenType) : bool :=
  TokenType_eqb (Token.Type_ (Parser.Current p)) ty.
Definition currentValueIs (p : Parser.t) (v : string) : bool :=
  String.eqb (Token.Value (Parser.Current p)) v.
Definition inRange (p : Parser.t) : bool :=
  (Parser.Pos p <? length (Parser.Tokens p))%nat.
(** No loop of the parser runs more often than there are tokens. *)
Definition bound (p : Parser.t) : nat := length (Parser.Tokens p).

Definition appendChild (n c : Node.t) : Node.t :=
  Node.mk (Node.Type_ n) (Node.Value n) (Node.Children n ++ [c]) (Node.Line n).
(** [if x := ...; x != nil { n.Children = append(n.Children, x) }] *)
Definition appendNotNil (n : Node.t) (c : option Node.t) : Node.t :=
  match c with Some c => appendChild n c | None => n end.

Definition parseVariableAccess (p : Parser.t) : Node.t * Parser.t :=
  let node :=
    Node.mk "MemberAccess" (Token.Value (Parser.Current p)) []
      (Token.Line (Parser.Current p)) in
  let p := advance p in
  if currentIs p TokenOperator && currentValueIs p "." then
    let p := advance p in
    if currentIs p TokenIdentifier then
      let member :=
        Node.mk "Identifier" (Token.Value (Parser.Current p)) []
          (Token.Line (Parser.Current p)) in
      (appendChild node member, advance p)
    else (node, p)
  else (node, p).

(** [for p.Current.Value != ")" && p.Pos < len(p.Tokens) { p.advance() }],
    the header skip of parseLoop, parseIfStatement and parseFunction. *)
Definition skipHeader (p : Parser.t) : option Parser.t :=
  whileLoop (fun p => negb (currentValueIs p ")") && inRange p)
    (fun p => Some (advance p)) (bound p) p.

Definition blockCond (s : Node.t * Parser.t) : bool :=
  negb (currentValueIs s.2 "}") && inRange s.2.

(** The block loop of parseLoop and parseIfStatement. *)
Definition blockBody (s : Node.t * Parser.t) : option (Node.t * Parser.t) :=
  let '(body, p) := s in
  let '(body, p) :=
    if currentIs p TokenIdentifier then
      let '(access, p) := parseVariableAccess p in (appendChild body access, p)
    else (body, p) in
  Some (body, advance p).

Definition buildBlock (body : Node.t) (p : Parser.t) : option (Node.t * Parser.t) :=
  whileLoop blockCond blockBody (bound p) (body, p).

Definition parseLoop (node : Node.t) (p : Parser.t)
    : option (option Node.t * Parser.t) :=
  if negb (currentIs p TokenPunctuation) || negb (currentValueIs p "(") then
    Some (None, p)
  else
    let p := advance p in
    p ← skipHeader p;
    let p := advance p in
    if currentIs p TokenPunctuation && currentValueIs p "{" then
      let p := advance p in
      let body := Node.mk "Block" "" [] (Token.Line (Parser.Current p)) in
      '(body, p) ← buildBlock body p;
      Some (Some (appendChild node body), advance p)
    else Some (Some node, p).

Definition parseForLoop (p : Parser.t) : option (option Node.t * Parser.t) :=
  let forNode := Node.mk "ForStatement" "" [] (Token.Line (Parser.Current p)) in
  let p := advance p in
  parseLoop forNode p.

Definition parseWhileLoop (p : Parser.t) : option (option Node.t * Parser.t) :=
  let whileNode := Node.mk "WhileStatement" "" [] (Token.Line (Parser.Current p)) in
  let p := advance p in
  parseLoop whileNode p.

Definition parseIfStatement (p : Parser.t) : option (option Node.t * Parser.t) :=
  let ifNode := Node.mk "IfStatement" "" [] (Token.Line (Parser.Current p)) in
  let p := advance p in
  if negb (currentIs p TokenPunctuation) || negb (currentValueIs p "(") then
    Some (None, p)
  else
    let p := advance p in
    p ← skipHeader p;
    let p := advance p in
    if currentIs p TokenPunctuation && currentValueIs p "{" then
      let p := advance p in
      let body := Node.mk "Block" "" [] (Token.Line (Parser.Current p)) in
      '(body, p) ← buildBlock body p;
      Some (Some (appendChild ifNode body), advance p)
    else Some (Some ifNode, p).

(** The block loop of parseFunction, which also dispatches on keywords. *)
Definition functionBlockBody (s : Node.t * Parser.t) : option (Node.t * Parser.t) :=
  let '(body, p) := s in
  '(body, p) ←
    (if currentIs p TokenKeyword then
       if currentValueIs p "for" then
         '(forNode, p) ← parseForLoop p; Some (appendNotNil body forNode, p)
       else if currentValueIs p "while" then
         '(whileNode, p) ← parseWhileLoop p; Some (appendNotNil body whileNode, p)
       else if currentValueIs p "if" then
         '(ifNode, p) ← parseIfStatement p; Some (appendNotNil body ifNode, p)
       else Some (body, p)
     else if currentIs p TokenIdentifier then
       let '(access, p) := parseVariableAccess p in
       Some (appendChild body access, p)
     else Some (body, p));
  Some (body, advance p).

Definition parseFunction (p : Parser.t) : option (option Node.t * Parser.t) :=
  let funcNode := Node.mk "FunctionDeclaration" "" [] (Token.Line (Parser.Current p)) in
  let p := advance p in
  let '(funcNode, p) :=
    if currentIs p TokenIdentifier then
      (Node.mk (Node.Type_ funcNode) (Token.Value (Parser.Current p))
         (Node.Children funcNode) (Node.Line funcNode), advance p)
    else (funcNode, p) in
  p ← (if currentIs p TokenPunctuation && currentValueIs p "(" then
         let p := advance p in
         p ← skipHeader p;
         Some (advance p)
       else Some p);
  if currentIs p TokenPunctuation && currentValueIs p "{" then
    let p := advance p in
    let body := Node.mk "Block" "" [] (Token.Line (Parser.Current p)) in
    '(body, p) ← whileLoop blockCond functionBlockBody (bound p) (body, p);
    Some (Some (appendChild funcNode body), advance p)
  else Some (Some funcNode, p).

(** One iteration of the loop of Parse. *)
Definition parseStep (s : Node.t * Parser.t) : option (Node.t * Parser.t) :=
  let '(root, p) := s in
  if currentIs p TokenKeyword then
    if currentValueIs p "for" then
      '(forNode, p) ← parseForLoop p; Some (appendNotNil root forNode, p)
    else if currentValueIs p "while" then
      '(whileNode, p) ← parseWhileLoop p; Some (appendNotNil root whileNode, p)
    else if currentValueIs p "if" then
      '(ifNode, p) ← parseIfStatement p; Some (appendNotNil root ifNode, p)
    else if currentValueIs p "function" then
      '(funcNode, p) ← parseFunction p; Some (appendNotNil root funcNode, p)
    else Some (root, advance p)
  else Some (root, advance p).

(** Parse, with the parser state it ends in. *)
Definition ParseRun (p : Parser.t) : option (Node.t * Parser.t) :=
  let root := Node.mk "Root" "" [] 0 in
  let p := advance p in
  whileLoop (fun s => inRange s.2) parseStep (bound p) (root, p).

Definition Parse (p : Parser.t) : option Node.t := fst <$> ParseRun p.

(** ** Reports and the external tree *)

Definition GasSload : Z := 800.
Definition GasMload : Z := 3.

Record Report := mkReport {
  Issue : string;
  Suggestion : string;
  GasSavings : Z;
  Location : string
}.

Record TypeDesc := mkTypeDesc { TypeIdentifier : string; TypeString : string }.

(** [ParamList] has the single field [Parameters]; a link to it is a link
    to that list. *)
Inductive SolcASTNode := mkSolcASTNode {
  NodeType : string;
  Name : string;
  Src : string;
  Nodes : list SolcASTNode;
  Body : option SolcASTNode;
  Statements : list SolcASTNode;
  Expression : option SolcASTNode;
  InitialValue : option SolcASTNode;
  TypeName : option SolcASTNode;
  TypeDescriptions : option TypeDesc;
  Parameters : option (list SolcASTNode);
  ReturnParameters : option (list SolcASTNode);
  IndexExpression : option SolcASTNode;
  BaseExpression : option SolcASTNode;
  LeftExpression : option SolcASTNode;
  RightExpression : option SolcASTNode;
  IsLValue : bool;
  ReferencedDecl : Z;
  Operator : string;
  Value : string
}.

(** [m[key]++] on a [map[string]int]: an absent key reads as 0. *)
Definition incr (key : string) (m : gmap string Z) : gmap string Z :=
  <[key := (default 0 (m !! key) + 1)%Z]> m.

(** The entries a [range] over [m] may visit, in the order it visits them:
    each entry once, in an order the language leaves open. *)
Definition rangeMap (m : gmap string Z) (entries : list (string * Z)) : Prop :=
  entries ≡ₚ map_to_list m.

(** ** Analysis passes *)

(** The calls [fn(node)] of [walkSolcAST], in the order they are made. *)
Fixpoint walkSolcAST (node : SolcASTNode) : list SolcASTNode :=
  node
    :: flat_map walkSolcAST (Nodes node)
    ++ match Body node with Some body => walkSolcAST body | None => [] end
    ++ flat_map walkSolcAST (Statements node).

Fixpoint collectStorageReadsSolc (node : SolcASTNode)
    (storageVars : gmap string Z) : gmap string Z :=
  let storageVars :=
    if String.eqb (NodeType node) "VariableDeclarationStatement" then
      match InitialValue node with
      | Some iv =>
          if String.eqb (NodeType iv) "IndexAccess" then
            match BaseExpression iv, IndexExpression iv with
            | Some base, Some index =>
                incr (Name base ++ "[" ++ Name index ++ "]") storageVars
            | _, _ => storageVars
            end
          else storageVars
      | None => storageVars
      end
    else storageVars in
  let storageVars :=
    fold_left (fun m child => collectStorageReadsSolc child m)
      (Statements node) storageVars in
  match Body node with
  | Some body => collectStorageReadsSolc body storageVars
  | None => storageVars
  end.

Fixpoint collectStorageReadsCustom (node : Node.t)
    (storageVars : gmap string Z) : gmap string Z :=
  fold_left
    (fun m child =>
       let m :=
         if String.eqb (Node.Type_ child) "MemberAccess" then
           match Node.Children child with
           | member :: _ => incr (Node.Value child ++ "." ++ Node.Value member) m
           | [] => m
           end
         else m in
       collectStorageReadsCustom child m)
    (Node.Children node) storageVars.

(** The body of generateLoopReport, over the entries in the order the
    [range] visits them. *)
Definition generateLoopReport (entries : list (string * Z)) (location : string)
    (reports : list Report) : list Report :=
  fold_left
    (fun reports '(varName, count) =>
       if (1 <? count)%Z then
         let savings := ((count - 1) * (GasSload - GasMload))%Z in
         reports ++
           [mkReport
              ("Variable '" ++ varName ++ "' read " ++ pretty count ++ " times in loop")
              ("Cache '" ++ varName ++ "' in memory before loop")
              savings location]
       else reports)
    entries reports.

Definition isLoopType (nodeType : string) : bool :=
  String.eqb nodeType "ForStatement" || String.eqb nodeType "WhileStatement".

(** The map the callback of checkLoopsForStorageReads builds at a node, if
    the node is a loop. *)
Definition loopStorageVars (node : SolcASTNode) : option (gmap string Z) :=
  if isLoopType (NodeType node) then
    Some match Body node with
         | Some body => collectStorageReadsSolc body ∅
         | None => ∅
         end
  else None.

Definition emitLoopSolc (node : SolcASTNode) (entries : list (string * Z))
    (reports : list Report) : list Report :=
  generateLoopReport entries (Src node) reports.

(** The callback of checkInefficientTypes. *)
Definition inefficientType (node : SolcASTNode) (reports : list Report)
    : list Report :=
  if String.eqb (NodeType node) "VariableDeclaration" then
    match TypeName node with
    | Some ty =>
        let typeName := Name ty in
        if String.eqb typeName "uint8" || String.eqb typeName "uint16"
           || String.eqb typeName "uint32" then
          reports ++
            [mkReport
               ("Inefficient type '" ++ typeName ++ "' used for variable '"
                  ++ Name node ++ "'")
               "Use 'uint256' to avoid packing overhead unless tightly packed in a struct"
               200 (Src node)]
        else reports
    | None => reports
    end
  else reports.

Definition checkInefficientTypes (ast : SolcASTNode) (reports : list Report)
    : list Report :=
  fold_left (fun reports node => inefficientType node reports)
    (walkSolcAST ast) reports.

Fixpoint collectExpressions (node : SolcASTNode) (exprMap : gmap string Z)
    : gmap string Z :=
  let exprMap :=
    if String.eqb (NodeType node) "BinaryOperation" then
      match LeftExpression node, RightExpression node with
      | Some lhs, Some rhs =>
          let leftVal :=
            if nonEmpty (Name lhs) then Name lhs
            else if nonEmpty (Value lhs) then Value lhs
            else "" in
          let rightVal :=
            if nonEmpty (Value rhs) then Value rhs
            else if nonEmpty (Name rhs) then Name rhs
            else "" in
          if nonEmpty leftVal && nonEmpty rightVal then
            incr (leftVal ++ " " ++ Operator node ++ " " ++ rightVal) exprMap
          else exprMap
      | _, _ => exprMap
      end
    else exprMap in
  let exprMap :=
    match LeftExpression node with
    | Some lhs => collectExpressions lhs exprMap
    | None => exprMap
    end in
  let exprMap :=
    match RightExpression node with
    | Some rhs => collectExpressions rhs exprMap
    | None => exprMap
    end in
  let exprMap :=
    if String.eqb (NodeType node) "VariableDeclarationStatement" then
      match InitialValue node with
      | Some iv => collectExpressions iv exprMap
      | None => exprMap
      end
    else exprMap in
  let exprMap :=
    if String.eqb (NodeType node) "Return" then
      match Expression node with
      | Some e => collectExpressions e exprMap
      | None => exprMap
      end
    else exprMap in
  fold_left (fun m stmt => collectExpressions stmt m) (Statements node) exprMap.

(** The map the callback of checkRedundantOperations builds at a node, if
    the node is a function definition with a body. *)
Definition functionExprMap (node : SolcASTNode) : option (gmap string Z) :=
  if String.eqb (NodeType node) "FunctionDefinition" then
    match Body node with
    | Some body => Some (collectExpressions body ∅)
    | None => None
    end
  else None.

(** The [range] loop of checkRedundantOperations. *)
Definition emitRedundant (node : SolcASTNode) (entries : list (string * Z))
    (reports : list Report) : list Report :=
  fold_left
    (fun reports '(expr, count) =>
       if (1 <? count)%Z then
         reports ++
           [mkReport
              ("Expression '" ++ expr ++ "' computed " ++ pretty count ++ " times")
              "Cache the result in a local variable"
              (count * 50)%Z (Src node)]
       else reports)
    entries reports.

(** The map analyzeCustomAST builds at a child of the root, if it is a loop. *)
Definition customLoopVars (node : Node.t) : option (gmap string Z) :=
  if isLoopType (Node.Type_ node) then Some (collectStorageReadsCustom node ∅)
  else None.

Definition emitLoopCustom (node : Node.t) (entries : list (string * Z))
    (reports : list Report) : list Report :=
  generateLoopReport entries ("line " ++ pretty (Node.Line node)) reports.

(** A pass that visits nodes in a fixed order and, at the nodes where
    [table] yields a map, ranges over that map and appends what [emit]
    makes of the entries.  [runPass] relates the report list before to every
    report list that may result; [runPassWith] computes the one that results
    when [range] gives the order of every map. *)
Section Pass.
Context {N : Type}.
Variable table : N -> option (gmap string Z).
Variable emit : N -> list (string * Z) -> list Report -> list Report.

Inductive runPass : list N -> list Report -> list Report -> Prop :=
| runPass_nil reports : runPass [] reports reports
| runPass_skip n ns reports reports' :
    table n = None ->
    runPass ns reports reports' ->
    runPass (n :: ns) reports reports'
| runPass_range n ns m entries reports reports' :
    table n = Some m ->
    rangeMap m entries ->
    runPass ns (emit n entries reports) reports' ->
    runPass (n :: ns) reports reports'.

Definition runPassWith (range : gmap string Z -> list (string * Z))
    (ns : list N) (reports : list Report) : list Report :=
  fold_left
    (fun reports n =>
       match table n with
       | Some m => emit n (range m) reports
       | None => reports
       end)
    ns reports.
End Pass.

Definition checkLoopsForStorageReads (ast : SolcASTNode) :=
  runPass loopStorageVars emitLoopSolc (walkSolcAST ast).
Definition checkRedundantOperations (ast : SolcASTNode) :=
  runPass functionExprMap emitRedundant (walkSolcAST ast).
Definition analyzeCustomAST (ast : Node.t) :=
  runPass customLoopVars emitLoopCustom (Node.Children ast).

(** analyzeSolcAST after the tree document has been decoded into [root]. *)
Definition analyzeSolcRoot (root : SolcASTNode) (reports reports' : list Report)
    : Prop :=
  exists r1, checkLoopsForStorageReads root reports r1
    /\ checkRedundantOperations root (checkInefficientTypes root r1) reports'.

Definition analyzeSolcRootWith (range : gmap string Z -> list (string * Z))
    (root : SolcASTNode) (reports : list Report) : list Report :=
  let reports := runPassWith loopStorageVars emitLoopSolc range (walkSolcAST root) reports in
  let reports := checkInefficientTypes root reports in
  runPassWith functionExprMap emitRedundant range (walkSolcAST root) reports.

Definition analyzeCustomASTWith (range : gmap string Z -> list (string * Z))
    (ast : Node.t) (reports : list Report) : list Report :=
  runPassWith customLoopVars emitLoopCustom range (Node.Children ast) reports.

(** ** The analyzer and its construction *)

(** [regexp.MustCompile(`(?s)JSON AST \(compact format\):.*?({.*})`)] and
    [FindSubmatch]: the match starts at the first occurrence of the marker,
    the lazy [.*?] stops before the first open brace that follows it, and the
    greedy group runs to the last close brace of the output. *)
Definition marker : string := "JSON AST (compact format):".

Fixpoint dropBytes (n : nat) (s : string) : string :=
  match n, s with
  | Datatypes.S n', String _ rest => dropBytes n' rest
  | _, _ => s
  end.

Fixpoint afterFirst (pat s : string) : option string :=
  if String.prefix pat s then Some (dropBytes (String.length pat) s)
  else match s with
       | EmptyString => None
       | String _ rest => afterFirst pat rest
       end.

Fixpoint fromFirst (c : ascii) (s : string) : option string :=
  match s with
  | EmptyString => None
  | String a rest => if Ascii.eqb a c then Some s else fromFirst c rest
  end.

Fixpoint uptoLast (c : ascii) (s : string) : option string :=
  match s with
  | EmptyString => None
  | String a rest =>
      match uptoLast c rest with
      | Some r => Some (String a r)
      | None => if Ascii.eqb a c then Some (String a EmptyString) else None
      end
  end.

(** [matches[1]] when the expression matches, [None] when
    [len(matches) < 2]. *)
Definition findJSON (output : string) : option string :=
  rest ← afterFirst marker output;
  doc ← fromFirst "{" rest;
  match doc with
  | String open inner => String open <$> uptoLast "}" inner
  | EmptyString => None
  end.

(** What the two calls outside the analyzer gave: [os.ReadFile] the source
    text or an error, [cmd.CombinedOutput] an output and whether [err] is
    non-nil (the tool could not be started, or exited with failure). *)
Record CmdResult := mkCmdResult { output : string; failed : bool }.

Inductive Error :=
| ErrReadFile
| ErrNoJSON (output : string)
| ErrParseAST (jsonData : string).

Section Optimizer.
Variable TrimSpace : string -> string.
Variable scanInt : string -> bool.
(** The documents [json.Unmarshal] stores in an [interface{}]; the text it
    is given starts with an open brace, so a decoded document is never the
    nil interface.  [decodeRoot] is the re-encoding of analyzeSolcAST
    ([json.Marshal], then [json.Unmarshal] into a SolcASTNode, both errors
    dropped). *)
Variable J : Type.
Variable json_Unmarshal : string -> option J.
Variable decodeRoot : J -> SolcASTNode.

Inductive ASTValue :=
| CustomAST (ast : Node.t)
| SolcAST (ast : J).

Record GasOptimizer := mkGasOptimizer {
  Source : string;
  AST : ASTValue;
  Reports : list Report
}.

(** The outer [option] is the iteration bound of the fallback parser. *)
Definition NewGasOptimizer (readFile : option string) (solc : CmdResult)
    : option (Error + GasOptimizer) :=
  match readFile with
  | None => Some (inl ErrReadFile)
  | Some source =>
      if failed solc then
        let parser := NewParser TrimSpace scanInt source in
        ast ← Parse parser;
        Some (inr (mkGasOptimizer source (CustomAST ast) []))
      else
        match findJSON (output solc) with
        | None => Some (inl (ErrNoJSON (output solc)))
        | Some jsonData =>
            match json_Unmarshal jsonData with
            | None => Some (inl (ErrParseAST jsonData))
            | Some ast => Some (inr (mkGasOptimizer source (SolcAST ast) []))
            end
        end
  end.

(** Analyze relates the analyzer to each state a run may leave it in. *)
Definition Analyze (g g' : GasOptimizer) : Prop :=
  Source g' = Source g /\ AST g' = AST g /\
  match AST g with
  | CustomAST ast => analyzeCustomAST ast (Reports g) (Reports g')
  | SolcAST ast => analyzeSolcRoot (decodeRoot ast) (Reports g) (Reports g')
  end.

Definition AnalyzeWith (range : gmap string Z -> list (string * Z))
    (g : GasOptimizer) : GasOptimizer :=
  mkGasOptimizer (Source g) (AST g)
    match AST g with
    | CustomAST ast => analyzeCustomASTWith range ast (Reports g)
    | SolcAST ast => analyzeSolcRootWith range (decodeRoot ast) (Reports g)
    end.
End Optimizer.

Arguments CustomAST {J}.
Arguments SolcAST {J}.
Arguments mkGasOptimizer {J}.
Arguments Source {J}.
Arguments AST {J}.
Arguments Reports {J}.

(** ** Sample inputs *)

Definition solcNode (nodeType name src : string) : SolcASTNode :=
  mkSolcASTNode nodeType name src [] None [] None None None None None None
    None None None None false 0 "" "".

Definition Identifier (name : string) : SolcASTNode :=
  solcNode "Identifier" name "".

Definition Literal (value : string) : SolcASTNode :=
  mkSolcASTNode "Literal" "" "" [] None [] None None None None None None
    None None None None false 0 "" value.

Definition BinaryOperation (op : string) (lhs rhs : SolcASTNode) : SolcASTNode :=
  mkSolcASTNode "BinaryOperation" "" "" [] None [] None None None None None
    None None None (Some lhs) (Some rhs) false 0 op "".

Definition IndexAccess (base index : SolcASTNode) : SolcASTNode :=
  mkSolcASTNode "IndexAccess" "" "" [] None [] None None None None None None
    (Some index) (Some base) None None false 0 "" "".

Definition VariableDeclarationStatement (init : SolcASTNode) : SolcASTNode :=
  mkSolcASTNode "VariableDeclarationStatement" "" "" [] None [] None
    (Some init) None None None None None None None None false 0 "" "".

Definition Return (e : SolcASTNode) : SolcASTNode :=
  mkSolcASTNode "Return" "" "" [] None [] (Some e) None None None None None
    None None None None false 0 "" "".

Definition Block (stmts : list SolcASTNode) : SolcASTNode :=
  mkSolcASTNode "Block" "" "" [] None stmts None None None None None None
    None None None None false 0 "" "".

Definition ForStatement (src : string) (body : SolcASTNode) : SolcASTNode :=
  mkSolcASTNode "ForStatement" "" src [] (Some body) [] None None None None
    None None None None None None false 0 "" "".

Definition FunctionDefinition (name src : string) (body : SolcASTNode)
    : SolcASTNode :=
  mkSolcASTNode "FunctionDefinition" name src [] (Some body) [] None None
    None None None None None None None None false 0 "" "".

Definition ContractDefinition (name : string) (nodes : list SolcASTNode)
    : SolcASTNode :=
  mkSolcASTNode "ContractDefinition" name "" nodes None [] None None None
    None None None None None None None false 0 "" "".

Definition VariableDeclaration (name typeName src : string) : SolcASTNode :=
  mkSolcASTNode "VariableDeclaration" name src [] None [] None None
    (Some (solcNode "ElementaryTypeName" typeName "")) None None None None
    None None None false 0 "" "".

(** [for (...) { uint x = data[i]; uint y = data[i]; uint z = data[j]; }] *)
Definition loopTwoAndOne : SolcASTNode :=
  ForStatement "183:125:0"
    (Block
       [VariableDeclarationStatement (IndexAccess (Identifier "data") (Identifier "i"));
        VariableDeclarationStatement (IndexAccess (Identifier "data") (Identifier "i"));
        VariableDeclarationStatement (IndexAccess (Identifier "data") (Identifier "j"))]).

(** [{ uint b = a * 2; return b + a * 2; }] *)
Definition functionTwice : SolcASTNode :=
  FunctionDefinition "redundantCalc" "320:140:0"
    (Block
       [VariableDeclarationStatement
          (BinaryOperation "*" (Identifier "a") (Literal "2"));
        Return
          (BinaryOperation "+" (Identifier "b")
             (BinaryOperation "*" (Identifier "a") (Literal "2")))]).




(** The fallback path on ASCII text: the lexer, with the two instances
    above, then Parse. *)
Definition fallbackParse (source : string) : option Node.t :=
  Parse (NewParser TrimSpace_ascii scanInt_dec source).

(** Tokens of a loop whose header nests a parenthesis. *)
Definition nestedHeader : list Token.t :=
  tokenize TrimSpace_ascii scanInt_dec "for ((a) b) { x.y; x.y; }".

(** The state in which the loop of Parse starts on [nestedHeader], and the
    state parseLoop is in when its header skip starts: the keyword and the
    opening parenthesis are consumed. *)
Definition nestedHeaderStart : Parser.t :=
  advance (Parser.mk nestedHeader 0 "" Token.zero).
Definition nestedHeaderAtSkip : Parser.t :=
  advance (advance nestedHeaderStart).

(** A stream with unbalanced parentheses and braces, and the state in which
    the loop of Parse starts on it. *)
Definition unbalanced : list Token.t :=
  tokenize TrimSpace_ascii scanInt_dec "function f( { for ((a { b.c".
Definition unbalancedStart : Parser.t :=
  advance (Parser.mk unbalanced 0 "" Token.zero).

(** A loop nested in the block of a loop, and the same loop in a function
    body. *)
Definition loopInLoop : string := "for (i) { for (j) { a.b; } c.d }".
Definition loopInFunction : string := "function f() { for (j) { a.b; a.b; } }".

(** Tokens of a loop whose block nests a block, and the state parseLoop is
    in when its block loop starts: keyword, header and opening brace are
    consumed. *)
Definition nestedBlock : list Token.t :=
  tokenize TrimSpace_ascii scanInt_dec "for (i) { if (c) { a.b; } s.x; s.x; }".
Definition nestedBlockAtBlock : Parser.t :=
  Nat.iter 6 advance (Parser.mk nestedBlock 0 "" Token.zero).

(** The one report of [loopTwoAndOne]. *)
Definition twoAndOneReport : Report :=
  mkReport "Variable 'data[i]' read 2 times in loop"
    "Cache 'data[i]' in memory before loop" 797 "183:125:0".

(** The one report of [functionTwice]. *)
Definition twiceReport : Report :=
  mkReport "Expression 'a * 2' computed 2 times"
    "Cache the result in a local variable" 100 "320:140:0".




(** The loop of [loopInFunction] as the fallback parser builds it, and the
    tree around it. *)
Definition readTwiceLoop : Node.t :=
  Node.mk "ForStatement" ""
    [Node.mk "Block" ""
       [Node.mk "MemberAccess" "a" [Node.mk "Identifier" "b" [] 1] 1;
        Node.mk "MemberAccess" "a" [Node.mk "Identifier" "b" [] 1] 1]
       1]
    1.

Definition loopInFunctionTree : Node.t :=
  Node.mk "Root" ""
    [Node.mk "FunctionDeclaration" "f" [Node.mk "Block" "" [readTwiceLoop] 1] 1] 0.

(** A contract with one declaration of each kind of report. *)
Definition sampleContract : SolcASTNode :=
  ContractDefinition "Example"
    [VariableDeclaration "smallNum" "uint8" "87:21:0";
     FunctionDefinition "expensiveLoop" "120:190:0" (Block [loopTwoAndOne]);
     functionTwice].

Definition sampleAnalyzer : GasOptimizer SolcASTNode :=
  mkGasOptimizer "" (SolcAST sampleContract) [].

(** ** Reference definitions, following the specification *)

(** Depth-aware matching as the specification words it: scanning the tokens
    that follow an opening parenthesis (or brace), a nested opening symbol
    raises the depth and the scan ends only at the closing symbol met at
    depth 0.  [balancingClose opening closing tokens i depth] is the index of
    that token, [tokens] being the stream from index [i] on. *)
Fixpoint balancingClose (opening closing : string) (tokens : list Token.t)
    (i depth : nat) : option nat :=
  match tokens with
  | [] => None
  | t :: rest =>
      if String.eqb (Token.Value t) opening then
        balancingClose opening closing rest (S i) (S depth)
      else if String.eqb (Token.Value t) closing then
        match depth with
        | O => Some i
        | Datatypes.S d => balancingClose opening closing rest (S i) d
        end
      else balancingClose opening closing rest (S i) depth
  end.

(** ** Vocabulary of the proofs *)

(** [ext p p']: [p'] is a later state of the parser [p], over the same
    tokens, its cursor not behind and not beyond the end of the stream. *)
Definition ext (p p' : Parser.t) : Prop :=
  Parser.Tokens p' = Parser.Tokens p
  /\ (Parser.Pos p <= Parser.Pos p')%nat
  /\ (Parser.Pos p' <= Nat.max (Parser.Pos p) (length (Parser.Tokens p)))%nat.

Definition remaining (p : Parser.t) : nat :=
  length (Parser.Tokens p) - Parser.Pos p.

(** The current token is the one before the cursor, as it is after any
    advance that found a token. *)
Definition currentOk (p : Parser.t) : Prop :=
  (0 < Parser.Pos p <= length (Parser.Tokens p))%nat
  /\ Parser.Current p = nth (Parser.Pos p - 1) (Parser.Tokens p) Token.zero.

(** The three statement builders of Parse return, and move the cursor
    forward whenever a token is left. *)
Definition builderProgress (build : Parser.t -> option (option Node.t * Parser.t))
    : Prop :=
  forall p, exists r p', build p = Some (r, p') /\ ext p p'
    /\ (inRange p = true -> (Parser.Pos p < Parser.Pos p')%nat).

(** An entry of a counting map is reported when its count exceeds one. *)
Definition reportable (e : string * Z) : bool := (1 <? e.2)%Z.

(** The report generateLoopReport makes of an entry, and the one
    checkRedundantOperations makes. *)
Definition loopReport (location : string) (e : string * Z) : Report :=
  mkReport
    ("Variable '" ++ e.1 ++ "' read " ++ pretty e.2 ++ " times in loop")
    ("Cache '" ++ e.1 ++ "' in memory before loop")
    ((e.2 - 1) * (GasSload - GasMload))%Z location.

Definition redundantReport (location : string) (e : string * Z) : Report :=
  mkReport
    ("Expression '" ++ e.1 ++ "' computed " ++ pretty e.2 ++ " times")
    "Cache the result in a local variable"
    (e.2 * 50)%Z location.

Definition reportsIf (make : string * Z -> Report) (e : string * Z) : list Report :=
  if reportable e then [make e] else [].

Definition loopReportsSolc (node : SolcASTNode) :=
  reportsIf (loopReport (Src node)).
Definition redundantReports (node : SolcASTNode) :=
  reportsIf (redundantReport (Src node)).
Definition loopReportsCustom (node : Node.t) :=
  reportsIf (loopReport ("line " ++ pretty (Node.Line node))).

(** What a pass appends when every map is visited in the order of
    [map_to_list]. *)
Definition passReports {N : Type} (table : N -> option (gmap string Z))
    (reportsOf : N -> string * Z -> list Report) (ns : list N) : list Report :=
  flat_map
    (fun n =>
       match table n with
       | Some m => flat_map (reportsOf n) (map_to_list m)
       | None => []
       end)
    ns.







(** The reports of the callback of checkInefficientTypes at a node. *)
Definition typeReports (node : SolcASTNode) : list Report :=
  inefficientType node [].

(** A token of type Operator carries one of the one-character symbols. *)
Definition operatorIsOneChar (t : Token.t) : Prop :=
  Token.Type_ t = TokenOperator -> In (Token.Value t) ["="; "."; ";"; "<"].

(** ** Vocabulary of the lexer properties *)

(** The test of the lexer for a blank, and for a symbol, on one byte. *)
Definition isSpaceOrTab (b : ascii) : bool :=
  String.eqb (stringOfByte b) " " || String.eqb (stringOfByte b) tab.
Definition isSymbol (b : ascii) : bool :=
  lookupTrue operators (stringOfByte b) || lookupTrue punctuation (stringOfByte b).

(** A byte that may occur in the text of a word: not a blank and not a
    symbol of the two tables. *)
Definition wordByte (b : ascii) : bool :=
  negb (existsb (Ascii.eqb b)
          [" "; ascii_of_nat 9; "="; "."; ";"; "<"; "("; ")"; "{"; "}"]%char).

Fixpoint allBytes (f : ascii -> bool) (s : string) : bool :=
  match s with
  | EmptyString => true
  | String b rest => f b && allBytes f rest
  end.

(** What the type of a token says of its text. *)
Definition tokenOk (scanInt : string -> bool) (t : Token.t) : Prop :=
  match Token.Type_ t with
  | TokenPunctuation => In (Token.Value t) punctuation
  | TokenOperator => In (Token.Value t) ["="; "."; ";"; "<"]
  | TokenKeyword => In (Token.Value t) keywords
  | TokenNumber =>
      Token.Value t <> "" /\ allBytes wordByte (Token.Value t) = true
      /\ ~ In (Token.Value t) keywords /\ scanInt (Token.Value t) = true
  | TokenIdentifier =>
      Token.Value t <> "" /\ allBytes wordByte (Token.Value t) = true
      /\ ~ In (Token.Value t) keywords /\ scanInt (Token.Value t) = false
  | TokenWhitespace => False
  end.

(** The texts of the tokens, one after the other. *)
Definition joinValues (tokens : list Token.t) : string :=
  fold_right (fun t s => (Token.Value t ++ s)%string) "" tokens.

(** A line without its blanks, each byte as the lexer converts it. *)
Fixpoint squeeze (line : string) : string :=
  match line with
  | EmptyString => ""
  | String b rest =>
      if isSpaceOrTab b then squeeze rest
      else (stringOfByte b ++ squeeze rest)%string
  end.

Definition shiftLine (k : nat) (t : Token.t) : Token.t :=
  Token.mk (Token.Type_ t) (Token.Value t) (k + Token.Line t).

Definition lineLe (a b : Token.t) : Prop := (Token.Line a <= Token.Line b)%nat.

(** The lines of the tokens read so far: they never decrease, and none
    exceeds the number of the line being read. *)
Definition linesUpTo (n : nat) (tokens : list Token.t) : Prop :=
  StronglySorted lineLe tokens
  /\ Forall (fun t => (1 <= Token.Line t <= n)%nat) tokens.

(** The trimmed lines of a text without their blanks, one after the other. *)
Definition squeezeLines (TrimSpace : string -> string) (lines : list string)
    : string :=
  fold_right (fun line s => (squeeze (TrimSpace line) ++ s)%string) "" lines.

(** ** Vocabulary of the parser properties *)

Definition noChildren (n : Node.t) : bool :=
  match Node.Children n with [] => true | _ => false end.

(** The shapes of the nodes the parser builds.  An access carries at most
    one child, the member, a leaf; a block holds what its builder admits;
    a statement and a function carry at most one child, their block. *)
Definition isAccess (n : Node.t) : bool :=
  String.eqb (Node.Type_ n) "MemberAccess"
  && match Node.Children n with
     | [] => true
     | [member] => String.eqb (Node.Type_ member) "Identifier" && noChildren member
     | _ => false
     end.

Definition isBlockOf (child : Node.t -> bool) (b : Node.t) : bool :=
  String.eqb (Node.Type_ b) "Block" && String.eqb (Node.Value b) ""
  && forallb child (Node.Children b).

Definition isStatementType (ty : string) : bool :=
  String.eqb ty "ForStatement" || String.eqb ty "WhileStatement"
  || String.eqb ty "IfStatement".

Definition isStatement (n : Node.t) : bool :=
  isStatementType (Node.Type_ n) && String.eqb (Node.Value n) ""
  && match Node.Children n with
     | [] => true
     | [b] => isBlockOf isAccess b
     | _ => false
     end.

Definition isFunctionChild (n : Node.t) : bool := isStatement n || isAccess n.

Definition isFunction (n : Node.t) : bool :=
  String.eqb (Node.Type_ n) "FunctionDeclaration"
  && match Node.Children n with
     | [] => true
     | [b] => isBlockOf isFunctionChild b
     | _ => false
     end.

Definition isRootChild (n : Node.t) : bool := isStatement n || isFunction n.

Definition isFallbackTree (root : Node.t) : bool :=
  String.eqb (Node.Type_ root) "Root" && String.eqb (Node.Value root) ""
  && (Node.Line root =? 0)%nat
  && forallb isRootChild (Node.Children root).

Definition optionOk (ok : Node.t -> bool) (r : option Node.t) : bool :=
  match r with Some n => ok n | None => true end.

(** A keyword on which Parse dispatches. *)
Definition statementKeyword (t : Token.t) : bool :=
  TokenType_eqb (Token.Type_ t) TokenKeyword
  && (String.eqb (Token.Value t) "for" || String.eqb (Token.Value t) "while"
      || String.eqb (Token.Value t) "if" || String.eqb (Token.Value t) "function").

Definition emptyRoot : Node.t := Node.mk "Root" "" [] 0.

(** A text whose only statement keyword is its last token, and one where a
    close brace follows a plain identifier inside a block. *)
Definition keywordLast : string := "uint x = 5; for".
Definition braceAfterAccess : Parser.t :=
  Nat.iter 6 advance
    (Parser.mk (tokenize TrimSpace_ascii scanInt_dec "for (i) { a } b.c; }") 0 ""
       Token.zero).

(** The statement builders return nothing or a statement. *)
Definition buildsStatements (build : Parser.t -> option (option Node.t * Parser.t))
    : Prop :=
  forall p r p', build p = Some (r, p') -> optionOk isStatement r = true.


(** ** Vocabulary of the properties of the collectors *)

(** The keys a collector counts, in the order it meets them. *)
Definition incrAll (keys : list string) (m : gmap string Z) : gmap string Z :=
  fold_left (fun m key => incr key m) keys m.

Definition countKey (key : string) (keys : list string) : nat :=
  length (List.filter (String.eqb key) keys).

Definition optionKeys {A : Type} (keys : A -> list string) (o : option A)
    : list string :=
  match o with Some x => keys x | None => [] end.

Definition optionAll {A : Type} (P : A -> Prop) (o : option A) : Prop :=
  match o with Some x => P x | None => True end.

(** The key of an access with a member, in the fallback tree. *)
Definition customKey (child : Node.t) : list string :=
  if String.eqb (Node.Type_ child) "MemberAccess" then
    match Node.Children child with
    | member :: _ => [(Node.Value child ++ "." ++ Node.Value member)%string]
    | [] => []
    end
  else [].

Fixpoint customKeys (node : Node.t) : list string :=
  flat_map (fun child => customKey child ++ customKeys child) (Node.Children node).

(** The key of a declaration statement initialised from an index access. *)
Definition readKey (node : SolcASTNode) : list string :=
  if String.eqb (NodeType node) "VariableDeclarationStatement" then
    match InitialValue node with
    | Some iv =>
        if String.eqb (NodeType iv) "IndexAccess" then
          match BaseExpression iv, IndexExpression iv with
          | Some base, Some index => [(Name base ++ "[" ++ Name index ++ "]")%string]
          | _, _ => []
          end
        else []
    | None => []
    end
  else [].

Fixpoint readKeys (node : SolcASTNode) : list string :=
  readKey node
    ++ flat_map readKeys (Statements node)
    ++ match Body node with Some body => readKeys body | None => [] end.

(** The text of an operand on the left and on the right of an operator:
    the name before the value on the left, the value before the name on the
    right. *)
Definition leftText (n : SolcASTNode) : string :=
  if nonEmpty (Name n) then Name n else if nonEmpty (Value n) then Value n else "".
Definition rightText (n : SolcASTNode) : string :=
  if nonEmpty (Value n) then Value n else if nonEmpty (Name n) then Name n else "".

Definition exprKey (node : SolcASTNode) : list string :=
  if String.eqb (NodeType node) "BinaryOperation" then
    match LeftExpression node, RightExpression node with
    | Some lhs, Some rhs =>
        if nonEmpty (leftText lhs) && nonEmpty (rightText rhs) then
          [(leftText lhs ++ " " ++ Operator node ++ " " ++ rightText rhs)%string]
        else []
    | _, _ => []
    end
  else [].

Fixpoint exprKeys (node : SolcASTNode) : list string :=
  exprKey node
    ++ match LeftExpression node with Some lhs => exprKeys lhs | None => [] end
    ++ match RightExpression node with Some rhs => exprKeys rhs | None => [] end
    ++ (if String.eqb (NodeType node) "VariableDeclarationStatement" then
          match InitialValue node with Some iv => exprKeys iv | None => [] end
        else [])
    ++ (if String.eqb (NodeType node) "Return" then
          match Expression node with Some e => exprKeys e | None => [] end
        else [])
    ++ flat_map exprKeys (Statements node).

(** What a lookup finds in a map of counts made from a list of keys. *)
Definition countOf (key : string) (keys : list string) : option Z :=
  if (countKey key keys =? 0)%nat then None else Some (Z.of_nat (countKey key keys)).

(** The nodes [walkSolcAST] can reach: through the links Nodes, Body and
    Statements, and through no other. *)
Inductive reaches : SolcASTNode -> SolcASTNode -> Prop :=
| reaches_self n : reaches n n
| reaches_node n child d :
    In child (Nodes n) -> reaches child d -> reaches n d
| reaches_body n body d :
    Body n = Some body -> reaches body d -> reaches n d
| reaches_statement n stmt d :
    In stmt (Statements n) -> reaches stmt d -> reaches n d.

(** ** Vocabulary of the properties of the passes and of the construction *)

(** A declaration the type-width pass reports, and its report. *)
Definition smallWidthDeclaration (node : SolcASTNode) : bool :=
  String.eqb (NodeType node) "VariableDeclaration"
  && match TypeName node with
     | Some ty =>
         String.eqb (Name ty) "uint8" || String.eqb (Name ty) "uint16"
         || String.eqb (Name ty) "uint32"
     | None => false
     end.

Definition typeReport (node : SolcASTNode) : Report :=
  mkReport
    ("Inefficient type '"
       ++ match TypeName node with Some ty => Name ty | None => "" end
       ++ "' used for variable '" ++ Name node ++ "'")
    "Use 'uint256' to avoid packing overhead unless tightly packed in a struct"
    200 (Src node).

(** A text without the byte [c]. *)
Definition withoutByte (c : ascii) (s : string) : bool :=
  allBytes (fun b => negb (Ascii.eqb b c)) s.

(** The tree document between its braces. *)
Definition braced (body : string) : string :=
  String "{" (body ++ "}")%string.

(** A source text all of whose lines are blank. *)
Definition blankSource (TrimSpace : string -> string) (source : string) : Prop :=
  Forall (fun line => TrimSpace line = "") (splitLines source).

(** ** PrintReports *)

Definition nl : string := String newline "".

(** The five lines printed for the report of index [i], and the text
    printed for the reports from index [i] on. *)
Definition reportBlock (i : nat) (r : Report) : string :=
  ("Report " ++ pretty (i + 1)%nat ++ ":" ++ nl
   ++ "  Issue: " ++ Issue r ++ nl
   ++ "  Suggestion: " ++ Suggestion r ++ nl
   ++ "  Gas Savings: " ++ pretty (GasSavings r) ++ nl
   ++ "  Location: " ++ Location r ++ nl ++ nl)%string.

Fixpoint printFrom (i : nat) (reports : list Report) : string :=
  match reports with
  | [] => ""
  | r :: rest => (reportBlock i r ++ printFrom (S i) rest)%string
  end.

Definition noOpportunities : string :=
  ("No gas optimization opportunities found." ++ nl)%string.

(** What PrintReports writes to the standard output. *)
Definition PrintReports (reports : list Report) : string :=
  if (length reports =? 0)%nat then noOpportunities else printFrom 0 reports.

(** ** Vocabulary of the report groups *)

(** The reports one [range] over a map of counts appends, in the order of
    that range: [make] of each key whose count exceeds one, each such key
    once, and nothing else.  [counts] is the lookup of the map. *)
Definition groupOf (make : string * Z -> Report) (counts : string -> option Z)
    (group : list Report) : Prop :=
  exists entries : list (string * Z),
    group = map make entries
    /\ NoDup (map fst entries)
    /\ forall key n, In (key, n) entries <-> counts key = Some n /\ (1 < n)%Z.

(** The group of a node in a pass: that of its map, and empty where the
    pass builds no map. *)
Definition passGroup {N : Type} (table : N -> option (gmap string Z))
    (make : N -> string * Z -> Report) (n : N) (group : list Report) : Prop :=
  match table n with
  | Some m => groupOf (make n) (fun key => m !! key) group
  | None => group = []
  end.

(** The group of a visited node in the loop pass over the external tree:
    for a loop, one report for each key that collectStorageReadsSolc counts
    n > 1 times in its body, with savings (n-1)*(800-3), at the Src of the
    loop; for any other node, nothing. *)
Definition loopGroup (node : SolcASTNode) (group : list Report) : Prop :=
  if String.eqb (NodeType node) "ForStatement"
     || String.eqb (NodeType node) "WhileStatement"
  then
    groupOf
      (fun '(key, n) =>
         mkReport ("Variable '" ++ key ++ "' read " ++ pretty n ++ " times in loop")
           ("Cache '" ++ key ++ "' in memory before loop")
           ((n - 1) * (800 - 3))%Z (Src node))
      (fun key =>
         match Body node with
         | Some body => collectStorageReadsSolc body ∅ !! key
         | None => None
         end)
      group
  else group = [].

(** The group of a visited node in the redundant-expression pass: for a
    function definition with a body, one report for each key that
    collectExpressions counts n > 1 times in the body, with savings n*50, at
    the Src of the function; for any other node, nothing. *)
Definition redundantGroup (node : SolcASTNode) (group : list Report) : Prop :=
  match Body node with
  | Some body =>
      if String.eqb (NodeType node) "FunctionDefinition" then
        groupOf
          (fun '(key, n) =>
             mkReport ("Expression '" ++ key ++ "' computed " ++ pretty n ++ " times")
               "Cache the result in a local variable"
               (n * 50)%Z (Src node))
          (fun key => collectExpressions body ∅ !! key)
          group
      else group = []
  | None => group = []
  end.

(** The group of a child of the root in the pass over the fallback tree:
    for a loop, one report for each key that collectStorageReadsCustom
    counts n > 1 times below it, with savings (n-1)*(800-3), at its line. *)
Definition customLoopGroup (node : Node.t) (group : list Report) : Prop :=
  if String.eqb (Node.Type_ node) "ForStatement"
     || String.eqb (Node.Type_ node) "WhileStatement"
  then
    groupOf
      (fun '(key, n) =>
         mkReport ("Variable '" ++ key ++ "' read " ++ pretty n ++ " times in loop")
           ("Cache '" ++ key ++ "' in memory before loop")
           ((n - 1) * (800 - 3))%Z ("line " ++ pretty (Node.Line node)))
      (fun key => collectStorageReadsCustom node ∅ !! key)
      group
  else group = [].


(** ** Bodies of the examples *)

(** [{ uint x = data[i]; uint y = data[i]; uint z = data[j]; }], the body
    of [loopTwoAndOne]. *)
Definition twoAndOneBody : SolcASTNode :=
  Block
    [VariableDeclarationStatement (IndexAccess (Identifier "data") (Identifier "i"));
     VariableDeclarationStatement (IndexAccess (Identifier "data") (Identifier "i"));
     VariableDeclarationStatement (IndexAccess (Identifier "data") (Identifier "j"))].





(** ** Vocabulary of the block loop *)

(** What a state of the parser has before it: the current token and the
    tokens from the cursor on. *)
Definition stream (p : Parser.t) : list Token.t :=
  skipn (Parser.Pos p - 1) (Parser.Tokens p).

(** [view p c rest]: the current token of [p] is [c], the one before the
    cursor, and [rest] are the tokens from the cursor on. *)
Definition view (p : Parser.t) (c : Token.t) (rest : list Token.t) : Prop :=
  currentOk p /\ Parser.Current p = c
  /\ skipn (Parser.Pos p) (Parser.Tokens p) = rest.

Definition isIdentifier (t : Token.t) : bool :=
  TokenType_eqb (Token.Type_ t) TokenIdentifier.

Definition isDot (t : Token.t) : bool :=
  TokenType_eqb (Token.Type_ t) TokenOperator && String.eqb (Token.Value t) ".".

(** Where the block loop of a loop or conditional stops, told on the tokens
    alone.  The argument is the token the loop tests first, followed by the
    tokens after it; the result starts with the token at which the loop
    stops.  The loop stops when the token it tests is a close brace, or is
    the last of the stream.  A tested token that is no Identifier, an open
    brace included, is passed on its own.  A tested Identifier is passed
    together with the member operator and the member that may follow it,
    and with one token more, which is not tested.  No depth is kept.  Where
    the stream ends within such a step, the last token stays current. *)
Fixpoint blockStop (ts : list Token.t) : list Token.t :=
  match ts with
  | [] => []
  | c :: rest =>
      match rest with
      | [] => ts
      | t1 :: r1 =>
          if String.eqb (Token.Value c) "}" then ts
          else if isIdentifier c then
            if isDot t1 then
              match r1 with
              | [] => [t1]
              | t2 :: r2 =>
                  if isIdentifier t2 then
                    match r2 with
                    | [] => [t2]
                    | t3 :: r3 =>
                        match r3 with
                        | [] => [t3]
                        | _ :: _ => blockStop r3
                        end
                    end
                  else
                    match r2 with
                    | [] => [t2]
                    | _ :: _ => blockStop r2
                    end
              end
            else
              match r1 with
              | [] => [t1]
              | _ :: _ => blockStop r1
              end
          else blockStop rest
      end
  end.

(** Tokens of a loop whose block holds a close brace right after an access,
    and the state parseLoop is in when its block loop starts on them. *)
Definition braceInBlock : list Token.t :=
  tokenize TrimSpace_ascii scanInt_dec "for (i) { a.b } s.x; s.x; }".
Definition braceInBlockAtBlock : Parser.t :=
  Nat.iter 6 advance (Parser.mk braceInBlock 0 "" Token.zero).

(** * Properties *)

(** ** The bounded loop *)

Lemma whileLoop_total {S : Type} (cond : S -> bool) (body : S -> option S)
    (mu : S -> nat) (I : S -> Prop) :
  (forall s, I s -> cond s = true ->
     exists s', body s = Some s' /\ I s' /\ (mu s' < mu s)%nat) ->
  forall fuel s, I s -> (mu s <= fuel)%nat ->
    exists s', whileLoop cond body fuel s = Some s' /\ I s' /\ cond s' = false.
Proof.
  intros Hstep fuel.
  induction fuel as [|fuel IH]; intros s HI Hmu; simpl;
    destruct (cond s) eqn:Hc; try (exists s; auto; fail).
  - destruct (Hstep s HI Hc) as (s' & _ & _ & Hlt). lia.
  - destruct (Hstep s HI Hc) as (s' & Hb & HI' & Hlt).
    rewrite Hb. simpl. apply IH; [assumption | lia].
Qed.

(** ** Progress of the cursor *)

Lemma ext_refl p : ext p p.
Proof. unfold ext. repeat split; lia. Qed.

Lemma ext_trans p q r : ext p q -> ext q r -> ext p r.
Proof. unfold ext. intros (E1 & ? & ?) (E2 & ? & ?). rewrite E1 in *. repeat split; [congruence | lia | lia]. Qed.

Lemma inRange_lt p :
  inRange p = true <-> (Parser.Pos p < length (Parser.Tokens p))%nat.
Proof. unfold inRange. apply Nat.ltb_lt. Qed.

Lemma advance_ext p : ext p (advance p).
Proof.
  unfold advance, ext.
  destruct (Nat.ltb_spec (Parser.Pos p) (length (Parser.Tokens p))); simpl;
    repeat split; lia.
Qed.

Lemma advance_lt p :
  inRange p = true -> (Parser.Pos p < Parser.Pos (advance p))%nat.
Proof.
  intros H. apply inRange_lt in H. unfold advance.
  destruct (Nat.ltb_spec (Parser.Pos p) (length (Parser.Tokens p))); simpl; lia.
Qed.

Lemma remaining_bound p : (remaining p <= bound p)%nat.
Proof. unfold remaining, bound. lia. Qed.

Lemma ext_lt_remaining p p' :
  ext p p' -> inRange p = true -> (Parser.Pos p < Parser.Pos p')%nat ->
  (remaining p' < remaining p)%nat.
Proof.
  unfold ext, remaining. intros (E & ? & ?) Hr%inRange_lt ?. rewrite E. lia.
Qed.

Create HintDb parser.
#[local] Hint Resolve ext_refl advance_ext : parser.

Lemma parseVariableAccess_ext p :
  ext p (parseVariableAccess p).2.
Proof.
  unfold parseVariableAccess.
  repeat match goal with |- context [if ?c then _ else _] => destruct c end;
    simpl; eauto using ext_trans with parser.
Qed.

Lemma parseVariableAccess_lt p :
  inRange p = true -> (Parser.Pos p < Parser.Pos (parseVariableAccess p).2)%nat.
Proof.
  intros H. pose proof (advance_lt p H) as Hlt.
  assert (Hge : forall q, ext (advance p) q -> (Parser.Pos p < Parser.Pos q)%nat)
    by (intros q (_ & ? & _); lia).
  unfold parseVariableAccess.
  repeat match goal with |- context [if ?c then _ else _] => destruct c end;
    simpl; apply Hge; eauto using ext_trans with parser.
Qed.

Lemma ext_pos_lt p q r :
  (Parser.Pos p < Parser.Pos q)%nat -> ext q r -> (Parser.Pos p < Parser.Pos r)%nat.
Proof. intros ? (_ & ? & _). lia. Qed.

(** A loop over a node under construction and the parser, whose every
    iteration moves the cursor forward, ends within the bound. *)
Lemma whileLoop_parser {X : Type} (cond : X * Parser.t -> bool)
    (body : X * Parser.t -> option (X * Parser.t)) :
  (forall s, cond s = true -> inRange s.2 = true) ->
  (forall s, cond s = true ->
     exists s', body s = Some s' /\ ext s.2 s'.2
                /\ (Parser.Pos s.2 < Parser.Pos s'.2)%nat) ->
  forall s fuel, (remaining s.2 <= fuel)%nat ->
    exists s', whileLoop cond body fuel s = Some s' /\ ext s.2 s'.2
               /\ cond s' = false.
Proof.
  intros Hrange Hstep s fuel Hfuel.
  apply (whileLoop_total cond body (fun s => remaining s.2) (fun s' => ext s.2 s'.2));
    auto with parser.
  intros t Ht Hc. destruct (Hstep t Hc) as (t' & Hb & He & Hlt).
  exists t'. split; [assumption|]. split; [eauto using ext_trans|].
  eauto using ext_lt_remaining.
Qed.

Lemma skipHeader_ext p :
  exists p', skipHeader p = Some p' /\ ext p p'
    /\ (currentValueIs p' ")" = true \/ inRange p' = false).
Proof.
  unfold skipHeader.
  assert (Hstep : forall s, ext p s ->
            negb (currentValueIs s ")") && inRange s = true ->
            exists s', Some (advance s) = Some s' /\ ext p s'
                       /\ (remaining s' < remaining s)%nat).
  { intros s Hs Hc. apply andb_prop in Hc as [_ Hr].
    exists (advance s). split; [reflexivity|].
    split; [eauto using ext_trans with parser|].
    eauto using ext_lt_remaining, advance_lt with parser. }
  destruct (whileLoop_total _ _ remaining (ext p) Hstep (bound p) p
              (ext_refl p) (remaining_bound p)) as (p' & Hrun & He & Hc).
  exists p'. repeat split; try assumption; try apply He.
  destruct (currentValueIs p' ")"); simpl in Hc; auto.
Qed.

Lemma blockCond_inRange (s : Node.t * Parser.t) :
  blockCond s = true -> inRange s.2 = true.
Proof. unfold blockCond. intros [_ ?]%andb_prop. assumption. Qed.

Lemma blockCond_false (s : Node.t * Parser.t) :
  blockCond s = false -> currentValueIs s.2 "}" = true \/ inRange s.2 = false.
Proof.
  unfold blockCond. destruct (currentValueIs s.2 "}"); simpl; auto.
Qed.

Lemma blockBody_step (s : Node.t * Parser.t) :
  blockCond s = true ->
  exists s', blockBody s = Some s' /\ ext s.2 s'.2
             /\ (Parser.Pos s.2 < Parser.Pos s'.2)%nat.
Proof.
  intros Hr%blockCond_inRange. destruct s as [body p]. simpl in *.
  unfold blockBody.
  destruct (currentIs p TokenIdentifier).
  - pose proof (parseVariableAccess_ext p) as He.
    pose proof (parseVariableAccess_lt p Hr) as Hlt.
    destruct (parseVariableAccess p) as [access q]. simpl in *.
    eexists. split; [reflexivity|]. simpl.
    split; [eauto using ext_trans with parser|].
    eapply ext_pos_lt; eauto with parser.
  - eexists. split; [reflexivity|]. simpl.
    split; [auto with parser | auto using advance_lt].
Qed.

Lemma buildBlock_ext body p :
  exists body' p', buildBlock body p = Some (body', p') /\ ext p p'
    /\ (currentValueIs p' "}" = true \/ inRange p' = false).
Proof.
  unfold buildBlock.
  destruct (whileLoop_parser blockCond blockBody blockCond_inRange blockBody_step
              (body, p) (bound p) (remaining_bound p)) as ([body' p'] & Hrun & He & Hc).
  apply blockCond_false in Hc. simpl in *.
  exists body', p'. auto.
Qed.

Lemma parseLoop_ext node p :
  exists r p', parseLoop node p = Some (r, p') /\ ext p p'.
Proof.
  unfold parseLoop.
  destruct (negb (currentIs p TokenPunctuation) || negb (currentValueIs p "(")).
  { eauto with parser. }
  destruct (skipHeader_ext (advance p)) as (p1 & -> & He1 & _). simpl.
  destruct (currentIs (advance p1) TokenPunctuation && currentValueIs (advance p1) "{").
  - destruct (buildBlock_ext
                (Node.mk "Block" "" [] (Token.Line (Parser.Current (advance (advance p1)))))
                (advance (advance p1))) as (body' & p2 & -> & He2 & _).
    simpl. do 2 eexists. split; [reflexivity|].
    eauto 10 using ext_trans with parser.
  - do 2 eexists. split; [reflexivity|]. eauto using ext_trans with parser.
Qed.

Lemma parseIfStatement_as_parseLoop p :
  parseIfStatement p =
  parseLoop (Node.mk "IfStatement" "" [] (Token.Line (Parser.Current p))) (advance p).
Proof. reflexivity. Qed.

Lemma after_advance (node : Node.t) p :
  exists r p', parseLoop node (advance p) = Some (r, p') /\ ext p p'
    /\ (inRange p = true -> (Parser.Pos p < Parser.Pos p')%nat).
Proof.
  destruct (parseLoop_ext node (advance p)) as (r & p' & Hrun & He).
  exists r, p'. split; [assumption|]. split; [eauto using ext_trans with parser|].
  intros Hr. eapply ext_pos_lt; eauto using advance_lt.
Qed.

Lemma parseForLoop_progress : builderProgress parseForLoop.
Proof. intros p. unfold parseForLoop. apply after_advance. Qed.

Lemma parseWhileLoop_progress : builderProgress parseWhileLoop.
Proof. intros p. unfold parseWhileLoop. apply after_advance. Qed.

Lemma parseIfStatement_progress : builderProgress parseIfStatement.
Proof. intros p. rewrite parseIfStatement_as_parseLoop. apply after_advance. Qed.

Lemma dispatch_progress build (parent : Node.t) p :
  builderProgress build ->
  exists parent' p',
    ('(n, q) ← build p; Some (appendNotNil parent n, q)) = Some (parent', p')
    /\ ext p p' /\ (inRange p = true -> (Parser.Pos p < Parser.Pos p')%nat).
Proof.
  intros Hb. destruct (Hb p) as (r & p' & -> & He & Hlt). simpl. eauto.
Qed.

Lemma functionBlockBody_step (s : Node.t * Parser.t) :
  blockCond s = true ->
  exists s', functionBlockBody s = Some s' /\ ext s.2 s'.2
             /\ (Parser.Pos s.2 < Parser.Pos s'.2)%nat.
Proof.
  intros Hr%blockCond_inRange. destruct s as [body p]. simpl in *.
  unfold functionBlockBody.
  assert (Hdispatch : forall build, builderProgress build ->
            exists s', ('(body, p) ← ('(n, q) ← build p; Some (appendNotNil body n, q));
                        Some (body, advance p)) = Some s'
                       /\ ext p s'.2 /\ (Parser.Pos p < Parser.Pos s'.2)%nat).
  { intros build Hb.
    destruct (dispatch_progress build body p Hb) as (b' & p' & -> & He & Hlt).
    simpl. eexists. split; [reflexivity|]. simpl.
    split; [eauto using ext_trans with parser|].
    eapply ext_pos_lt; eauto with parser. }
  assert (Hskip : exists s', Some (body, advance p) = Some s'
                    /\ ext p s'.2 /\ (Parser.Pos p < Parser.Pos s'.2)%nat).
  { eexists. split; [reflexivity|]. simpl. auto using advance_lt with parser. }
  destruct (currentIs p TokenKeyword).
  - destruct (currentValueIs p "for");
      [apply Hdispatch, parseForLoop_progress|].
    destruct (currentValueIs p "while");
      [apply Hdispatch, parseWhileLoop_progress|].
    destruct (currentValueIs p "if");
      [apply Hdispatch, parseIfStatement_progress|].
    exact Hskip.
  - destruct (currentIs p TokenIdentifier); [|exact Hskip].
    pose proof (parseVariableAccess_ext p) as He.
    pose proof (parseVariableAccess_lt p Hr) as Hlt.
    destruct (parseVariableAccess p) as [access q]. simpl in *.
    eexists. split; [reflexivity|]. simpl.
    split; [eauto using ext_trans with parser|].
    eapply ext_pos_lt; eauto with parser.
Qed.

Lemma parseFunction_progress : builderProgress parseFunction.
Proof.
  intros p. unfold parseFunction.
  set (funcNode := Node.mk "FunctionDeclaration" "" [] (Token.Line (Parser.Current p))).
  assert (Hname : exists fn p1,
            (if currentIs (advance p) TokenIdentifier
             then (Node.mk (Node.Type_ funcNode) (Token.Value (Parser.Current (advance p)))
                     (Node.Children funcNode) (Node.Line funcNode), advance (advance p))
             else (funcNode, advance p)) = (fn, p1)
            /\ ext (advance p) p1).
  { destruct (currentIs (advance p) TokenIdentifier); eauto with parser. }
  destruct Hname as (fn & p1 & -> & He1).
  assert (Hparams : exists p2,
            (if currentIs p1 TokenPunctuation && currentValueIs p1 "("
             then q ← skipHeader (advance p1); Some (advance q)
             else Some p1) = Some p2 /\ ext p1 p2).
  { destruct (currentIs p1 TokenPunctuation && currentValueIs p1 "("); [|eauto with parser].
    destruct (skipHeader_ext (advance p1)) as (q & -> & Hq & _). simpl.
    eauto 10 using ext_trans with parser. }
  destruct Hparams as (p2 & -> & He2). simpl.
  assert (Hstart : ext p p2) by eauto using ext_trans with parser.
  assert (Hlt : forall q, ext p2 q -> inRange p = true ->
                  (Parser.Pos p < Parser.Pos q)%nat).
  { intros q Hq Hr. eapply ext_pos_lt; [apply advance_lt, Hr|].
    eauto using ext_trans. }
  destruct (currentIs p2 TokenPunctuation && currentValueIs p2 "{").
  - destruct (whileLoop_parser blockCond functionBlockBody blockCond_inRange
                functionBlockBody_step
                (Node.mk "Block" "" [] (Token.Line (Parser.Current (advance p2))), advance p2)
                (bound (advance p2)) (remaining_bound (advance p2)))
      as ([body' p3] & -> & He3 & _).
    simpl in *. do 2 eexists. split; [reflexivity|].
    assert (ext p2 (advance p3)) by eauto using ext_trans with parser.
    split; [eauto using ext_trans|auto].
  - do 2 eexists. split; [reflexivity|]. auto with parser.
Qed.

Lemma parseStep_progress (s : Node.t * Parser.t) :
  inRange s.2 = true ->
  exists s', parseStep s = Some s' /\ ext s.2 s'.2
             /\ (Parser.Pos s.2 < Parser.Pos s'.2)%nat.
Proof.
  destruct s as [root p]. simpl. intros Hr. unfold parseStep.
  assert (Hdispatch : forall build, builderProgress build ->
            exists s', ('(n, q) ← build p; Some (appendNotNil root n, q)) = Some s'
                       /\ ext p s'.2 /\ (Parser.Pos p < Parser.Pos s'.2)%nat).
  { intros build Hb.
    destruct (dispatch_progress build root p Hb) as (r' & p' & -> & He & Hlt).
    eexists. split; [reflexivity|]. simpl. auto. }
  assert (Hskip : exists s', Some (root, advance p) = Some s'
                    /\ ext p s'.2 /\ (Parser.Pos p < Parser.Pos s'.2)%nat).
  { eexists. split; [reflexivity|]. simpl. auto using advance_lt with parser. }
  destruct (currentIs p TokenKeyword); [|exact Hskip].
  destruct (currentValueIs p "for"); [apply Hdispatch, parseForLoop_progress|].
  destruct (currentValueIs p "while"); [apply Hdispatch, parseWhileLoop_progress|].
  destruct (currentValueIs p "if"); [apply Hdispatch, parseIfStatement_progress|].
  destruct (currentValueIs p "function"); [apply Hdispatch, parseFunction_progress|].
  exact Hskip.
Qed.

Lemma ParseRun_total p :
  exists root p', ParseRun p = Some (root, p') /\ ext p p' /\ inRange p' = false.
Proof.
  unfold ParseRun.
  destruct (whileLoop_parser (fun s => inRange s.2) parseStep (fun s H => H)
              parseStep_progress (Node.mk "Root" "" [] 0, advance p)
              (bound (advance p)) (remaining_bound (advance p)))
    as ([root p'] & -> & He & Hc).
  simpl in *. exists root, p'. eauto using ext_trans with parser.
Qed.

(** C8. For every token stream, balanced or not, empty or not, and from
    every state of the parser: Parse returns a tree, with the cursor at the
    end of the stream; an advance that finds a token moves the cursor by one
    and reads a token of the stream, never past its end; every iteration of
    the loop of Parse leaves the cursor strictly further, within the stream;
    and so does every iteration of the header skip and of the two block
    loops. *)
Theorem Parse_terminates_cursor_advances (p : Parser.t) (root : Node.t) :
  (exists tree p', ParseRun p = Some (tree, p') /\ Parse p = Some tree
     /\ ext p p' /\ inRange p' = false)
  /\ (inRange p = true ->
      Parser.Pos (advance p) = Parser.Pos p + 1
      /\ Parser.Tokens p !! Parser.Pos p = Some (Parser.Current (advance p)))
  /\ (inRange p = true ->
      exists root' p', parseStep (root, p) = Some (root', p')
        /\ Parser.Tokens p' = Parser.Tokens p
        /\ (Parser.Pos p < Parser.Pos p' <= length (Parser.Tokens p))%nat)
  /\ (blockCond (root, p) = true ->
      (Parser.Pos p < Parser.Pos (advance p))%nat
      /\ (exists s', blockBody (root, p) = Some s'
            /\ (Parser.Pos p < Parser.Pos s'.2 <= length (Parser.Tokens p))%nat)
      /\ (exists s', functionBlockBody (root, p) = Some s'
            /\ (Parser.Pos p < Parser.Pos s'.2 <= length (Parser.Tokens p))%nat)).
Proof.
  assert (Hin : forall q, inRange p = true -> ext p q ->
            (Parser.Pos q <= length (Parser.Tokens p))%nat).
  { intros q Hr%inRange_lt (_ & _ & Hmax). lia. }
  split; [|split; [|split]].
  - destruct (ParseRun_total p) as (tree & p' & Hrun & He & Hend).
    exists tree, p'. unfold Parse. rewrite Hrun. auto.
  - intros Hr. unfold advance. unfold inRange in Hr. rewrite Hr. simpl.
    split; [reflexivity|]. apply Nat.ltb_lt, lookup_lt_is_Some_2 in Hr as [t Ht].
    rewrite nth_lookup, Ht. reflexivity.
  - intros Hr. destruct (parseStep_progress (root, p) Hr) as ([root' p'] & Hs & He & Hlt).
    simpl in *. exists root', p'. split; [assumption|].
    split; [apply He | auto].
  - intros Hc. pose proof (blockCond_inRange _ Hc) as Hr. simpl in Hr.
    split; [apply advance_lt, Hr|]. split.
    + destruct (blockBody_step _ Hc) as (s' & Hs & He & Hlt). simpl in *.
      exists s'. auto.
    + destruct (functionBlockBody_step _ Hc) as (s' & Hs & He & Hlt). simpl in *.
      exists s'. auto.
Qed.

Lemma Parse_terminates_cursor_advances_witness :
  (exists tree p', ParseRun unbalancedStart = Some (tree, p')
     /\ Parse unbalancedStart = Some tree
     /\ ext unbalancedStart p' /\ inRange p' = false)
  /\ (Parser.Pos (advance unbalancedStart) = Parser.Pos unbalancedStart + 1
      /\ Parser.Tokens unbalancedStart !! Parser.Pos unbalancedStart
         = Some (Parser.Current (advance unbalancedStart)))
  /\ (exists root' p',
        parseStep (Node.mk "Root" "" [] 0, unbalancedStart) = Some (root', p')
        /\ Parser.Tokens p' = Parser.Tokens unbalancedStart
        /\ (Parser.Pos unbalancedStart < Parser.Pos p'
            <= length (Parser.Tokens unbalancedStart))%nat)
  /\ (exists s', blockBody (Node.mk "Root" "" [] 0, unbalancedStart) = Some s'
        /\ (Parser.Pos unbalancedStart < Parser.Pos s'.2
            <= length (Parser.Tokens unbalancedStart))%nat).
Proof.
  destruct (Parse_terminates_cursor_advances unbalancedStart (Node.mk "Root" "" [] 0))
    as (H1 & H2 & H3 & H4).
  split; [exact H1|]. split; [apply H2; reflexivity|].
  split; [apply H3; reflexivity|]. apply H4. reflexivity.
Defined.

(** ** The header skip and the block loop keep no depth *)

Lemma advance_currentOk p : currentOk p -> currentOk (advance p).
Proof.
  unfold currentOk, advance. intros [Hpos Hcur].
  destruct (Nat.ltb_spec (Parser.Pos p) (length (Parser.Tokens p))); simpl.
  - split; [lia|]. f_equal. lia.
  - auto.
Qed.

Lemma currentOk_end p :
  currentOk p -> inRange p = false -> Parser.Pos p = length (Parser.Tokens p).
Proof.
  unfold currentOk, inRange. intros [Hpos _] Hr%Nat.ltb_ge. lia.
Qed.

Lemma skipHeader_first_close p :
  currentOk p ->
  exists p', skipHeader p = Some p' /\ ext p p' /\ currentOk p'
    /\ (forall k, (Parser.Pos p <= k < Parser.Pos p')%nat ->
          Token.Value (nth (k - 1) (Parser.Tokens p) Token.zero) <> ")")
    /\ (Token.Value (Parser.Current p') = ")"
        \/ Parser.Pos p' = length (Parser.Tokens p)).
Proof.
  intros Hok. unfold skipHeader.
  set (I := fun s => ext p s /\ currentOk s
              /\ forall k, (Parser.Pos p <= k < Parser.Pos s)%nat ->
                   Token.Value (nth (k - 1) (Parser.Tokens p) Token.zero) <> ")").
  assert (Hstep : forall s, I s ->
            negb (currentValueIs s ")") && inRange s = true ->
            exists s', Some (advance s) = Some s' /\ I s'
                       /\ (remaining s' < remaining s)%nat).
  { intros s (He & Hs & Hpassed) Hc. apply andb_prop in Hc as [Hv Hr].
    exists (advance s). split; [reflexivity|]. split.
    - split; [eauto using ext_trans with parser|].
      split; [auto using advance_currentOk|].
      intros k Hk.
      assert (Hpos : Parser.Pos (advance s) = Parser.Pos s + 1).
      { unfold advance. unfold inRange in Hr. rewrite Hr. reflexivity. }
      destruct (decide (k < Parser.Pos s)%nat) as [Hlt|Hge]; [apply Hpassed; lia|].
      assert (k = Parser.Pos s) as -> by lia.
      destruct Hs as [_ Hcur]. destruct He as (Ht & _). rewrite <- Ht, <- Hcur.
      unfold currentValueIs in Hv. apply negb_true_iff, String.eqb_neq in Hv.
      exact Hv.
    - eauto using ext_lt_remaining, advance_lt with parser. }
  assert (HI : I p).
  { split; [apply ext_refl|]. split; [assumption|]. intros k Hk. lia. }
  destruct (whileLoop_total _ _ remaining I Hstep (bound p) p HI (remaining_bound p))
    as (p' & Hrun & (He & Hok' & Hpassed) & Hc).
  exists p'. repeat split; try assumption; try apply He; try apply Hok'.
  destruct (currentValueIs p' ")") eqn:Hv; simpl in Hc.
  - left. apply String.eqb_eq. exact Hv.
  - right. destruct He as (Ht & _). rewrite <- Ht. auto using currentOk_end.
Qed.

Lemma skipn_cons_nth {A : Type} (l : list A) k x r d :
  skipn k l = x :: r ->
  nth k l d = x /\ skipn (S k) l = r /\ (k < length l)%nat.
Proof.
  revert l. induction k as [|k IH]; intros [|a l]; simpl; try discriminate.
  - intros [= -> ->]. auto with lia.
  - intros H. apply IH in H as (? & ? & ?). auto with lia.
Qed.

Lemma skipn_nth_cons {A : Type} (l : list A) k d :
  (k < length l)%nat -> skipn k l = nth k l d :: skipn (S k) l.
Proof.
  revert l. induction k as [|k IH]; intros [|a l]; simpl; try lia.
  - reflexivity.
  - intros H. apply IH. lia.
Qed.

Lemma currentOk_view p :
  currentOk p -> view p (Parser.Current p) (skipn (Parser.Pos p) (Parser.Tokens p)).
Proof. intros H. split; [exact H|]. split; reflexivity. Qed.

Lemma view_stream p c rest : view p c rest -> stream p = c :: rest.
Proof.
  intros ([Hpos Hcur] & <- & <-). unfold stream. rewrite Hcur.
  rewrite (skipn_nth_cons _ (Parser.Pos p - 1) Token.zero) by lia.
  do 2 f_equal. lia.
Qed.

Lemma view_advance_nil p c : view p c [] -> advance p = p.
Proof.
  intros (_ & _ & Hs). unfold advance.
  destruct (Nat.ltb_spec (Parser.Pos p) (length (Parser.Tokens p))) as [Hlt|];
    [|reflexivity].
  apply (f_equal (@length _)) in Hs. rewrite length_skipn in Hs. simpl in Hs. lia.
Qed.

Lemma view_advance_cons p c t r : view p c (t :: r) -> view (advance p) t r.
Proof.
  intros (Hok & _ & Hs).
  apply (skipn_cons_nth _ _ _ _ Token.zero) in Hs as (Hn & Hr & Hlt).
  split; [apply advance_currentOk, Hok|].
  unfold advance. apply Nat.ltb_lt in Hlt. rewrite Hlt. simpl.
  split; [exact Hn|]. rewrite Nat.add_1_r. exact Hr.
Qed.

Lemma view_isIdentifier p c rest :
  view p c rest -> currentIs p TokenIdentifier = isIdentifier c.
Proof. intros (_ & <- & _). reflexivity. Qed.

Lemma view_isDot p c rest :
  view p c rest -> currentIs p TokenOperator && currentValueIs p "." = isDot c.
Proof. intros (_ & <- & _). reflexivity. Qed.

Lemma view_value p c rest v :
  view p c rest -> currentValueIs p v = String.eqb (Token.Value c) v.
Proof. intros (_ & <- & _). reflexivity. Qed.

Lemma view_inRange p c rest :
  view p c rest -> inRange p = match rest with [] => false | _ :: _ => true end.
Proof.
  intros (_ & _ & Hs). unfold inRange.
  apply (f_equal (@length _)) in Hs. rewrite length_skipn in Hs.
  destruct rest; simpl in Hs;
    destruct (Nat.ltb_spec (Parser.Pos p) (length (Parser.Tokens p)));
    try reflexivity; lia.
Qed.

Lemma isDot_not_identifier t : isDot t = true -> isIdentifier t = false.
Proof.
  unfold isDot, isIdentifier. destruct (Token.Type_ t); simpl; try discriminate.
  reflexivity.
Qed.

(** The state parseVariableAccess leaves: behind the identifier, behind the
    member operator when no Identifier follows it, behind the member
    otherwise; where the stream ends, on its last token. *)
Lemma parseVariableAccess_view p c t1 r1 :
  view p c (t1 :: r1) ->
  if isDot t1 then
    match r1 with
    | [] => view (parseVariableAccess p).2 t1 []
    | t2 :: r2 =>
        if isIdentifier t2 then
          match r2 with
          | [] => view (parseVariableAccess p).2 t2 []
          | t3 :: r3 => view (parseVariableAccess p).2 t3 r3
          end
        else view (parseVariableAccess p).2 t2 r2
    end
  else view (parseVariableAccess p).2 t1 r1.
Proof.
  intros Hv%view_advance_cons. unfold parseVariableAccess.
  rewrite (view_isDot _ _ _ Hv). destruct (isDot t1) eqn:Hdot; [|exact Hv].
  destruct r1 as [|t2 r2].
  - rewrite (view_advance_nil _ _ Hv), (view_isIdentifier _ _ _ Hv).
    rewrite (isDot_not_identifier _ Hdot). exact Hv.
  - apply view_advance_cons in Hv as Hv2.
    rewrite (view_isIdentifier _ _ _ Hv2).
    destruct (isIdentifier t2); [|exact Hv2].
    destruct r2 as [|t3 r3]; simpl.
    + rewrite (view_advance_nil _ _ Hv2). exact Hv2.
    + exact (view_advance_cons _ _ _ _ Hv2).
Qed.

Lemma blockStop_last t : blockStop [t] = [t].
Proof. reflexivity. Qed.

(** The advance that ends an iteration of the block loop. *)
Lemma after_view q x r :
  view q x r ->
  currentOk (advance q)
  /\ blockStop (stream (advance q))
     = match r with [] => [x] | _ :: _ => blockStop r end.
Proof.
  intros Hv. split; [apply advance_currentOk, Hv|].
  destruct r as [|y r'].
  - rewrite (view_advance_nil _ _ Hv), (view_stream _ _ _ Hv). reflexivity.
  - rewrite (view_stream _ _ _ (view_advance_cons _ _ _ _ Hv)). reflexivity.
Qed.

(** One iteration of the block loop, on the tokens. *)
Lemma blockBody_view body p c t1 r1 :
  view p c (t1 :: r1) -> String.eqb (Token.Value c) "}" = false ->
  exists body' p', blockBody (body, p) = Some (body', p') /\ currentOk p'
    /\ blockStop (stream p') = blockStop (c :: t1 :: r1).
Proof.
  intros Hv Hbrace. unfold blockBody. rewrite (view_isIdentifier _ _ _ Hv).
  cbn [blockStop]. rewrite Hbrace.
  destruct (isIdentifier c).
  - pose proof (parseVariableAccess_view p c t1 r1 Hv) as Hq.
    destruct (parseVariableAccess p) as [access q]. cbn [snd] in Hq.
    do 2 eexists. split; [reflexivity|].
    destruct (isDot t1); [destruct r1 as [|t2 r2]; [|destruct (isIdentifier t2);
      [destruct r2 as [|t3 r3]|]]|]; apply after_view in Hq; exact Hq.
  - do 2 eexists. split; [reflexivity|].
    apply view_advance_cons in Hv.
    split; [apply Hv | rewrite (view_stream _ _ _ Hv); reflexivity].
Qed.

(** The block loop, on the tokens: it ends where [blockStop] tells. *)
Lemma buildBlock_stop body p :
  currentOk p ->
  exists body' p', buildBlock body p = Some (body', p') /\ ext p p'
    /\ currentOk p'
    /\ (currentValueIs p' "}" = true \/ inRange p' = false)
    /\ stream p' = blockStop (stream p).
Proof.
  intros Hok. unfold buildBlock.
  set (I := fun s : Node.t * Parser.t =>
              ext p s.2 /\ currentOk s.2
              /\ blockStop (stream s.2) = blockStop (stream p)).
  assert (Hstep : forall s, I s -> blockCond s = true ->
            exists s', blockBody s = Some s' /\ I s'
                       /\ (remaining s'.2 < remaining s.2)%nat).
  { intros [b s] (He & Hs & Hstop) Hc.
    destruct (blockBody_step _ Hc) as (s' & Hb & He' & Hlt).
    pose proof (currentOk_view _ Hs) as Hv. cbn [snd] in *.
    pose proof (blockCond_inRange _ Hc) as Hr. cbn [snd] in Hr.
    rewrite (view_inRange _ _ _ Hv) in Hr.
    destruct (skipn (Parser.Pos s) (Parser.Tokens s)) as [|t1 r1] eqn:Hrest;
      [discriminate|].
    assert (Hbrace : String.eqb (Token.Value (Parser.Current s)) "}" = false).
    { unfold blockCond in Hc. apply andb_prop in Hc as [Hc _].
      apply negb_true_iff in Hc. exact Hc. }
    destruct (blockBody_view b s _ t1 r1 Hv Hbrace) as (b' & s1 & Hb1 & Hok1 & Hstop1).
    rewrite Hb1 in Hb. injection Hb as <-. cbn [snd] in *.
    exists (b', s1). split; [exact Hb1|]. split.
    - split; [eauto using ext_trans|]. split; [exact Hok1|]. cbn [snd].
      rewrite Hstop1, <- (view_stream _ _ _ Hv). exact Hstop.
    - apply ext_lt_remaining; [exact He' | | exact Hlt].
      apply (blockCond_inRange _ Hc). }
  assert (HI : I (body, p)).
  { split; [apply ext_refl|]. split; [exact Hok | reflexivity]. }
  destruct (whileLoop_total blockCond blockBody (fun s => remaining s.2) I Hstep
              (bound p) (body, p) HI (remaining_bound p))
    as ([body' p'] & Hrun & (He & Hok' & Hstop) & Hc).
  exists body', p'. cbn [snd] in *.
  split; [exact Hrun|]. split; [exact He|]. split; [exact Hok'|].
  split; [apply (blockCond_false _ Hc)|].
  rewrite <- Hstop. pose proof (currentOk_view _ Hok') as Hv.
  rewrite (view_stream _ _ _ Hv).
  destruct (skipn (Parser.Pos p') (Parser.Tokens p')) as [|t1 r1] eqn:Hrest;
    [reflexivity|].
  unfold blockCond in Hc. cbn [snd] in Hc.
  rewrite (view_inRange _ _ _ Hv), andb_true_r in Hc.
  apply negb_false_iff in Hc. cbn [blockStop].
  unfold currentValueIs in Hc. rewrite Hc. reflexivity.
Qed.

(** C2, as the code has it.  The header skip keeps no depth: from the token
    after the opening parenthesis it advances until the current token is the
    first close parenthesis, or the stream ends, whatever open parentheses
    lie between.  The block loop keeps no depth either, and it does not test
    every token: it ends where [blockStop] tells on the tokens alone, at the
    first close brace among the tokens it tests, or on the last token of the
    stream.  A token that is no Identifier, an open brace included, is
    tested and passed on its own; after an Identifier and the member that
    may follow it, one token more is passed without being tested, so a close
    brace in that place does not end the block. *)
Theorem header_skip_and_block_loop_keep_no_depth (p q : Parser.t) (body : Node.t) :
  currentOk p -> currentOk q ->
  (exists p', skipHeader p = Some p' /\ ext p p' /\ currentOk p'
     /\ (forall k, (Parser.Pos p <= k < Parser.Pos p')%nat ->
           Token.Value (nth (k - 1) (Parser.Tokens p) Token.zero) <> ")")
     /\ (Token.Value (Parser.Current p') = ")"
         \/ Parser.Pos p' = length (Parser.Tokens p)))
  /\ (exists body' q', buildBlock body q = Some (body', q') /\ ext q q'
        /\ currentOk q'
        /\ (currentValueIs q' "}" = true \/ inRange q' = false)
        /\ stream q' = blockStop (stream q)).
Proof.
  intros Hp Hq. split.
  - apply skipHeader_first_close, Hp.
  - apply buildBlock_stop, Hq.
Qed.

Lemma header_skip_and_block_loop_keep_no_depth_witness :
  currentOk nestedHeaderAtSkip /\ currentOk braceInBlockAtBlock
  /\ (exists p', skipHeader nestedHeaderAtSkip = Some p' /\ ext nestedHeaderAtSkip p'
        /\ currentOk p'
        /\ (forall k, (Parser.Pos nestedHeaderAtSkip <= k < Parser.Pos p')%nat ->
              Token.Value (nth (k - 1) (Parser.Tokens nestedHeaderAtSkip) Token.zero)
              <> ")")
        /\ (Token.Value (Parser.Current p') = ")"
            \/ Parser.Pos p' = length (Parser.Tokens nestedHeaderAtSkip)))
  /\ (exists body' q',
        buildBlock (Node.mk "Block" "" [] 1) braceInBlockAtBlock = Some (body', q')
        /\ ext braceInBlockAtBlock q' /\ currentOk q'
        /\ (currentValueIs q' "}" = true \/ inRange q' = false)
        /\ stream q' = blockStop (stream braceInBlockAtBlock))
  /\ stream braceInBlockAtBlock = skipn 5 braceInBlock
  /\ blockStop (stream braceInBlockAtBlock) = skipn 17 braceInBlock
  /\ balancingClose "{" "}" (skipn 5 braceInBlock) 5 0 = Some 8
  /\ blockStop (stream nestedBlockAtBlock) = skipn 14 nestedBlock
  /\ balancingClose "{" "}" (skipn 5 nestedBlock) 5 0 = Some 23.
Proof.
  assert (Hp : currentOk nestedHeaderAtSkip).
  { split; [vm_compute; lia | reflexivity]. }
  assert (Hq : currentOk braceInBlockAtBlock).
  { split; [vm_compute; lia | reflexivity]. }
  destruct (header_skip_and_block_loop_keep_no_depth nestedHeaderAtSkip
              braceInBlockAtBlock (Node.mk "Block" "" [] 1) Hp Hq) as (H1 & H2).
  split; [exact Hp|]. split; [exact Hq|]. split; [exact H1|]. split; [exact H2|].
  repeat split; vm_compute; reflexivity.
Defined.

(** C2, as stated, fails on [for ((a) b) { x.y; x.y; }]: the parenthesis
    that balances the opening one is the token of index 6, the header skip
    ends at the token of index 4, the first close parenthesis, and the loop
    loses its block.  It fails for braces on
    [for (i) { if (c) { a.b; } s.x; s.x; }]: the brace that balances the
    opening one is the token of index 23, the block loop ends at the token
    of index 14, the brace of the inner block, and the two reads of s.x are
    not in the tree.  On [for (i) { a.b } s.x; s.x; }] the brace that
    balances the opening one is the token of index 8, the block loop passes
    it and ends at the token of index 17, and the two reads of s.x, which
    follow the loop, are in its block. *)
Lemma header_skip_ends_at_nested_close :
  balancingClose "(" ")" (skipn 2 nestedHeader) 2 0 = Some 6
  /\ (Parser.Pos <$> skipHeader nestedHeaderAtSkip) = Some 5
  /\ (Parser.Current <$> skipHeader nestedHeaderAtSkip)
     = Some (Token.mk TokenPunctuation ")" 1)
  /\ nth 4 nestedHeader Token.zero = Token.mk TokenPunctuation ")" 1
  /\ fallbackParse "for ((a) b) { x.y; x.y; }"
     = Some (Node.mk "Root" "" [Node.mk "ForStatement" "" [] 1] 0)
  /\ balancingClose "{" "}" (skipn 5 nestedBlock) 5 0 = Some 23
  /\ ((fun s : Node.t * Parser.t => (Parser.Pos s.2, Parser.Current s.2))
        <$> buildBlock (Node.mk "Block" "" [] 1) nestedBlockAtBlock)
     = Some (15, Token.mk TokenPunctuation "}" 1)
  /\ nth 14 nestedBlock Token.zero = Token.mk TokenPunctuation "}" 1
  /\ fallbackParse "for (i) { if (c) { a.b; } s.x; s.x; }"
     = Some (Node.mk "Root" ""
               [Node.mk "ForStatement" ""
                  [Node.mk "Block" ""
                     [Node.mk "MemberAccess" "c" [] 1;
                      Node.mk "MemberAccess" "a" [Node.mk "Identifier" "b" [] 1] 1]
                     1]
                  1]
               0)
  /\ balancingClose "{" "}" (skipn 5 braceInBlock) 5 0 = Some 8
  /\ ((fun s : Node.t * Parser.t => (Parser.Pos s.2, Parser.Current s.2))
        <$> buildBlock (Node.mk "Block" "" [] 1) braceInBlockAtBlock)
     = Some (18, Token.mk TokenPunctuation "}" 1)
  /\ nth 17 braceInBlock Token.zero = Token.mk TokenPunctuation "}" 1
  /\ fallbackParse "for (i) { a.b } s.x; s.x; }"
     = Some (Node.mk "Root" ""
               [Node.mk "ForStatement" ""
                  [Node.mk "Block" ""
                     [Node.mk "MemberAccess" "a" [Node.mk "Identifier" "b" [] 1] 1;
                      Node.mk "MemberAccess" "s" [Node.mk "Identifier" "x" [] 1] 1;
                      Node.mk "MemberAccess" "s" [Node.mk "Identifier" "x" [] 1] 1]
                     1]
                  1]
               0).
Proof. vm_compute. repeat split. Qed.

(** ** Nested statements in the block of a loop *)

(** C7.  On [for (i) { for (j) { a.b; } c.d }] the block of the outer loop
    holds no loop node: the inner keyword is passed over, the tokens of the
    inner loop are read as accesses of the outer block, and that block ends
    at the brace of the inner one.  The block of a function body does build
    the loop it contains. *)
Theorem loop_block_does_not_build_nested_loop :
  fallbackParse loopInLoop
  = Some (Node.mk "Root" ""
            [Node.mk "ForStatement" ""
               [Node.mk "Block" ""
                  [Node.mk "MemberAccess" "j" [] 1;
                   Node.mk "MemberAccess" "a" [Node.mk "Identifier" "b" [] 1] 1]
                  1]
               1]
            0)
  /\ fallbackParse "function f() { for (j) { a.b; } c.d }"
     = Some (Node.mk "Root" ""
               [Node.mk "FunctionDeclaration" "f"
                  [Node.mk "Block" ""
                     [Node.mk "ForStatement" ""
                        [Node.mk "Block" ""
                           [Node.mk "MemberAccess" "a" [Node.mk "Identifier" "b" [] 1] 1]
                           1]
                        1;
                      Node.mk "MemberAccess" "d" [] 1]
                     1]
                  1]
               0).
Proof. vm_compute. split; reflexivity. Qed.

(** ** Operators of two characters *)

Lemma operator_byte b :
  lookupTrue operators (stringOfByte b) = true ->
  In (stringOfByte b) ["="; "."; ";"; "<"].
Proof.
  destruct b as [[] [] [] [] [] [] [] []]; vm_compute; intros H;
    solve [discriminate H | auto 6].
Qed.

Section LexerFacts.
Variable TrimSpace : string -> string.
Variable scanInt : string -> bool.

Lemma classifyToken_not_operator value line :
  operatorIsOneChar (classifyToken scanInt value line).
Proof.
  unfold classifyToken, operatorIsOneChar.
  destruct (lookupTrue keywords value); [discriminate|].
  destruct (scanInt value); discriminate.
Qed.

Lemma flush_operators current lineNum tokens :
  Forall operatorIsOneChar tokens ->
  Forall operatorIsOneChar (flush scanInt current lineNum tokens).
Proof.
  intros H. unfold flush. destruct (nonEmpty current); [|assumption].
  apply Forall_app. split; [assumption|].
  constructor; [apply classifyToken_not_operator | constructor].
Qed.

Lemma scanLine_operators line : forall lineNum current tokens,
  Forall operatorIsOneChar tokens ->
  Forall operatorIsOneChar (scanLine scanInt line lineNum current tokens).
Proof.
  induction line as [|b rest IH]; intros lineNum current tokens H;
    cbn [scanLine].
  - apply flush_operators, H.
  - destruct (String.eqb (stringOfByte b) " " || String.eqb (stringOfByte b) tab).
    { destruct (nonEmpty current); apply IH; auto using flush_operators. }
    destruct (lookupTrue operators (stringOfByte b)) eqn:Hop;
      destruct (lookupTrue punctuation (stringOfByte b)) eqn:Hpu; cbn [orb];
      apply IH; try assumption;
      (apply Forall_app; split; [apply flush_operators, H|]);
      (constructor; [|constructor]); unfold operatorIsOneChar; simpl;
      try discriminate.
    intros _. apply operator_byte, Hop.
Qed.

(** Whatever the text, no token of type Operator carries a symbol of two
    characters: the entry "++" of the operator table is never matched. *)
Lemma tokenize_operators source :
  Forall operatorIsOneChar (tokenize TrimSpace scanInt source).
Proof.
  unfold tokenize.
  assert (Hnil : Forall operatorIsOneChar (@nil Token.t)) by constructor.
  revert Hnil. generalize (splitLines source) 0%nat (@nil Token.t).
  intros lines. induction lines as [|line rest IH]; intros lineNum tokens H;
    cbn [tokenizeLines].
  - exact H.
  - destruct (nonEmpty (TrimSpace line)); apply IH; auto using scanLine_operators.
Qed.
End LexerFacts.

(** C4.  The operator table lists "++", yet the lexer looks symbols up one
    byte at a time: in [i++;] the two characters are absorbed into the
    identifier before them, and written apart they form a token of type
    Identifier; in neither case is an Operator token "++" emitted. *)
Theorem tokenize_splits_no_two_char_operator :
  lookupTrue operators "++" = true
  /\ tokenize TrimSpace_ascii scanInt_dec "i++;"
     = [Token.mk TokenIdentifier "i++" 1; Token.mk TokenOperator ";" 1]
  /\ tokenize TrimSpace_ascii scanInt_dec "i ++ ;"
     = [Token.mk TokenIdentifier "i" 1; Token.mk TokenIdentifier "++" 1;
        Token.mk TokenOperator ";" 1].
Proof. vm_compute. repeat split. Qed.

(** ** Passes over counting maps *)

Lemma fold_append {A : Type} (g : list Report -> A -> list Report)
    (reportsOf : A -> list Report) :
  (forall reports e, g reports e = reports ++ reportsOf e) ->
  forall entries reports,
    fold_left g entries reports = reports ++ flat_map reportsOf entries.
Proof.
  intros Hg entries. induction entries as [|e entries IH]; intros reports; simpl.
  - rewrite app_nil_r. reflexivity.
  - rewrite IH, Hg, <- app_assoc. reflexivity.
Qed.

Lemma generateLoopReport_eq entries location reports :
  generateLoopReport entries location reports
  = reports ++ flat_map (reportsIf (loopReport location)) entries.
Proof.
  unfold generateLoopReport. apply fold_append.
  intros rs [varName count]. unfold reportsIf, reportable, loopReport. simpl.
  destruct (1 <? count)%Z; [reflexivity | rewrite app_nil_r; reflexivity].
Qed.

Lemma emitRedundant_eq node entries reports :
  emitRedundant node entries reports
  = reports ++ flat_map (redundantReports node) entries.
Proof.
  unfold emitRedundant. apply fold_append.
  intros rs [expr count]. unfold redundantReports, reportsIf, reportable, redundantReport.
  simpl. destruct (1 <? count)%Z; [reflexivity | rewrite app_nil_r; reflexivity].
Qed.

Lemma emitLoopSolc_eq node entries reports :
  emitLoopSolc node entries reports
  = reports ++ flat_map (loopReportsSolc node) entries.
Proof. apply generateLoopReport_eq. Qed.

Lemma emitLoopCustom_eq node entries reports :
  emitLoopCustom node entries reports
  = reports ++ flat_map (loopReportsCustom node) entries.
Proof. apply generateLoopReport_eq. Qed.


Section PassFacts.
Context {N : Type}.
Variable table : N -> option (gmap string Z).
Variable emit : N -> list (string * Z) -> list Report -> list Report.
Variable reportsOf : N -> string * Z -> list Report.
Hypothesis emit_eq : forall n entries reports,
  emit n entries reports = reports ++ flat_map (reportsOf n) entries.

(** The reports of a run are appended to those present, and are those of
    [passReports] in some order. *)
Lemma runPass_appends ns reports reports' :
  runPass table emit ns reports reports' ->
  exists new, reports' = reports ++ new
    /\ new ≡ₚ passReports table reportsOf ns.
Proof.
  induction 1 as [reports | n ns reports reports' Hn _ IH
                 | n ns m entries reports reports' Hn Hrange _ IH].
  - exists []. rewrite app_nil_r. split; [reflexivity | constructor].
  - destruct IH as (new & -> & Hp). exists new. split; [reflexivity|].
    unfold passReports in *. simpl. rewrite Hn. exact Hp.
  - destruct IH as (new & -> & Hp). rewrite emit_eq, <- app_assoc.
    eexists. split; [reflexivity|].
    unfold passReports in *. simpl. rewrite Hn.
    apply Permutation_app; [|exact Hp].
    apply Permutation_flat_map. exact Hrange.
Qed.

Lemma runPass_perm ns reports r1 r2 :
  runPass table emit ns reports r1 -> runPass table emit ns reports r2 ->
  r1 ≡ₚ r2.
Proof.
  intros (n1 & -> & H1)%runPass_appends (n2 & -> & H2)%runPass_appends.
  apply Permutation_app_head. rewrite H1, H2. reflexivity.
Qed.


Lemma runPass_Forall (Q : Report -> Prop) ns reports reports' :
  (forall n e, Forall Q (reportsOf n e)) ->
  runPass table emit ns reports reports' ->
  exists new, reports' = reports ++ new /\ Forall Q new.
Proof.
  intros HQ (new & -> & Hp)%runPass_appends. exists new. split; [reflexivity|].
  rewrite Hp. unfold passReports. apply Forall_flat_map, Forall_forall.
  intros n _. destruct (table n); [|constructor].
  apply Forall_flat_map, Forall_forall. intros e _. apply HQ.
Qed.

(** Each order of visit is a run. *)
Lemma runPassWith_run (range : gmap string Z -> list (string * Z)) ns :
  (forall m, rangeMap m (range m)) ->
  forall reports, runPass table emit ns reports (runPassWith table emit range ns reports).
Proof.
  intros Hrange. induction ns as [|n ns IH]; intros reports; simpl.
  - constructor.
  - destruct (table n) as [m|] eqn:Hn.
    + eapply runPass_range; [exact Hn | apply Hrange | apply IH].
    + apply runPass_skip; [assumption|]. apply IH.
Qed.
End PassFacts.

Lemma rangeMap_map_to_list m : rangeMap m (map_to_list m).
Proof. unfold rangeMap. reflexivity. Qed.


Lemma flat_map_reportsIf make entries :
  flat_map (reportsIf make) entries = map make (List.filter reportable entries).
Proof.
  induction entries as [|e entries IH]; simpl; [reflexivity|].
  unfold reportsIf at 1. destruct (reportable e); simpl; rewrite IH; reflexivity.
Qed.

(** ** Keys of binary operations *)





(** ** Runs of Analyze *)

Lemma inefficientType_eq node reports :
  inefficientType node reports = reports ++ typeReports node.
Proof.
  unfold typeReports, inefficientType.
  repeat match goal with |- context [if ?c then _ else _] => destruct c end;
    try destruct (TypeName node);
    repeat match goal with |- context [if ?c then _ else _] => destruct c end;
    simpl; rewrite ?app_nil_r; reflexivity.
Qed.

Lemma checkInefficientTypes_eq ast reports :
  checkInefficientTypes ast reports
  = reports ++ flat_map typeReports (walkSolcAST ast).
Proof.
  unfold checkInefficientTypes. apply fold_append.
  intros rs node. apply inefficientType_eq.
Qed.

Lemma typeReports_savings node :
  Forall (fun r => GasSavings r = 200%Z) (typeReports node).
Proof.
  unfold typeReports, inefficientType.
  repeat match goal with |- context [if ?c then _ else _] => destruct c end;
    try destruct (TypeName node);
    repeat match goal with |- context [if ?c then _ else _] => destruct c end;
    repeat constructor.
Qed.

Lemma loopReports_savings location e :
  Forall (fun r => (797 <= GasSavings r)%Z) (reportsIf (loopReport location) e).
Proof.
  unfold reportsIf, reportable, loopReport, GasSload, GasMload.
  destruct (Z.ltb_spec 1 e.2); repeat constructor. simpl. lia.
Qed.

Lemma redundantReports_savings location e :
  Forall (fun r => (100 <= GasSavings r)%Z) (reportsIf (redundantReport location) e).
Proof.
  unfold reportsIf, reportable, redundantReport.
  destruct (Z.ltb_spec 1 e.2); repeat constructor. simpl. lia.
Qed.

Section AnalyzeFacts.
Context {J : Type}.
Variable decodeRoot : J -> SolcASTNode.

Lemma analyzeSolcRoot_appends root reports reports' :
  analyzeSolcRoot root reports reports' ->
  exists loops redundant,
    reports' = reports ++ loops ++ flat_map typeReports (walkSolcAST root) ++ redundant
    /\ loops ≡ₚ passReports loopStorageVars loopReportsSolc (walkSolcAST root)
    /\ redundant ≡ₚ passReports functionExprMap redundantReports (walkSolcAST root).
Proof.
  intros (r1 & Hloops & Hred).
  apply (runPass_appends _ _ _ emitLoopSolc_eq) in Hloops as (loops & -> & Hl).
  apply (runPass_appends _ _ _ emitRedundant_eq) in Hred as (redundant & -> & Hr).
  exists loops, redundant. rewrite checkInefficientTypes_eq, <- !app_assoc. auto.
Qed.


(** Each order of visit gives a run of Analyze. *)
Lemma AnalyzeWith_run range (g : GasOptimizer J) :
  (forall m, rangeMap m (range m)) ->
  Analyze J decodeRoot g (AnalyzeWith J decodeRoot range g).
Proof.
  intros Hrange. unfold Analyze, AnalyzeWith. simpl.
  split; [reflexivity|]. split; [reflexivity|].
  destruct (AST g) as [ast|ast].
  - apply runPassWith_run, Hrange.
  - eexists. split; apply runPassWith_run, Hrange.
Qed.

Lemma Analyze_appends (g g' : GasOptimizer J) :
  Analyze J decodeRoot g g' ->
  exists new, Reports g' = Reports g ++ new
    /\ Forall (fun r => (100 <= GasSavings r)%Z) new.
Proof.
  intros (_ & _ & Hrun). destruct (AST g) as [ast|ast].
  - apply (runPass_Forall _ _ _ emitLoopCustom_eq (fun r => (797 <= GasSavings r)%Z))
      in Hrun as (new & -> & Hnew).
    + exists new. split; [reflexivity|].
      eapply Forall_impl; [exact Hnew|]. simpl. intros r Hr. lia.
    + intros n e. apply loopReports_savings.
  - apply analyzeSolcRoot_appends in Hrun as (loops & redundant & -> & Hl & Hr).
    eexists. split; [reflexivity|].
    rewrite !Forall_app. repeat split.
    + rewrite Hl. unfold passReports. apply Forall_flat_map, Forall_forall.
      intros n _. destruct (loopStorageVars n); [|constructor].
      apply Forall_flat_map, Forall_forall. intros e _.
      eapply Forall_impl; [apply loopReports_savings|]. simpl. intros r Hr'. lia.
    + apply Forall_flat_map, Forall_forall. intros n _.
      eapply Forall_impl; [apply typeReports_savings|]. simpl. intros r Hr'. lia.
    + rewrite Hr. unfold passReports. apply Forall_flat_map, Forall_forall.
      intros n _. destruct (functionExprMap n); [|constructor].
      apply Forall_flat_map, Forall_forall. intros e _.
      apply redundantReports_savings.
Qed.
End AnalyzeFacts.


(** C10.  Every report a run of Analyze appends has strictly positive
    savings.  Pass by pass: the reports of the loop pass, on either tree,
    carry at least 797, those of the type-width pass exactly 200, those of
    the redundant-expression pass at least 100. *)
Theorem appended_reports_have_positive_savings {J : Type}
    (decodeRoot : J -> SolcASTNode) (g g' : GasOptimizer J)
    (ast : SolcASTNode) (custom : Node.t) (reports rl rr rc : list Report) :
  Analyze J decodeRoot g g' ->
  checkLoopsForStorageReads ast reports rl ->
  checkRedundantOperations ast reports rr ->
  analyzeCustomAST custom reports rc ->
  (exists new, Reports g' = Reports g ++ new
     /\ Forall (fun r => (0 < GasSavings r)%Z) new)
  /\ (exists new, rl = reports ++ new
        /\ Forall (fun r => (797 <= GasSavings r)%Z) new)
  /\ (exists new, checkInefficientTypes ast reports = reports ++ new
        /\ Forall (fun r => GasSavings r = 200%Z) new)
  /\ (exists new, rr = reports ++ new
        /\ Forall (fun r => (100 <= GasSavings r)%Z) new)
  /\ (exists new, rc = reports ++ new
        /\ Forall (fun r => (797 <= GasSavings r)%Z) new).
Proof.
  intros Hrun Hl Hr Hc. split; [|split; [|split; [|split]]].
  - apply Analyze_appends in Hrun as (new & Hnew & Hall).
    exists new. split; [assumption|].
    eapply Forall_impl; [exact Hall|]. simpl. intros r H. lia.
  - apply (runPass_Forall _ _ _ emitLoopSolc_eq) with (Q := fun r => (797 <= GasSavings r)%Z) in Hl;
      [exact Hl|]. intros n e. apply loopReports_savings.
  - exists (flat_map typeReports (walkSolcAST ast)).
    split; [apply checkInefficientTypes_eq|].
    apply Forall_flat_map, Forall_forall. intros n _. apply typeReports_savings.
  - apply (runPass_Forall _ _ _ emitRedundant_eq) with (Q := fun r => (100 <= GasSavings r)%Z) in Hr;
      [exact Hr|]. intros n e. apply redundantReports_savings.
  - apply (runPass_Forall _ _ _ emitLoopCustom_eq) with (Q := fun r => (797 <= GasSavings r)%Z) in Hc;
      [exact Hc|]. intros n e. apply loopReports_savings.
Qed.

Lemma appended_reports_have_positive_savings_witness :
  Analyze SolcASTNode id sampleAnalyzer (AnalyzeWith SolcASTNode id map_to_list sampleAnalyzer)
  /\ checkLoopsForStorageReads sampleContract []
       (runPassWith loopStorageVars emitLoopSolc map_to_list (walkSolcAST sampleContract) [])
  /\ checkRedundantOperations sampleContract []
       (runPassWith functionExprMap emitRedundant map_to_list (walkSolcAST sampleContract) [])
  /\ analyzeCustomAST (Node.mk "Root" "" [readTwiceLoop] 0) []
       (analyzeCustomASTWith map_to_list (Node.mk "Root" "" [readTwiceLoop] 0) [])
  /\ exists new,
       Reports (AnalyzeWith SolcASTNode id map_to_list sampleAnalyzer)
       = Reports sampleAnalyzer ++ new
       /\ Forall (fun r => (0 < GasSavings r)%Z) new.
Proof.
  assert (H1 : Analyze SolcASTNode id sampleAnalyzer
                 (AnalyzeWith SolcASTNode id map_to_list sampleAnalyzer))
    by apply AnalyzeWith_run, rangeMap_map_to_list.
  assert (H2 : checkLoopsForStorageReads sampleContract []
                 (runPassWith loopStorageVars emitLoopSolc map_to_list
                    (walkSolcAST sampleContract) []))
    by apply runPassWith_run, rangeMap_map_to_list.
  assert (H3 : checkRedundantOperations sampleContract []
                 (runPassWith functionExprMap emitRedundant map_to_list
                    (walkSolcAST sampleContract) []))
    by apply runPassWith_run, rangeMap_map_to_list.
  assert (H4 : analyzeCustomAST (Node.mk "Root" "" [readTwiceLoop] 0) []
                 (analyzeCustomASTWith map_to_list (Node.mk "Root" "" [readTwiceLoop] 0) []))
    by apply runPassWith_run, rangeMap_map_to_list.
  repeat (split; [assumption|]).
  exact (proj1 (appended_reports_have_positive_savings id _ _ _ _ _ _ _ _ H1 H2 H3 H4)).
Defined.

(** ** Loops below the root of the fallback tree *)

(** C3.  [function f() { for (j) { a.b; a.b; } }] parses to a tree whose
    loop is a child of the block of the function; that loop reads a.b twice,
    and analyzed as a child of the root it gives a report, yet no run of
    analyzeCustomAST on the tree reports anything: only the children of the
    root are examined.  On the external tree the same nesting is analyzed. *)
Theorem fallback_loop_below_root_not_analyzed :
  fallbackParse loopInFunction = Some loopInFunctionTree
  /\ (forall rs, analyzeCustomAST loopInFunctionTree [] rs <-> rs = [])
  /\ (forall range, analyzeCustomASTWith range loopInFunctionTree [] = [])
  /\ analyzeCustomASTWith map_to_list (Node.mk "Root" "" [readTwiceLoop] 0) []
     = [mkReport "Variable 'a.b' read 2 times in loop"
          "Cache 'a.b' in memory before loop" 797 "line 1"]
  /\ analyzeSolcRootWith map_to_list
       (ContractDefinition "Example"
          [FunctionDefinition "expensiveLoop" "120:190:0" (Block [loopTwoAndOne])]) []
     = [twoAndOneReport].
Proof.
  split; [vm_compute; reflexivity|]. split.
  { intros rs. split.
    - intros H. unfold analyzeCustomAST, loopInFunctionTree in H. simpl in H.
      inversion H as [| n ns r r' Hn Hrest | n ns m entries r r' Hn Hrange Hrest];
        subst.
      + inversion Hrest; subst. reflexivity.
      + discriminate Hn.
    - intros ->. apply runPass_skip; [reflexivity | constructor]. }
  split; [intros range; reflexivity|].
  split; vm_compute; reflexivity.
Qed.

(** ** Construction of the analyzer *)

(** C1, as the code has it.  When the external tool cannot be started or
    exits with failure, the analyzer is built over the tree the fallback
    lexer and parser make of the same source text, with no report yet, and
    Analyze has a run on it.  When the tool succeeds but its output holds no
    locatable tree document, or the document does not decode, construction
    returns an error and no fallback parse is made. *)
Theorem NewGasOptimizer_falls_back_on_tool_failure {J : Type}
    (TrimSpace : string -> string) (scanInt : string -> bool)
    (json_Unmarshal : string -> option J) (decodeRoot : J -> SolcASTNode)
    (source : string) (solc : CmdResult) :
  (failed solc = true ->
   exists ast,
     Parse (NewParser TrimSpace scanInt source) = Some ast
     /\ NewGasOptimizer TrimSpace scanInt J json_Unmarshal (Some source) solc
        = Some (inr (mkGasOptimizer source (CustomAST ast) []))
     /\ exists g', Analyze J decodeRoot (mkGasOptimizer source (CustomAST ast) []) g')
  /\ (failed solc = false -> findJSON (output solc) = None ->
      NewGasOptimizer TrimSpace scanInt J json_Unmarshal (Some source) solc
      = Some (inl (ErrNoJSON (output solc))))
  /\ (failed solc = false ->
      forall jsonData, findJSON (output solc) = Some jsonData ->
        json_Unmarshal jsonData = None ->
        NewGasOptimizer TrimSpace scanInt J json_Unmarshal (Some source) solc
        = Some (inl (ErrParseAST jsonData))).
Proof.
  split; [|split].
  - intros Hfailed.
    destruct (ParseRun_total (NewParser TrimSpace scanInt source)) as (ast & p' & Hrun & _).
    exists ast. unfold NewGasOptimizer, Parse. rewrite Hfailed, Hrun. simpl.
    split; [reflexivity|]. split; [reflexivity|].
    eexists. apply AnalyzeWith_run, rangeMap_map_to_list.
  - intros Hok Hnone. unfold NewGasOptimizer. rewrite Hok, Hnone. reflexivity.
  - intros Hok jsonData Hfound Hdecode. unfold NewGasOptimizer.
    rewrite Hok, Hfound, Hdecode. reflexivity.
Qed.

Lemma NewGasOptimizer_falls_back_on_tool_failure_witness :
  (exists ast,
     Parse (NewParser TrimSpace_ascii scanInt_dec loopInFunction) = Some ast
     /\ NewGasOptimizer TrimSpace_ascii scanInt_dec SolcASTNode (fun _ => None)
          (Some loopInFunction) (mkCmdResult "exec: solc: not found" true)
        = Some (inr (mkGasOptimizer loopInFunction (CustomAST ast) []))
     /\ exists g', Analyze SolcASTNode id (mkGasOptimizer loopInFunction (CustomAST ast) []) g')
  /\ NewGasOptimizer TrimSpace_ascii scanInt_dec SolcASTNode (fun _ => None)
       (Some loopInFunction) (mkCmdResult "Compiler run successful" false)
     = Some (inl (ErrNoJSON "Compiler run successful"))
  /\ NewGasOptimizer TrimSpace_ascii scanInt_dec SolcASTNode (fun _ => None)
       (Some loopInFunction) (mkCmdResult "JSON AST (compact format): {]}" false)
     = Some (inl (ErrParseAST "{]}")).
Proof.
  split; [|split].
  - exact (proj1 (NewGasOptimizer_falls_back_on_tool_failure
                    TrimSpace_ascii scanInt_dec (fun _ => None) id loopInFunction
                    (mkCmdResult "exec: solc: not found" true)) eq_refl).
  - exact (proj1 (proj2 (NewGasOptimizer_falls_back_on_tool_failure
                    TrimSpace_ascii scanInt_dec (fun _ => None) id loopInFunction
                    (mkCmdResult "Compiler run successful" false))) eq_refl eq_refl).
  - exact (proj2 (proj2 (NewGasOptimizer_falls_back_on_tool_failure
                    TrimSpace_ascii scanInt_dec (fun _ => None) id loopInFunction
                    (mkCmdResult "JSON AST (compact format): {]}" false)))
             eq_refl "{]}" eq_refl eq_refl).
Defined.

(** C1, as stated, fails when the tool exits successfully and its output
    holds no tree document: construction returns an error, whatever the
    decoder, and no analyzer. *)
Lemma NewGasOptimizer_no_document_is_error :
  failed (mkCmdResult "Compiler run successful, no output requested." false) = false
  /\ findJSON "Compiler run successful, no output requested." = None
  /\ NewGasOptimizer TrimSpace_ascii scanInt_dec SolcASTNode (fun _ => Some loopTwoAndOne)
       (Some loopInFunction)
       (mkCmdResult "Compiler run successful, no output requested." false)
     = Some (inl (ErrNoJSON "Compiler run successful, no output requested.")).
Proof. vm_compute. repeat split. Qed.

(** * Further properties of the lexer *)

Lemma append_cons c (s t : string) :
  (String c s ++ t)%string = String c (s ++ t)%string.
Proof. reflexivity. Qed.

Lemma append_nil_l (t : string) : ("" ++ t)%string = t.
Proof. reflexivity. Qed.

Lemma append_nil_r (s : string) : (s ++ "")%string = s.
Proof.
  induction s as [|c s IH]; [reflexivity|]. rewrite append_cons, IH. reflexivity.
Qed.

Lemma append_assoc (a b c : string) :
  ((a ++ b) ++ c)%string = (a ++ (b ++ c))%string.
Proof.
  induction a as [|x a IH]; [reflexivity|]. rewrite !append_cons, IH. reflexivity.
Qed.

Lemma allBytes_app f a b :
  allBytes f (a ++ b)%string = allBytes f a && allBytes f b.
Proof.
  induction a as [|x a IH]; [reflexivity|]. rewrite append_cons. simpl.
  rewrite IH, andb_assoc. reflexivity.
Qed.

Lemma word_byte b :
  isSpaceOrTab b = false -> isSymbol b = false ->
  allBytes wordByte (stringOfByte b) = true.
Proof.
  destruct b as [[] [] [] [] [] [] [] []]; vm_compute; intros H1 H2;
    solve [reflexivity | discriminate H1 | discriminate H2].
Qed.

Lemma punctuation_byte b :
  lookupTrue punctuation (stringOfByte b) = true ->
  In (stringOfByte b) punctuation.
Proof.
  destruct b as [[] [] [] [] [] [] [] []]; vm_compute; intros H;
    solve [discriminate H | auto 6].
Qed.

Lemma lookupTrue_In table key : lookupTrue table key = true <-> In key table.
Proof.
  unfold lookupTrue. rewrite existsb_exists. split.
  - intros (x & Hx & He). apply String.eqb_eq in He. subst. exact Hx.
  - intros H. exists key. split; [exact H | apply String.eqb_refl].
Qed.

Lemma sorted_snoc {A : Type} (R : A -> A -> Prop) (l : list A) (x : A) :
  StronglySorted R l -> Forall (fun a => R a x) l -> StronglySorted R (l ++ [x]).
Proof.
  induction 1 as [|a l Hs IH Ha]; intros Hx; simpl.
  - repeat constructor.
  - inversion Hx as [|? ? Hax Hlx]; subst.
    constructor; [apply IH, Hlx|].
    apply Forall_app. split; [exact Ha | repeat constructor; exact Hax].
Qed.

Section LexerInvariants.
Variable TrimSpace : string -> string.
Variable scanInt : string -> bool.

Lemma classifyToken_ok value line :
  value <> "" -> allBytes wordByte value = true ->
  tokenOk scanInt (classifyToken scanInt value line).
Proof.
  intros Hne Hw. unfold classifyToken, tokenOk.
  destruct (lookupTrue keywords value) eqn:Hk.
  - apply lookupTrue_In in Hk. exact Hk.
  - assert (Hnk : ~ In value keywords).
    { intros Hin. apply lookupTrue_In in Hin. congruence. }
    destruct (scanInt value) eqn:Hs;
      (split; [exact Hne | split; [exact Hw | split; [exact Hnk | exact Hs]]]).
Qed.

Lemma flush_ok current lineNum tokens :
  allBytes wordByte current = true ->
  Forall (tokenOk scanInt) tokens ->
  Forall (tokenOk scanInt) (flush scanInt current lineNum tokens).
Proof.
  intros Hw H. unfold flush, nonEmpty.
  destruct (String.eqb_spec current ""); simpl; [assumption|].
  apply Forall_app. split; [assumption|].
  constructor; [apply classifyToken_ok; assumption | constructor].
Qed.

Lemma scanLine_ok line : forall lineNum current tokens,
  allBytes wordByte current = true ->
  Forall (tokenOk scanInt) tokens ->
  Forall (tokenOk scanInt) (scanLine scanInt line lineNum current tokens).
Proof.
  induction line as [|b rest IH]; intros lineNum current tokens Hw H;
    cbn [scanLine].
  - apply flush_ok; assumption.
  - fold (isSpaceOrTab b). destruct (isSpaceOrTab b) eqn:Hblank.
    { destruct (nonEmpty current); apply IH; auto using flush_ok. }
    fold (isSymbol b). destruct (isSymbol b) eqn:Hsym.
    + apply IH; [reflexivity|].
      apply Forall_app. split; [apply flush_ok; assumption|].
      constructor; [|constructor]. unfold tokenOk.
      destruct (lookupTrue punctuation (stringOfByte b)) eqn:Hpu.
      * exact (punctuation_byte b Hpu).
      * unfold isSymbol in Hsym. rewrite Hpu, orb_false_r in Hsym.
        exact (operator_byte b Hsym).
    + apply IH; [|assumption].
      rewrite allBytes_app, Hw, word_byte by assumption. reflexivity.
Qed.

Lemma tokenizeLines_ok lines : forall lineNum tokens,
  Forall (tokenOk scanInt) tokens ->
  Forall (tokenOk scanInt) (tokenizeLines TrimSpace scanInt lines lineNum tokens).
Proof.
  induction lines as [|line rest IH]; intros lineNum tokens H;
    cbn [tokenizeLines]; [exact H|].
  destruct (nonEmpty (TrimSpace line)); apply IH; auto using scanLine_ok.
Qed.

Lemma linesUpTo_mono n n' tokens :
  (n <= n')%nat -> linesUpTo n tokens -> linesUpTo n' tokens.
Proof.
  intros Hn [Hs Hb]. split; [assumption|].
  eapply Forall_impl; [exact Hb|]. simpl. intros t Ht. lia.
Qed.

Lemma linesUpTo_snoc n tokens t :
  Token.Line t = n -> (1 <= n)%nat -> linesUpTo n tokens ->
  linesUpTo n (tokens ++ [t]).
Proof.
  intros Ht Hn [Hs Hb]. split.
  - apply sorted_snoc; [assumption|].
    eapply Forall_impl; [exact Hb|]. unfold lineLe. simpl. intros a Ha. lia.
  - apply Forall_app. split; [assumption|]. repeat constructor; lia.
Qed.

Lemma flush_lines current lineNum tokens :
  linesUpTo (lineNum + 1) tokens ->
  linesUpTo (lineNum + 1) (flush scanInt current lineNum tokens).
Proof.
  intros H. unfold flush. destruct (nonEmpty current); [|assumption].
  apply linesUpTo_snoc; [|lia|assumption].
  unfold classifyToken.
  destruct (lookupTrue keywords current); [reflexivity|].
  destruct (scanInt current); reflexivity.
Qed.

Lemma scanLine_lines line : forall lineNum current tokens,
  linesUpTo (lineNum + 1) tokens ->
  linesUpTo (lineNum + 1) (scanLine scanInt line lineNum current tokens).
Proof.
  induction line as [|b rest IH]; intros lineNum current tokens H;
    cbn [scanLine].
  - apply flush_lines, H.
  - destruct (String.eqb (stringOfByte b) " " || String.eqb (stringOfByte b) tab).
    { destruct (nonEmpty current); apply IH; auto using flush_lines. }
    destruct (lookupTrue operators (stringOfByte b) || lookupTrue punctuation (stringOfByte b)).
    + apply IH. apply linesUpTo_snoc; [reflexivity | lia | apply flush_lines, H].
    + apply IH, H.
Qed.

Lemma tokenizeLines_lines lines : forall lineNum tokens,
  linesUpTo lineNum tokens ->
  linesUpTo (lineNum + length lines)
    (tokenizeLines TrimSpace scanInt lines lineNum tokens).
Proof.
  induction lines as [|line rest IH]; intros lineNum tokens H;
    cbn [tokenizeLines length].
  - rewrite Nat.add_0_r. exact H.
  - replace (lineNum + S (length rest))%nat with (S lineNum + length rest)%nat by lia.
    assert (H' : linesUpTo (lineNum + 1) tokens)
      by (eapply linesUpTo_mono; [|exact H]; lia).
    destruct (nonEmpty (TrimSpace line)); apply IH.
    + replace (S lineNum) with (lineNum + 1)%nat by lia.
      apply scanLine_lines, H'.
    + replace (S lineNum) with (lineNum + 1)%nat by lia. exact H'.
Qed.

(** X1.  The line numbers of the tokens never decrease along the stream,
    and each lies between 1 and the number of lines of the text. *)
Theorem tokenize_lines_sorted source :
  StronglySorted lineLe (tokenize TrimSpace scanInt source)
  /\ Forall (fun t => (1 <= Token.Line t <= length (splitLines source))%nat)
       (tokenize TrimSpace scanInt source).
Proof.
  unfold tokenize.
  apply (tokenizeLines_lines (splitLines source) 0 []).
  split; constructor.
Qed.

(** X2.  Every token agrees with its type: a punctuation token is one of
    the four brackets, an operator token one of the four one-character
    operators, a keyword token one of the eight keywords; an identifier or
    number token has a text that is not empty, holds no blank and no
    symbol, is no keyword, and scans as an integer exactly when the token
    is a number; no token has the whitespace type. *)
Theorem tokenize_tokens_agree_with_type source :
  Forall (tokenOk scanInt) (tokenize TrimSpace scanInt source).
Proof. unfold tokenize. apply tokenizeLines_ok. constructor. Qed.

Lemma joinValues_app a b :
  joinValues (a ++ b) = (joinValues a ++ joinValues b)%string.
Proof.
  induction a as [|t a IH]; simpl; [reflexivity|].
  rewrite IH, append_assoc. reflexivity.
Qed.

Lemma joinValues_flush current lineNum tokens :
  joinValues (flush scanInt current lineNum tokens)
  = (joinValues tokens ++ current)%string.
Proof.
  unfold flush, nonEmpty. destruct (String.eqb_spec current "") as [->|Hne]; simpl.
  - rewrite append_nil_r. reflexivity.
  - rewrite joinValues_app. f_equal. simpl. rewrite append_nil_r.
    unfold classifyToken.
    destruct (lookupTrue keywords current); [reflexivity|].
    destruct (scanInt current); reflexivity.
Qed.

Lemma joinValues_scanLine line : forall lineNum current tokens,
  joinValues (scanLine scanInt line lineNum current tokens)
  = (joinValues tokens ++ current ++ squeeze line)%string.
Proof.
  induction line as [|b rest IH]; intros lineNum current tokens;
    cbn [scanLine squeeze].
  - rewrite joinValues_flush, append_nil_r. reflexivity.
  - fold (isSpaceOrTab b). destruct (isSpaceOrTab b).
    { unfold nonEmpty. destruct (String.eqb_spec current "") as [->|Hne]; simpl.
      - apply IH.
      - rewrite IH, joinValues_flush. simpl. rewrite append_assoc. reflexivity. }
    destruct (lookupTrue operators (stringOfByte b) || lookupTrue punctuation (stringOfByte b)).
    + rewrite IH, joinValues_app, joinValues_flush. simpl.
      rewrite append_nil_r, !append_assoc. reflexivity.
    + rewrite IH, append_assoc. reflexivity.
Qed.

(** X3.  Lexing loses the blanks and nothing else: the texts of the tokens,
    joined, are the trimmed lines of the source without their spaces and
    tabs, each byte as the lexer converts it. *)
Theorem tokenize_keeps_all_but_blanks source :
  joinValues (tokenize TrimSpace scanInt source)
  = squeezeLines TrimSpace (splitLines source).
Proof.
  unfold tokenize.
  assert (H : forall lines lineNum tokens,
            joinValues (tokenizeLines TrimSpace scanInt lines lineNum tokens)
            = (joinValues tokens ++ squeezeLines TrimSpace lines)%string).
  { intros lines. induction lines as [|line rest IH]; intros lineNum tokens;
      cbn [tokenizeLines squeezeLines fold_right].
    - rewrite append_nil_r. reflexivity.
    - unfold nonEmpty. destruct (String.eqb_spec (TrimSpace line) "") as [->|Hne]; simpl.
      + apply IH.
      + rewrite IH, joinValues_scanLine. simpl. rewrite append_assoc. reflexivity. }
  apply (H (splitLines source) 0%nat []).
Qed.

Lemma flush_prefix current lineNum tokens :
  flush scanInt current lineNum tokens = tokens ++ flush scanInt current lineNum [].
Proof.
  unfold flush. destruct (nonEmpty current); simpl; [reflexivity|].
  rewrite app_nil_r. reflexivity.
Qed.

Lemma scanLine_prefix line : forall lineNum current tokens,
  scanLine scanInt line lineNum current tokens
  = tokens ++ scanLine scanInt line lineNum current [].
Proof.
  induction line as [|b rest IH]; intros lineNum current tokens;
    cbn [scanLine].
  - apply flush_prefix.
  - destruct (String.eqb (stringOfByte b) " " || String.eqb (stringOfByte b) tab).
    { destruct (nonEmpty current); [|apply IH].
      rewrite (IH lineNum "" (flush scanInt current lineNum tokens)).
      rewrite (IH lineNum "" (flush scanInt current lineNum [])).
      rewrite (flush_prefix current lineNum tokens), app_assoc. reflexivity. }
    destruct (lookupTrue operators (stringOfByte b) || lookupTrue punctuation (stringOfByte b));
      [|apply IH].
    rewrite (IH lineNum "" (flush scanInt current lineNum tokens ++ _)).
    rewrite (IH lineNum "" (flush scanInt current lineNum [] ++ _)).
    rewrite (flush_prefix current lineNum tokens), !app_assoc. reflexivity.
Qed.

Lemma flush_shift k current lineNum :
  flush scanInt current (k + lineNum) []
  = map (shiftLine k) (flush scanInt current lineNum []).
Proof.
  unfold flush. destruct (nonEmpty current); simpl; [|reflexivity].
  f_equal. unfold classifyToken, shiftLine.
  destruct (lookupTrue keywords current); simpl; [f_equal; lia|].
  destruct (scanInt current); simpl; f_equal; lia.
Qed.

Lemma scanLine_shift k line : forall lineNum current,
  scanLine scanInt line (k + lineNum) current []
  = map (shiftLine k) (scanLine scanInt line lineNum current []).
Proof.
  induction line as [|b rest IH]; intros lineNum current; cbn [scanLine].
  - apply flush_shift.
  - destruct (String.eqb (stringOfByte b) " " || String.eqb (stringOfByte b) tab).
    { destruct (nonEmpty current); [|apply IH].
      rewrite (scanLine_prefix rest (k + lineNum)), (scanLine_prefix rest lineNum).
      rewrite IH, flush_shift, map_app. reflexivity. }
    destruct (lookupTrue operators (stringOfByte b) || lookupTrue punctuation (stringOfByte b));
      [|apply IH].
    rewrite (scanLine_prefix rest (k + lineNum)), (scanLine_prefix rest lineNum).
    rewrite IH, flush_shift, !map_app. simpl.
    repeat f_equal. unfold shiftLine. simpl. f_equal. lia.
Qed.

Lemma tokenizeLines_prefix lines : forall lineNum tokens,
  tokenizeLines TrimSpace scanInt lines lineNum tokens
  = tokens ++ tokenizeLines TrimSpace scanInt lines lineNum [].
Proof.
  induction lines as [|line rest IH]; intros lineNum tokens;
    cbn [tokenizeLines].
  - rewrite app_nil_r. reflexivity.
  - destruct (nonEmpty (TrimSpace line)); [|apply IH].
    rewrite (IH (S lineNum) (scanLine _ _ _ _ tokens)).
    rewrite (IH (S lineNum) (scanLine _ _ _ _ [])).
    rewrite (scanLine_prefix _ _ _ tokens), app_assoc. reflexivity.
Qed.

Lemma tokenizeLines_shift k lines : forall lineNum,
  tokenizeLines TrimSpace scanInt lines (k + lineNum) []
  = map (shiftLine k) (tokenizeLines TrimSpace scanInt lines lineNum []).
Proof.
  induction lines as [|line rest IH]; intros lineNum; cbn [tokenizeLines].
  - reflexivity.
  - replace (S (k + lineNum)) with (k + S lineNum)%nat by lia.
    destruct (nonEmpty (TrimSpace line)); [|apply IH].
    rewrite (tokenizeLines_prefix rest (k + S lineNum)),
      (tokenizeLines_prefix rest (S lineNum)).
    rewrite IH, scanLine_shift, map_app. reflexivity.
Qed.

Lemma tokenizeLines_app l1 : forall l2 lineNum tokens,
  tokenizeLines TrimSpace scanInt (l1 ++ l2) lineNum tokens
  = tokenizeLines TrimSpace scanInt l2 (length l1 + lineNum)
      (tokenizeLines TrimSpace scanInt l1 lineNum tokens).
Proof.
  induction l1 as [|line rest IH]; intros l2 lineNum tokens; simpl; [reflexivity|].
  replace (S (length rest + lineNum)) with (length rest + S lineNum)%nat by lia.
  destruct (nonEmpty (TrimSpace line)); apply IH.
Qed.

Lemma splitLines_nonempty a : splitLines a <> [].
Proof.
  destruct a as [|c a]; cbn [splitLines]; [discriminate|].
  destruct (Ascii.eqb c newline); [discriminate|].
  destruct (splitLines a); discriminate.
Qed.

Lemma splitLines_app a b :
  splitLines (a ++ String newline b)%string = splitLines a ++ splitLines b.
Proof.
  induction a as [|c a IH].
  - rewrite append_nil_l. cbn [splitLines]. rewrite Ascii.eqb_refl. reflexivity.
  - rewrite append_cons. cbn [splitLines].
    destruct (Ascii.eqb c newline); [rewrite IH; reflexivity|].
    rewrite IH. pose proof (splitLines_nonempty a) as Hne.
    destruct (splitLines a); [congruence | reflexivity].
Qed.

(** X4.  Lexing is local to the lines: the tokens of two texts joined by a
    newline are the tokens of the first, then those of the second with
    their line numbers moved by the number of lines of the first. *)
Theorem tokenize_across_newline a b :
  tokenize TrimSpace scanInt (a ++ String newline b)%string
  = tokenize TrimSpace scanInt a
    ++ map (shiftLine (length (splitLines a))) (tokenize TrimSpace scanInt b).
Proof.
  unfold tokenize. rewrite splitLines_app, tokenizeLines_app.
  rewrite tokenizeLines_prefix. f_equal. apply tokenizeLines_shift.
Qed.
End LexerInvariants.

(** * Further properties of the fallback parser *)

Lemma whileLoop_inv {S : Type} (cond : S -> bool) (body : S -> option S)
    (I : S -> Prop) :
  (forall s s', I s -> cond s = true -> body s = Some s' -> I s') ->
  forall fuel s s', I s -> whileLoop cond body fuel s = Some s' -> I s'.
Proof.
  intros Hstep fuel. induction fuel as [|fuel IH]; intros s s' HI; simpl;
    destruct (cond s) eqn:Hc; try discriminate;
    try (intros [= <-]; exact HI).
  destruct (body s) as [s1|] eqn:Hb; simpl; [|discriminate].
  apply IH. eapply Hstep; eauto.
Qed.

Lemma isBlockOf_append child b c :
  isBlockOf child b = true -> child c = true ->
  isBlockOf child (appendChild b c) = true.
Proof.
  unfold isBlockOf, appendChild. simpl. intros H Hc.
  apply andb_prop in H as [H1 H2]. rewrite H1, forallb_app, H2. simpl.
  rewrite Hc. reflexivity.
Qed.

Lemma isBlockOf_appendNotNil child b r :
  isBlockOf child b = true -> optionOk child r = true ->
  isBlockOf child (appendNotNil b r) = true.
Proof. destruct r; simpl; [apply isBlockOf_append | auto]. Qed.

Lemma isBlockOf_weaken (child child' : Node.t -> bool) b :
  (forall n, child n = true -> child' n = true) ->
  isBlockOf child b = true -> isBlockOf child' b = true.
Proof.
  unfold isBlockOf. intros Himp H. apply andb_prop in H as [H1 H2].
  rewrite H1. simpl. rewrite forallb_forall in *. auto.
Qed.

Lemma parseVariableAccess_shape p : isAccess (parseVariableAccess p).1 = true.
Proof.
  unfold parseVariableAccess.
  repeat match goal with |- context [if ?c then _ else _] => destruct c end;
    reflexivity.
Qed.

Lemma blockBody_shape s s' :
  isBlockOf isAccess s.1 = true -> blockBody s = Some s' ->
  isBlockOf isAccess s'.1 = true.
Proof.
  destruct s as [body p]. unfold blockBody. simpl. intros Hb.
  destruct (currentIs p TokenIdentifier).
  - pose proof (parseVariableAccess_shape p) as Ha.
    destruct (parseVariableAccess p) as [access q]. simpl in Ha.
    intros [= <-]. simpl. apply isBlockOf_append; assumption.
  - intros [= <-]. exact Hb.
Qed.

Lemma buildBlock_shape line p body' p' :
  buildBlock (Node.mk "Block" "" [] line) p = Some (body', p') ->
  isBlockOf isAccess body' = true.
Proof.
  unfold buildBlock. intros Hrun.
  apply (whileLoop_inv blockCond blockBody (fun s => isBlockOf isAccess s.1 = true))
    in Hrun; [exact Hrun | | reflexivity].
  intros s s' Hs _. apply blockBody_shape, Hs.
Qed.

Lemma parseLoop_shape ty line p r p' :
  isStatementType ty = true ->
  parseLoop (Node.mk ty "" [] line) p = Some (r, p') ->
  optionOk isStatement r = true.
Proof.
  intros Hty. unfold parseLoop.
  destruct (negb (currentIs p TokenPunctuation) || negb (currentValueIs p "("));
    [intros [= <- _]; reflexivity|].
  destruct (skipHeader (advance p)) as [p1|]; simpl; [|discriminate].
  destruct (currentIs (advance p1) TokenPunctuation && currentValueIs (advance p1) "{").
  - destruct (buildBlock _ _) as [[body' p2]|] eqn:Hb; simpl; [|discriminate].
    apply buildBlock_shape in Hb. intros [= <- _]. simpl.
    unfold isStatement. simpl. rewrite Hty, Hb. reflexivity.
  - intros [= <- _]. simpl. unfold isStatement. simpl. rewrite Hty. reflexivity.
Qed.

Lemma parseForLoop_shape : buildsStatements parseForLoop.
Proof. intros p r p'. unfold parseForLoop. apply parseLoop_shape. reflexivity. Qed.

Lemma parseWhileLoop_shape : buildsStatements parseWhileLoop.
Proof. intros p r p'. unfold parseWhileLoop. apply parseLoop_shape. reflexivity. Qed.

Lemma parseIfStatement_shape : buildsStatements parseIfStatement.
Proof.
  intros p r p'. rewrite parseIfStatement_as_parseLoop.
  apply parseLoop_shape. reflexivity.
Qed.

Lemma dispatch_shape (child : Node.t -> bool)
    (build : Parser.t -> option (option Node.t * Parser.t)) (parent : Node.t) p s' :
  (forall q r q', build q = Some (r, q') -> optionOk child r = true) ->
  isBlockOf child parent = true ->
  ('(n, q) ← build p; Some (appendNotNil parent n, q)) = Some s' ->
  isBlockOf child s'.1 = true.
Proof.
  intros Hb Hp. destruct (build p) as [[r q]|] eqn:Hrun; simpl; [|discriminate].
  intros [= <-]. simpl. apply isBlockOf_appendNotNil; eauto.
Qed.

Lemma statement_is_function_child r :
  optionOk isStatement r = true -> optionOk isFunctionChild r = true.
Proof.
  destruct r; simpl; [|auto]. unfold isFunctionChild. intros ->. reflexivity.
Qed.

Lemma functionBlockBody_shape s s' :
  isBlockOf isFunctionChild s.1 = true -> functionBlockBody s = Some s' ->
  isBlockOf isFunctionChild s'.1 = true.
Proof.
  destruct s as [body p]. unfold functionBlockBody. simpl. intros Hb.
  assert (Hd : forall build, buildsStatements build ->
            forall t, ('(n, q) ← build p; Some (appendNotNil body n, q)) = Some t ->
            isBlockOf isFunctionChild t.1 = true).
  { intros build Hbuild t. apply dispatch_shape; [|exact Hb].
    intros q r q' Hq. apply statement_is_function_child. eapply Hbuild, Hq. }
  match goal with
  | |- (?m ≫= _) = Some _ -> _ =>
      destruct m as [[body1 p1]|] eqn:Hm; simpl; [|discriminate]
  end.
  intros [= <-]. simpl.
  destruct (currentIs p TokenKeyword).
  - destruct (currentValueIs p "for");
      [exact (Hd _ parseForLoop_shape _ Hm)|].
    destruct (currentValueIs p "while");
      [exact (Hd _ parseWhileLoop_shape _ Hm)|].
    destruct (currentValueIs p "if");
      [exact (Hd _ parseIfStatement_shape _ Hm)|].
    injection Hm as <- _. exact Hb.
  - destruct (currentIs p TokenIdentifier).
    + pose proof (parseVariableAccess_shape p) as Ha.
      destruct (parseVariableAccess p) as [access q]. simpl in Ha.
      injection Hm as <- _. apply isBlockOf_append; [exact Hb|].
      unfold isFunctionChild. rewrite Ha. apply orb_true_r.
    + injection Hm as <- _. exact Hb.
Qed.

Lemma parseFunction_shape p r p' :
  parseFunction p = Some (r, p') -> optionOk isFunction r = true.
Proof.
  unfold parseFunction.
  set (funcNode := Node.mk "FunctionDeclaration" "" [] (Token.Line (Parser.Current p))).
  destruct (if currentIs (advance p) TokenIdentifier
            then (Node.mk (Node.Type_ funcNode) (Token.Value (Parser.Current (advance p)))
                    (Node.Children funcNode) (Node.Line funcNode), advance (advance p))
            else (funcNode, advance p)) as [fn p1] eqn:Hname.
  assert (Hfn : Node.Type_ fn = "FunctionDeclaration" /\ Node.Children fn = []).
  { destruct (currentIs (advance p) TokenIdentifier); injection Hname as <- _; auto. }
  destruct Hfn as [Hty Hch].
  match goal with
  | |- (?m ≫= _) = Some _ -> _ => destruct m as [p2|]; simpl; [|discriminate]
  end.
  destruct (currentIs p2 TokenPunctuation && currentValueIs p2 "{").
  - destruct (whileLoop blockCond functionBlockBody _ _) as [[body' p3]|] eqn:Hb;
      simpl; [|discriminate].
    apply (whileLoop_inv blockCond functionBlockBody
             (fun s => isBlockOf isFunctionChild s.1 = true)) in Hb;
      [|intros s s' Hs _; apply functionBlockBody_shape, Hs | reflexivity].
    intros [= <- _]. simpl. unfold isFunction, appendChild. simpl.
    rewrite Hty, Hch. simpl in *. rewrite Hb. reflexivity.
  - intros [= <- _]. simpl. unfold isFunction. rewrite Hty, Hch. reflexivity.
Qed.

Lemma isFallbackTree_appendNotNil root r :
  isFallbackTree root = true -> optionOk isRootChild r = true ->
  isFallbackTree (appendNotNil root r) = true.
Proof.
  destruct r as [c|]; simpl; [|auto]. unfold isFallbackTree, appendChild. simpl.
  intros H Hc. apply andb_prop in H as [H1 H2].
  rewrite H1, forallb_app, H2. simpl. rewrite Hc. reflexivity.
Qed.

Lemma parseStep_shape s s' :
  isFallbackTree s.1 = true -> parseStep s = Some s' -> isFallbackTree s'.1 = true.
Proof.
  destruct s as [root p]. unfold parseStep. simpl. intros Hroot.
  assert (Hd : forall build,
            (forall q r q', build q = Some (r, q') -> optionOk isRootChild r = true) ->
            ('(n, q) ← build p; Some (appendNotNil root n, q)) = Some s' ->
            isFallbackTree s'.1 = true).
  { intros build Hb. destruct (build p) as [[r q]|] eqn:Hrun; simpl; [|discriminate].
    intros [= <-]. simpl. apply isFallbackTree_appendNotNil; eauto. }
  assert (Hstmt : forall build, buildsStatements build ->
            forall q r q', build q = Some (r, q') -> optionOk isRootChild r = true).
  { intros build Hb q r q' Hq. apply Hb in Hq. destruct r; simpl in *; [|auto].
    unfold isRootChild. rewrite Hq. reflexivity. }
  destruct (currentIs p TokenKeyword); [|intros [= <-]; exact Hroot].
  destruct (currentValueIs p "for"); [apply Hd, Hstmt, parseForLoop_shape|].
  destruct (currentValueIs p "while"); [apply Hd, Hstmt, parseWhileLoop_shape|].
  destruct (currentValueIs p "if"); [apply Hd, Hstmt, parseIfStatement_shape|].
  destruct (currentValueIs p "function"); [|intros [= <-]; exact Hroot].
  apply Hd. intros q r q' Hq. apply parseFunction_shape in Hq.
  destruct r; simpl in *; [|auto]. unfold isRootChild. rewrite Hq. apply orb_true_r.
Qed.

(** X5.  Whatever the tokens, Parse returns a tree of one shape: a Root
    whose children are statements (for, while, if) and functions; a
    statement has no child or one block of accesses; a function has no
    child or one block of statements and accesses; an access has no child
    or one member leaf.  So no statement sits in the block of a statement,
    and no function in a block. *)
Theorem Parse_tree_shape (p : Parser.t) :
  (isFallbackTree <$> Parse p) = Some true.
Proof.
  destruct (ParseRun_total p) as (root & p' & Hrun & _).
  unfold Parse. rewrite Hrun. simpl. f_equal.
  unfold ParseRun in Hrun.
  apply (whileLoop_inv _ parseStep (fun s => isFallbackTree s.1 = true)) in Hrun;
    [exact Hrun | | reflexivity].
  intros s s' Hs _. apply parseStep_shape, Hs.
Qed.

Lemma parseStep_skips root p :
  statementKeyword (Parser.Current p) = false ->
  parseStep (root, p) = Some (root, advance p).
Proof.
  unfold statementKeyword, parseStep, currentIs, currentValueIs.
  destruct (TokenType_eqb _ _); [|reflexivity]. simpl.
  destruct (String.eqb _ "for"); [discriminate|].
  destruct (String.eqb _ "while"); [discriminate|].
  destruct (String.eqb _ "if"); [discriminate|].
  destruct (String.eqb _ "function"); [discriminate|]. reflexivity.
Qed.

Lemma Parse_without_statement_keyword p :
  (forall i t, Parser.Tokens p !! i = Some t ->
     (S i < length (Parser.Tokens p))%nat -> statementKeyword t = false) ->
  Parse p = Some emptyRoot.
Proof.
  intros Hno. destruct (ParseRun_total p) as (root & p' & Hrun & _).
  unfold Parse. rewrite Hrun. simpl. f_equal.
  unfold ParseRun in Hrun.
  apply (whileLoop_inv _ parseStep
           (fun s => s.1 = emptyRoot /\ Parser.Tokens s.2 = Parser.Tokens p
                     /\ (inRange s.2 = true -> currentOk s.2))) in Hrun.
  - apply Hrun.
  - intros [r q] s' (Hroot & Ht & Hok) Hc. cbn [fst snd] in *. subst r.
    specialize (Hok Hc). pose proof Hc as Hlt. apply inRange_lt in Hlt.
    destruct Hok as [Hpos Hcur].
    rewrite parseStep_skips.
    + intros [= <-]. simpl. split; [reflexivity|].
      split; [rewrite <- Ht; apply advance_ext|].
      intros _. apply advance_currentOk. split; assumption.
    + rewrite Hcur, Ht in *. apply (Hno (Parser.Pos q - 1)%nat); [|lia].
      rewrite nth_lookup.
      destruct (lookup_lt_is_Some_2 (Parser.Tokens p) (Parser.Pos q - 1)) as [t Ht'];
        [lia|]. rewrite Ht'. reflexivity.
  - simpl. split; [reflexivity|]. split; [apply advance_ext|].
    intros Hr. unfold advance in *.
    destruct (Nat.ltb_spec (Parser.Pos p) (length (Parser.Tokens p))) as [Hlt|Hge];
      simpl in *.
    + split; [simpl; lia|]. simpl. f_equal. lia.
    + unfold inRange in Hr. apply Nat.ltb_lt in Hr. lia.
Qed.

(** X6.  When no token but possibly the last is one of the keywords for,
    while, if and function, Parse returns a Root without children: the
    last token of a stream never starts a statement. *)
Theorem Parse_needs_statement_keyword (p : Parser.t) :
  (forall i t, Parser.Tokens p !! i = Some t ->
     (S i < length (Parser.Tokens p))%nat -> statementKeyword t = false) ->
  Parse p = Some emptyRoot.
Proof. apply Parse_without_statement_keyword. Qed.

Lemma Parse_needs_statement_keyword_witness :
  last (tokenize TrimSpace_ascii scanInt_dec keywordLast)
  = Some (Token.mk TokenKeyword "for" 1)
  /\ fallbackParse keywordLast = Some emptyRoot.
Proof.
  split; [vm_compute; reflexivity|].
  apply Parse_needs_statement_keyword.
  intros i t Ht Hlt.
  do 5 (destruct i as [|i]; [vm_compute in Ht; injection Ht as <-; reflexivity|]).
  vm_compute in Hlt. lia.
Defined.

(** X7.  Inside the block of a loop or conditional, the token that follows
    an identifier is never examined unless it is the member operator: when
    it is a close brace and one more token follows, the iteration appends
    the access and leaves the cursor two tokens further, the brace behind
    it, so that brace does not end the block. *)
Theorem brace_after_access_is_skipped (body : Node.t) (p : Parser.t) (t : Token.t) :
  blockCond (body, p) = true ->
  currentIs p TokenIdentifier = true ->
  Parser.Tokens p !! Parser.Pos p = Some t ->
  Token.Value t = "}" ->
  (Parser.Pos p + 1 < length (Parser.Tokens p))%nat ->
  exists p',
    blockBody (body, p)
    = Some (appendChild body
              (Node.mk "MemberAccess" (Token.Value (Parser.Current p)) []
                 (Token.Line (Parser.Current p))), p')
    /\ Parser.Pos p' = Parser.Pos p + 2
    /\ Parser.Tokens p !! (Parser.Pos p + 1) = Some (Parser.Current p').
Proof.
  intros Hc Hid Ht Hv Hlen.
  assert (Hr : (Parser.Pos p <? length (Parser.Tokens p))%nat = true)
    by (apply Nat.ltb_lt; lia).
  assert (Hadv : advance p
                 = Parser.mk (Parser.Tokens p) (Parser.Pos p + 1) (Parser.Source p) t).
  { unfold advance. rewrite Hr, nth_lookup, Ht. reflexivity. }
  destruct (lookup_lt_is_Some_2 (Parser.Tokens p) (Parser.Pos p + 1) Hlen) as [t' Ht'].
  exists (Parser.mk (Parser.Tokens p) (Parser.Pos p + 1 + 1) (Parser.Source p) t').
  split; [|split; [simpl; lia | exact Ht']].
  unfold blockBody. rewrite Hid. unfold parseVariableAccess. rewrite Hadv.
  unfold currentIs, currentValueIs. simpl. rewrite Hv. simpl.
  rewrite andb_false_r. unfold advance. simpl.
  apply Nat.ltb_lt in Hlen. rewrite Hlen, nth_lookup, Ht'. reflexivity.
Qed.

Lemma brace_after_access_is_skipped_witness :
  Parser.Current braceAfterAccess = Token.mk TokenIdentifier "a" 1
  /\ exists p',
       blockBody (Node.mk "Block" "" [] 1, braceAfterAccess)
       = Some (appendChild (Node.mk "Block" "" [] 1)
                 (Node.mk "MemberAccess" (Token.Value (Parser.Current braceAfterAccess)) []
                    (Token.Line (Parser.Current braceAfterAccess))), p')
       /\ Parser.Pos p' = Parser.Pos braceAfterAccess + 2
       /\ Parser.Tokens braceAfterAccess !! (Parser.Pos braceAfterAccess + 1)
          = Some (Parser.Current p').
Proof.
  split; [reflexivity|].
  apply (brace_after_access_is_skipped (Node.mk "Block" "" [] 1) braceAfterAccess
           (Token.mk TokenPunctuation "}" 1));
    [reflexivity | reflexivity | reflexivity | reflexivity | vm_compute; lia].
Defined.

(** * Further properties of the analysis *)

(** ** Induction over the two trees *)

Lemma Node_induction (P : Node.t -> Prop) :
  (forall n, Forall P (Node.Children n) -> P n) -> forall n, P n.
Proof.
  intros H. fix IH 1. intros [ty v children l]. apply H. simpl.
  induction children as [|c cs IHcs]; constructor; [apply IH | exact IHcs].
Qed.

Lemma SolcASTNode_induction (P : SolcASTNode -> Prop) :
  (forall n,
      Forall P (Nodes n) -> optionAll P (Body n) -> Forall P (Statements n) ->
      optionAll P (Expression n) -> optionAll P (InitialValue n) ->
      optionAll P (LeftExpression n) -> optionAll P (RightExpression n) -> P n) ->
  forall n, P n.
Proof.
  intros H. fix IH 1. intros n.
  assert (Hall : forall l : list SolcASTNode, Forall P l).
  { intros l. induction l as [|c cs IHcs]; constructor; [apply IH | exact IHcs]. }
  assert (Hopt : forall o : option SolcASTNode, optionAll P o).
  { intros [x|]; [apply IH | exact I]. }
  apply H; auto.
Qed.

(** ** Maps of counts *)

Lemma incrAll_app a b m : incrAll (a ++ b) m = incrAll b (incrAll a m).
Proof. unfold incrAll. apply fold_left_app. Qed.

Lemma incr_lookup key m k :
  incr key m !! k
  = if String.eqb k key then Some (default 0 (m !! k) + 1)%Z else m !! k.
Proof.
  unfold incr. destruct (String.eqb_spec k key) as [->|Hne].
  - apply lookup_insert_eq.
  - apply lookup_insert_ne. congruence.
Qed.

Lemma incrAll_lookup keys : forall m k,
  incrAll keys m !! k
  = if (countKey k keys =? 0)%nat then m !! k
    else Some (default 0 (m !! k) + Z.of_nat (countKey k keys))%Z.
Proof.
  induction keys as [|key keys IH]; intros m k; [reflexivity|].
  change (incrAll (key :: keys) m) with (incrAll keys (incr key m)).
  rewrite IH, incr_lookup. unfold countKey. simpl.
  destruct (String.eqb k key); simpl.
  - destruct (Nat.eqb_spec (length (List.filter (String.eqb k) keys)) 0) as [->|Hn].
    + reflexivity.
    + f_equal. lia.
  - reflexivity.
Qed.

Lemma incrAll_empty keys k : incrAll keys ∅ !! k = countOf k keys.
Proof.
  rewrite incrAll_lookup, lookup_empty. unfold countOf.
  destruct (countKey k keys =? 0)%nat; [reflexivity|]. simpl. f_equal.
Qed.

Lemma fold_collect {A : Type} (f : A -> gmap string Z -> gmap string Z)
    (keys : A -> list string) (l : list A) :
  Forall (fun c => forall m, f c m = incrAll (keys c) m) l ->
  forall m, fold_left (fun m c => f c m) l m = incrAll (flat_map keys l) m.
Proof.
  induction 1 as [|c l Hc _ IH]; intros m; simpl; [reflexivity|].
  rewrite IH, Hc, incrAll_app. reflexivity.
Qed.

Lemma optionAll_collect (f : SolcASTNode -> gmap string Z -> gmap string Z)
    (keys : SolcASTNode -> list string) (o : option SolcASTNode) m :
  optionAll (fun c => forall m, f c m = incrAll (keys c) m) o ->
  match o with Some c => f c m | None => m end
  = incrAll (match o with Some c => keys c | None => [] end) m.
Proof. destruct o; simpl; auto. Qed.

(** ** The three collectors *)

Lemma collectStorageReadsCustom_eq node m :
  collectStorageReadsCustom node m
  = fold_left
      (fun m child => collectStorageReadsCustom child (incrAll (customKey child) m))
      (Node.Children node) m.
Proof.
  destruct node as [ty v children l]. cbn [collectStorageReadsCustom Node.Children].
  generalize m. induction children as [|c cs IH]; intros m0; [reflexivity|].
  cbn [fold_left]. rewrite IH. f_equal. f_equal.
  unfold customKey. destruct (String.eqb (Node.Type_ c) "MemberAccess"); [|reflexivity].
  destruct (Node.Children c); reflexivity.
Qed.

Lemma collectStorageReadsCustom_keys node : forall m,
  collectStorageReadsCustom node m = incrAll (customKeys node) m.
Proof.
  induction node as [node IH] using Node_induction. intros m.
  rewrite collectStorageReadsCustom_eq.
  destruct node as [ty v children l]. cbn [customKeys Node.Children] in *.
  revert m. induction IH as [|c cs Hc _ IHcs]; intros m; [reflexivity|].
  cbn [fold_left flat_map]. rewrite IHcs, Hc, !incrAll_app. reflexivity.
Qed.

Lemma collectStorageReadsSolc_eq node m :
  collectStorageReadsSolc node m
  = match Body node with
    | Some body =>
        collectStorageReadsSolc body
          (fold_left (fun m child => collectStorageReadsSolc child m)
             (Statements node) (incrAll (readKey node) m))
    | None =>
        fold_left (fun m child => collectStorageReadsSolc child m)
          (Statements node) (incrAll (readKey node) m)
    end.
Proof.
  assert (Hown : incrAll (readKey node) m
                 = if String.eqb (NodeType node) "VariableDeclarationStatement" then
                     match InitialValue node with
                     | Some iv =>
                         if String.eqb (NodeType iv) "IndexAccess" then
                           match BaseExpression iv, IndexExpression iv with
                           | Some base, Some index =>
                               incr (Name base ++ "[" ++ Name index ++ "]") m
                           | _, _ => m
                           end
                         else m
                     | None => m
                     end
                   else m).
  { unfold readKey.
    destruct (String.eqb (NodeType node) "VariableDeclarationStatement"); [|reflexivity].
    destruct (InitialValue node) as [iv|]; [|reflexivity].
    destruct (String.eqb (NodeType iv) "IndexAccess"); [|reflexivity].
    destruct (BaseExpression iv), (IndexExpression iv); reflexivity. }
  rewrite Hown. destruct node. reflexivity.
Qed.

Lemma collectStorageReadsSolc_keys node : forall m,
  collectStorageReadsSolc node m = incrAll (readKeys node) m.
Proof.
  induction node as [node _ Hbody Hstmts _ _ _ _] using SolcASTNode_induction.
  intros m. rewrite collectStorageReadsSolc_eq.
  rewrite (fold_collect _ readKeys _ Hstmts).
  assert (Hk : readKeys node
               = readKey node ++ flat_map readKeys (Statements node)
                 ++ match Body node with Some body => readKeys body | None => [] end)
    by (destruct node; reflexivity).
  rewrite Hk, !incrAll_app.
  destruct (Body node) as [body|]; simpl in *; [apply Hbody | reflexivity].
Qed.

Lemma collectExpressions_eq node m :
  collectExpressions node m
  = let m := incrAll (exprKey node) m in
    let m := match LeftExpression node with
             | Some lhs => collectExpressions lhs m | None => m end in
    let m := match RightExpression node with
             | Some rhs => collectExpressions rhs m | None => m end in
    let m := if String.eqb (NodeType node) "VariableDeclarationStatement" then
               match InitialValue node with
               | Some iv => collectExpressions iv m | None => m end
             else m in
    let m := if String.eqb (NodeType node) "Return" then
               match Expression node with
               | Some e => collectExpressions e m | None => m end
             else m in
    fold_left (fun m stmt => collectExpressions stmt m) (Statements node) m.
Proof.
  assert (Hown : incrAll (exprKey node) m
                 = if String.eqb (NodeType node) "BinaryOperation" then
                     match LeftExpression node, RightExpression node with
                     | Some lhs, Some rhs =>
                         if nonEmpty (leftText lhs) && nonEmpty (rightText rhs) then
                           incr (leftText lhs ++ " " ++ Operator node ++ " "
                                 ++ rightText rhs) m
                         else m
                     | _, _ => m
                     end
                   else m).
  { unfold exprKey.
    destruct (String.eqb (NodeType node) "BinaryOperation"); [|reflexivity].
    destruct (LeftExpression node), (RightExpression node); try reflexivity.
    destruct (nonEmpty (leftText _) && nonEmpty (rightText _)); reflexivity. }
  cbv zeta. rewrite Hown. destruct node. reflexivity.
Qed.

Lemma collectExpressions_keys node : forall m,
  collectExpressions node m = incrAll (exprKeys node) m.
Proof.
  induction node as [node _ _ Hstmts Hexpr Hinit Hleft Hright]
    using SolcASTNode_induction.
  intros m. rewrite collectExpressions_eq. cbv zeta.
  rewrite (fold_collect _ exprKeys _ Hstmts).
  assert (Hk : exprKeys node
               = exprKey node
                 ++ match LeftExpression node with Some lhs => exprKeys lhs | None => [] end
                 ++ match RightExpression node with Some rhs => exprKeys rhs | None => [] end
                 ++ (if String.eqb (NodeType node) "VariableDeclarationStatement" then
                       match InitialValue node with Some iv => exprKeys iv | None => [] end
                     else [])
                 ++ (if String.eqb (NodeType node) "Return" then
                       match Expression node with Some e => exprKeys e | None => [] end
                     else [])
                 ++ flat_map exprKeys (Statements node))
    by (destruct node; reflexivity).
  rewrite Hk, !incrAll_app. f_equal.
  destruct (String.eqb (NodeType node) "Return");
    destruct (String.eqb (NodeType node) "VariableDeclarationStatement");
    rewrite ?(optionAll_collect _ exprKeys _ _ Hexpr);
    rewrite ?(optionAll_collect _ exprKeys _ _ Hinit);
    rewrite ?(optionAll_collect _ exprKeys _ _ Hright);
    rewrite ?(optionAll_collect _ exprKeys _ _ Hleft);
    reflexivity.
Qed.

(** X8.  collectStorageReadsCustom counts, for every key base.member, the
    accesses with a member that lie anywhere below the node, the node
    itself left out: it adds to the map it is given one for each such
    access, and from an empty map a key is present exactly when it occurs,
    with the number of its occurrences. *)
Theorem collectStorageReadsCustom_counts (node : Node.t) (m : gmap string Z)
    (key : string) :
  collectStorageReadsCustom node m = incrAll (customKeys node) m
  /\ collectStorageReadsCustom node ∅ !! key = countOf key (customKeys node)
  /\ default 0%Z (collectStorageReadsCustom node m !! key)
     = (default 0 (m !! key) + Z.of_nat (countKey key (customKeys node)))%Z.
Proof.
  rewrite !collectStorageReadsCustom_keys. split; [reflexivity|].
  split; [apply incrAll_empty|].
  rewrite incrAll_lookup. destruct (Nat.eqb_spec (countKey key (customKeys node)) 0) as [->|_].
  - simpl. lia.
  - reflexivity.
Qed.

(** X9.  collectStorageReadsSolc counts, for every key base[index], the
    declaration statements initialised from an index access that it meets
    at the node and below it through the links Statements and Body, and
    through no other link. *)
Theorem collectStorageReadsSolc_counts (node : SolcASTNode) (m : gmap string Z)
    (key : string) :
  collectStorageReadsSolc node m = incrAll (readKeys node) m
  /\ collectStorageReadsSolc node ∅ !! key = countOf key (readKeys node)
  /\ default 0%Z (collectStorageReadsSolc node m !! key)
     = (default 0 (m !! key) + Z.of_nat (countKey key (readKeys node)))%Z.
Proof.
  rewrite !collectStorageReadsSolc_keys. split; [reflexivity|].
  split; [apply incrAll_empty|].
  rewrite incrAll_lookup. destruct (Nat.eqb_spec (countKey key (readKeys node)) 0) as [->|_].
  - simpl. lia.
  - reflexivity.
Qed.

(** X10.  collectExpressions counts, for every key, the binary operations
    whose two operands have a text, met at the node and below it through
    the operands, the initial value of a declaration statement, the
    expression of a return and the link Statements; it does not descend
    through Body, nor through the expression of any other statement. *)
Theorem collectExpressions_counts (node : SolcASTNode) (m : gmap string Z)
    (key : string) :
  collectExpressions node m = incrAll (exprKeys node) m
  /\ collectExpressions node ∅ !! key = countOf key (exprKeys node)
  /\ default 0%Z (collectExpressions node m !! key)
     = (default 0 (m !! key) + Z.of_nat (countKey key (exprKeys node)))%Z.
Proof.
  rewrite !collectExpressions_keys. split; [reflexivity|].
  split; [apply incrAll_empty|].
  rewrite incrAll_lookup. destruct (Nat.eqb_spec (countKey key (exprKeys node)) 0) as [->|_].
  - simpl. lia.
  - reflexivity.
Qed.

(** ** The nodes the passes visit *)

Lemma walkSolcAST_eq node :
  walkSolcAST node
  = node :: flat_map walkSolcAST (Nodes node)
      ++ match Body node with Some body => walkSolcAST body | None => [] end
      ++ flat_map walkSolcAST (Statements node).
Proof. destruct node; reflexivity. Qed.

Lemma walkSolcAST_reaches node : forall d, In d (walkSolcAST node) -> reaches node d.
Proof.
  induction node as [node Hnodes Hbody Hstmts _ _ _ _] using SolcASTNode_induction.
  intros d. rewrite walkSolcAST_eq. intros [<-|Hin]; [constructor|].
  rewrite !in_app_iff, !in_flat_map in Hin.
  destruct Hin as [(c & Hc & Hd)|[Hd|(c & Hc & Hd)]].
  - eapply reaches_node; [exact Hc|].
    rewrite Forall_forall in Hnodes. apply Hnodes; [apply list_elem_of_In, Hc | exact Hd].
  - destruct (Body node) as [body|] eqn:Hb; [|destruct Hd].
    eapply reaches_body; [exact Hb | apply Hbody, Hd].
  - eapply reaches_statement; [exact Hc|].
    rewrite Forall_forall in Hstmts. apply Hstmts; [apply list_elem_of_In, Hc | exact Hd].
Qed.

Lemma reaches_walkSolcAST node d : reaches node d -> In d (walkSolcAST node).
Proof.
  induction 1 as [n | n child d Hc _ IH | n body d Hb _ IH | n stmt d Hs _ IH];
    rewrite walkSolcAST_eq.
  - left. reflexivity.
  - right. apply in_or_app. left. apply in_flat_map. exists child. auto.
  - right. apply in_or_app. right. apply in_or_app. left. rewrite Hb. exact IH.
  - right. apply in_or_app. right. apply in_or_app. right.
    apply in_flat_map. exists stmt. auto.
Qed.

(** X11.  walkSolcAST calls its function on the node first and then on
    exactly the nodes reachable from it through the links Nodes, Body and
    Statements: a node held by any other link (an expression, an initial
    value, an operand, a type name) is visited by no pass. *)
Theorem walkSolcAST_visits_reachable (node d : SolcASTNode) :
  (In d (walkSolcAST node) <-> reaches node d)
  /\ head (walkSolcAST node) = Some node.
Proof.
  split; [split; [apply walkSolcAST_reaches | apply reaches_walkSolcAST]|].
  rewrite walkSolcAST_eq. reflexivity.
Qed.

(** ** The type-width pass *)

Lemma typeReports_eq node :
  typeReports node = if smallWidthDeclaration node then [typeReport node] else [].
Proof.
  unfold typeReports, inefficientType, smallWidthDeclaration, typeReport.
  destruct (String.eqb (NodeType node) "VariableDeclaration"); [|reflexivity].
  destruct (TypeName node) as [ty|]; [|reflexivity]. simpl.
  destruct (String.eqb (Name ty) "uint8" || String.eqb (Name ty) "uint16"
            || String.eqb (Name ty) "uint32"); reflexivity.
Qed.

Lemma flat_map_typeReports nodes :
  flat_map typeReports nodes
  = map typeReport (List.filter smallWidthDeclaration nodes).
Proof.
  induction nodes as [|n ns IH]; [reflexivity|].
  cbn [flat_map List.filter]. rewrite IH, typeReports_eq.
  destruct (smallWidthDeclaration n); reflexivity.
Qed.

(** X12.  The type-width pass keeps the reports it is given and appends, in
    the order of the visit, one report for every visited node that is a
    VariableDeclaration with a type name uint8, uint16 or uint32, located
    at the Src of that node; a declaration of any other type, or without a
    type name, gives none. *)
Theorem checkInefficientTypes_reports (ast : SolcASTNode) (reports : list Report) :
  checkInefficientTypes ast reports
  = reports ++ map typeReport (List.filter smallWidthDeclaration (walkSolcAST ast)).
Proof. rewrite checkInefficientTypes_eq, flat_map_typeReports. reflexivity. Qed.

(** ** Analyze run twice *)

Section AnalyzeTwice.
Context {J : Type}.
Variable decodeRoot : J -> SolcASTNode.

Lemma Analyze_canonical (g g' : GasOptimizer J) :
  Analyze J decodeRoot g g' ->
  exists new, Reports g' = Reports g ++ new
    /\ new ≡ₚ Reports (AnalyzeWith J decodeRoot map_to_list
                         (mkGasOptimizer (Source g) (AST g) [])).
Proof.
  intros (_ & _ & Hrun).
  pose proof (AnalyzeWith_run decodeRoot map_to_list
                (mkGasOptimizer (Source g) (AST g) []) rangeMap_map_to_list)
    as (_ & _ & Hcanon).
  simpl in Hcanon. destruct (AST g) as [ast|ast].
  - apply (runPass_appends _ _ _ emitLoopCustom_eq) in Hrun as (new & -> & Hp).
    apply (runPass_appends _ _ _ emitLoopCustom_eq) in Hcanon as (new' & Hc & Hp').
    simpl in Hc. exists new. split; [reflexivity|].
    simpl. rewrite Hc, Hp, Hp'. reflexivity.
  - apply analyzeSolcRoot_appends in Hrun as (l & r & -> & Hl & Hr).
    apply analyzeSolcRoot_appends in Hcanon as (l' & r' & Hc & Hl' & Hr').
    simpl in Hc. eexists. split; [reflexivity|].
    simpl. rewrite Hc, Hl, Hr, Hl', Hr'. reflexivity.
Qed.

(** X14.  Analyze does not start from an empty list: a second run on the
    same analyzer keeps the reports of the first and appends the same
    reports once more, in some order. *)
Theorem Analyze_twice_repeats_reports (g g1 g2 : GasOptimizer J) :
  Analyze J decodeRoot g g1 -> Analyze J decodeRoot g1 g2 ->
  exists new1 new2,
    Reports g1 = Reports g ++ new1
    /\ Reports g2 = Reports g ++ new1 ++ new2
    /\ new1 ≡ₚ new2
    /\ AST g2 = AST g /\ Source g2 = Source g.
Proof.
  intros H1 H2.
  destruct (Analyze_canonical _ _ H1) as (new1 & E1 & P1).
  destruct (Analyze_canonical _ _ H2) as (new2 & E2 & P2).
  destruct H1 as (Hs1 & Ha1 & _), H2 as (Hs2 & Ha2 & _).
  exists new1, new2. rewrite E2, E1, <- app_assoc.
  repeat split; try congruence.
  rewrite P1, P2, Hs1, Ha1. reflexivity.
Qed.
End AnalyzeTwice.

Lemma Analyze_twice_repeats_reports_witness :
  Analyze SolcASTNode id sampleAnalyzer (AnalyzeWith SolcASTNode id map_to_list sampleAnalyzer)
  /\ Analyze SolcASTNode id (AnalyzeWith SolcASTNode id map_to_list sampleAnalyzer)
       (AnalyzeWith SolcASTNode id map_to_list
          (AnalyzeWith SolcASTNode id map_to_list sampleAnalyzer))
  /\ exists new1 new2,
       Reports (AnalyzeWith SolcASTNode id map_to_list sampleAnalyzer)
       = Reports sampleAnalyzer ++ new1
       /\ Reports (AnalyzeWith SolcASTNode id map_to_list
                     (AnalyzeWith SolcASTNode id map_to_list sampleAnalyzer))
          = Reports sampleAnalyzer ++ new1 ++ new2
       /\ new1 ≡ₚ new2.
Proof.
  assert (H1 : Analyze SolcASTNode id sampleAnalyzer
                 (AnalyzeWith SolcASTNode id map_to_list sampleAnalyzer))
    by apply AnalyzeWith_run, rangeMap_map_to_list.
  assert (H2 : Analyze SolcASTNode id (AnalyzeWith SolcASTNode id map_to_list sampleAnalyzer)
                 (AnalyzeWith SolcASTNode id map_to_list
                    (AnalyzeWith SolcASTNode id map_to_list sampleAnalyzer)))
    by apply AnalyzeWith_run, rangeMap_map_to_list.
  split; [exact H1|]. split; [exact H2|].
  destruct (Analyze_twice_repeats_reports id _ _ _ H1 H2)
    as (new1 & new2 & E1 & E2 & Hp & _).
  exists new1, new2. auto.
Defined.

(** ** Construction of the analyzer, further *)

(** X15.  A failure to read the file is returned as such whatever the tool
    did.  An analyzer that is returned carries the text read and no report;
    its tree is the fallback tree of that text exactly when the tool
    failed, the output of the tool being then ignored, and otherwise the
    decoding of the document found in the output. *)
Theorem NewGasOptimizer_result {J : Type} (TrimSpace : string -> string)
    (scanInt : string -> bool) (json_Unmarshal : string -> option J)
    (readFile : option string) (solc : CmdResult) (g : GasOptimizer J) :
  (readFile = None ->
   NewGasOptimizer TrimSpace scanInt J json_Unmarshal readFile solc
   = Some (inl ErrReadFile))
  /\ (NewGasOptimizer TrimSpace scanInt J json_Unmarshal readFile solc = Some (inr g) ->
      readFile = Some (Source g) /\ Reports g = []
      /\ match AST g with
         | CustomAST ast =>
             failed solc = true
             /\ Parse (NewParser TrimSpace scanInt (Source g)) = Some ast
         | SolcAST ast =>
             failed solc = false
             /\ exists jsonData, findJSON (output solc) = Some jsonData
                  /\ json_Unmarshal jsonData = Some ast
         end).
Proof.
  split; [intros ->; reflexivity|].
  unfold NewGasOptimizer. destruct readFile as [source|]; [|discriminate].
  destruct (failed solc).
  - destruct (Parse (NewParser TrimSpace scanInt source)) as [ast|] eqn:Hp;
      simpl; [|discriminate].
    intros [= <-]. simpl. repeat split. exact Hp.
  - destruct (findJSON (output solc)) as [jsonData|] eqn:Hf; [|discriminate].
    destruct (json_Unmarshal jsonData) as [ast|] eqn:Hd; [|discriminate].
    intros [= <-]. simpl. repeat split. exists jsonData. split; [reflexivity | exact Hd].
Qed.

Lemma NewGasOptimizer_result_witness :
  NewGasOptimizer TrimSpace_ascii scanInt_dec SolcASTNode (fun _ => Some loopTwoAndOne)
    None (mkCmdResult "" false)
  = Some (inl ErrReadFile)
  /\ NewGasOptimizer TrimSpace_ascii scanInt_dec SolcASTNode (fun _ => Some loopTwoAndOne)
       (Some "contract C {}") (mkCmdResult "JSON AST (compact format): {}" false)
     = Some (inr (mkGasOptimizer "contract C {}" (SolcAST loopTwoAndOne) []))
  /\ (failed (mkCmdResult "JSON AST (compact format): {}" false) = false
      /\ exists jsonData,
           findJSON (output (mkCmdResult "JSON AST (compact format): {}" false))
           = Some jsonData
           /\ (fun _ : string => Some loopTwoAndOne) jsonData = Some loopTwoAndOne).
Proof.
  assert (Hrun : NewGasOptimizer TrimSpace_ascii scanInt_dec SolcASTNode
                   (fun _ => Some loopTwoAndOne) (Some "contract C {}")
                   (mkCmdResult "JSON AST (compact format): {}" false)
                 = Some (inr (mkGasOptimizer "contract C {}" (SolcAST loopTwoAndOne) [])))
    by reflexivity.
  split; [|split; [exact Hrun|]].
  - exact (proj1 (NewGasOptimizer_result TrimSpace_ascii scanInt_dec
                    (fun _ => Some loopTwoAndOne) None (mkCmdResult "" false)
                    (mkGasOptimizer "" (SolcAST loopTwoAndOne) [])) eq_refl).
  - exact (proj2 (proj2 (proj2 (NewGasOptimizer_result TrimSpace_ascii scanInt_dec
                    (fun _ => Some loopTwoAndOne) (Some "contract C {}")
                    (mkCmdResult "JSON AST (compact format): {}" false)
                    (mkGasOptimizer "contract C {}" (SolcAST loopTwoAndOne) [])) Hrun))).
Defined.

Lemma fromFirst_skips c mid rest :
  withoutByte c mid = true ->
  fromFirst c (mid ++ String c rest)%string = Some (String c rest).
Proof.
  unfold withoutByte. induction mid as [|a mid IH]; intros H.
  - rewrite append_nil_l. simpl. rewrite Ascii.eqb_refl. reflexivity.
  - rewrite append_cons. simpl in *. apply andb_prop in H as [Ha Hm].
    apply negb_true_iff in Ha. rewrite Ha. apply IH, Hm.
Qed.

Lemma uptoLast_without c tail :
  withoutByte c tail = true -> uptoLast c tail = None.
Proof.
  unfold withoutByte. induction tail as [|a tail IH]; intros H; [reflexivity|].
  simpl in *. apply andb_prop in H as [Ha Ht]. apply negb_true_iff in Ha.
  rewrite (IH Ht), Ha. reflexivity.
Qed.

Lemma uptoLast_keeps c body tail :
  withoutByte c tail = true ->
  uptoLast c (body ++ String c tail)%string = Some (body ++ String c "")%string.
Proof.
  intros H. induction body as [|a body IH].
  - rewrite !append_nil_l. simpl. rewrite (uptoLast_without c tail H), Ascii.eqb_refl.
    reflexivity.
  - rewrite !append_cons. simpl. rewrite IH. reflexivity.
Qed.

Lemma fromFirst_head c s doc :
  fromFirst c s = Some doc -> exists rest, doc = String c rest.
Proof.
  induction s as [|a s IH]; simpl; [discriminate|].
  destruct (Ascii.eqb_spec a c) as [->|_]; [|exact IH].
  intros [= <-]. eauto.
Qed.

Lemma uptoLast_last c s r :
  uptoLast c s = Some r -> exists body, r = (body ++ String c "")%string.
Proof.
  revert r. induction s as [|a s IH]; intros r; simpl; [discriminate|].
  destruct (uptoLast c s) as [r'|].
  - intros [= <-]. destruct (IH r' eq_refl) as (body & ->).
    exists (String a body). reflexivity.
  - destruct (Ascii.eqb_spec a c) as [->|_]; [|discriminate].
    intros [= <-]. exists "". reflexivity.
Qed.

(** X16.  The document handed to the decoder: when the text after the
    first occurrence of the marker has no open brace before a document
    between braces and no close brace after it, that document is found as
    it stands; and whatever is found starts with an open brace and ends
    with a close brace. *)
Theorem findJSON_document (output mid body tail doc : string) :
  (afterFirst marker output = Some (mid ++ braced body ++ tail)%string ->
   withoutByte "{" mid = true -> withoutByte "}" tail = true ->
   findJSON output = Some (braced body))
  /\ (findJSON output = Some doc -> exists inner, doc = braced inner).
Proof.
  split.
  - intros Hafter Hmid Htail. unfold findJSON, braced in *. rewrite Hafter. simpl.
    rewrite append_cons, (fromFirst_skips "{" mid _ Hmid). simpl.
    rewrite append_assoc, append_cons, append_nil_l.
    rewrite (uptoLast_keeps "}" body tail Htail). reflexivity.
  - unfold findJSON, braced.
    destruct (afterFirst marker output) as [rest|]; simpl; [|discriminate].
    destruct (fromFirst "{" rest) as [d|] eqn:Hd; simpl; [|discriminate].
    destruct (fromFirst_head _ _ _ Hd) as (inner & ->).
    destruct (uptoLast "}" inner) as [r|] eqn:Hr; simpl; [|discriminate].
    intros [= <-]. destruct (uptoLast_last _ _ _ Hr) as (b & ->). eauto.
Qed.

Lemma findJSON_document_witness :
  afterFirst marker "solc: JSON AST (compact format): === a.sol === {x:{}} ok"
  = Some (" === a.sol === " ++ braced "x:{}" ++ " ok")%string
  /\ withoutByte "{" " === a.sol === " = true
  /\ withoutByte "}" " ok" = true
  /\ findJSON "solc: JSON AST (compact format): === a.sol === {x:{}} ok"
     = Some (braced "x:{}")
  /\ exists inner, braced "x:{}" = braced inner.
Proof.
  assert (Hafter : afterFirst marker
                     "solc: JSON AST (compact format): === a.sol === {x:{}} ok"
                   = Some (" === a.sol === " ++ braced "x:{}" ++ " ok")%string)
    by (vm_compute; reflexivity).
  destruct (findJSON_document
              "solc: JSON AST (compact format): === a.sol === {x:{}} ok"
              " === a.sol === " "x:{}" " ok" (braced "x:{}")) as [Hfound Hshape].
  split; [exact Hafter|]. split; [reflexivity|]. split; [reflexivity|].
  split; [exact (Hfound Hafter eq_refl eq_refl)|].
  exact (Hshape (Hfound Hafter eq_refl eq_refl)).
Defined.

(** ** A source without tokens *)

Lemma tokenize_blank TrimSpace scanInt source :
  blankSource TrimSpace source -> tokenize TrimSpace scanInt source = [].
Proof.
  unfold blankSource, tokenize. generalize 0%nat.
  induction (splitLines source) as [|line rest IH]; intros lineNum H; [reflexivity|].
  inversion H as [|? ? Hline Hrest]; subst. cbn [tokenizeLines].
  rewrite Hline. simpl. apply IH, Hrest.
Qed.

(** X17.  A source all of whose lines are blank has no tokens; when the
    tool fails on it the analyzer is built over a Root without children,
    and every run of Analyze leaves its report list empty. *)
Theorem blank_source_has_no_reports {J : Type} (TrimSpace : string -> string)
    (scanInt : string -> bool) (json_Unmarshal : string -> option J)
    (decodeRoot : J -> SolcASTNode) (source : string) (solc : CmdResult)
    (g' : GasOptimizer J) :
  blankSource TrimSpace source -> failed solc = true ->
  Analyze J decodeRoot (mkGasOptimizer source (CustomAST emptyRoot) []) g' ->
  tokenize TrimSpace scanInt source = []
  /\ NewGasOptimizer TrimSpace scanInt J json_Unmarshal (Some source) solc
     = Some (inr (mkGasOptimizer source (CustomAST emptyRoot) []))
  /\ Reports g' = [].
Proof.
  intros Hblank Hfailed (_ & _ & Hrun).
  pose proof (tokenize_blank TrimSpace scanInt source Hblank) as Htok.
  split; [exact Htok|]. split.
  - unfold NewGasOptimizer. rewrite Hfailed.
    rewrite Parse_without_statement_keyword; [reflexivity|].
    unfold NewParser. simpl. rewrite Htok. intros i t Hi. discriminate Hi.
  - simpl in Hrun. unfold analyzeCustomAST in Hrun. simpl in Hrun.
    inversion Hrun. reflexivity.
Qed.

Lemma blank_source_has_no_reports_witness :
  blankSource TrimSpace_ascii " "
  /\ tokenize TrimSpace_ascii scanInt_dec " " = []
  /\ NewGasOptimizer TrimSpace_ascii scanInt_dec SolcASTNode (fun _ => None)
       (Some " ") (mkCmdResult "" true)
     = Some (inr (mkGasOptimizer " " (CustomAST emptyRoot) [])).
Proof.
  assert (Hblank : blankSource TrimSpace_ascii " ") by (repeat constructor).
  assert (Hrun : Analyze SolcASTNode id (mkGasOptimizer " " (CustomAST emptyRoot) [])
                   (mkGasOptimizer " " (CustomAST emptyRoot) [])).
  { split; [reflexivity|]. split; [reflexivity|]. constructor. }
  destruct (blank_source_has_no_reports TrimSpace_ascii scanInt_dec (fun _ => None) id
              " " (mkCmdResult "" true) _ Hblank eq_refl Hrun) as (H1 & H2 & _).
  split; [exact Hblank|]. split; [exact H1 | exact H2].
Defined.

(** ** PrintReports *)

Lemma printFrom_app i a b :
  printFrom i (a ++ b) = (printFrom i a ++ printFrom (i + length a) b)%string.
Proof.
  revert i. induction a as [|r a IH]; intros i.
  - simpl. rewrite Nat.add_0_r. reflexivity.
  - cbn [app printFrom length]. rewrite IH, append_assoc.
    replace (S i + length a)%nat with (i + S (length a))%nat by lia. reflexivity.
Qed.

(** X18.  PrintReports writes one line, "No gas optimization opportunities
    found.", for the empty list and for no other.  For a list that ends
    with the report r it writes what it writes for the reports before r,
    if there are any, and then five lines for r: "Report k:", k the
    position of r counted from 1, the issue, the suggestion, the savings in
    decimal and the location, each after its label and two spaces of
    indentation, and an empty line. *)
Theorem PrintReports_output (reports : list Report) (r : Report) :
  PrintReports []
  = ("No gas optimization opportunities found." ++ String (ascii_of_nat 10) "")%string
  /\ (PrintReports reports = PrintReports [] <-> reports = [])
  /\ PrintReports (reports ++ [r])
     = ((if (length reports =? 0)%nat then "" else PrintReports reports)
        ++ "Report " ++ pretty (length reports + 1)%nat ++ ":"
        ++ String (ascii_of_nat 10) ""
        ++ "  Issue: " ++ Issue r ++ String (ascii_of_nat 10) ""
        ++ "  Suggestion: " ++ Suggestion r ++ String (ascii_of_nat 10) ""
        ++ "  Gas Savings: " ++ pretty (GasSavings r) ++ String (ascii_of_nat 10) ""
        ++ "  Location: " ++ Location r ++ String (ascii_of_nat 10) ""
        ++ String (ascii_of_nat 10) "")%string.
Proof.
  split; [reflexivity|]. split.
  - split; [|intros ->; reflexivity].
    destruct reports as [|r0 rest]; [reflexivity|].
    unfold PrintReports, noOpportunities. simpl. unfold reportBlock.
    rewrite !append_cons. discriminate.
  - assert (Hlen : (length (reports ++ [r]) =? 0)%nat = false).
    { rewrite length_app. simpl. apply Nat.eqb_neq. lia. }
    unfold PrintReports at 1. rewrite Hlen, printFrom_app.
    cbn [printFrom Nat.add]. rewrite append_nil_r.
    f_equal. unfold PrintReports. destruct reports; reflexivity.
Qed.

Lemma PrintReports_output_witness :
  PrintReports ([twoAndOneReport] ++ [twiceReport])
  = (PrintReports [twoAndOneReport]
     ++ "Report 2:" ++ nl
     ++ "  Issue: Expression 'a * 2' computed 2 times" ++ nl
     ++ "  Suggestion: Cache the result in a local variable" ++ nl
     ++ "  Gas Savings: 100" ++ nl
     ++ "  Location: 320:140:0" ++ nl ++ nl)%string.
Proof.
  rewrite (proj2 (proj2 (PrintReports_output [twoAndOneReport] twiceReport))).
  vm_compute. reflexivity.
Defined.

(** * The groups of a pass *)

Lemma filter_complement {A : Type} (f : A -> bool) (l : list A) :
  l ≡ₚ List.filter f l ++ List.filter (fun x => negb (f x)) l.
Proof.
  induction l as [|x l IH]; simpl; [constructor|].
  destruct (f x); simpl.
  - constructor. exact IH.
  - apply Permutation_cons_app. exact IH.
Qed.

Lemma NoDup_fst_In {A B : Type} (l : list (A * B)) a b b' :
  NoDup (map fst l) -> In (a, b) l -> In (a, b') l -> b = b'.
Proof.
  induction l as [|[x y] l IH]; simpl; [intros _ []|].
  intros Hnd [H1|H1] [H2|H2]; inversion Hnd as [|? ? Hnot Hrest]; subst.
  - congruence.
  - injection H1 as -> ->. exfalso. apply Hnot, list_elem_of_In.
    apply in_map_iff. exists (a, b'). auto.
  - injection H2 as -> ->. exfalso. apply Hnot, list_elem_of_In.
    apply in_map_iff. exists (a, b). auto.
  - auto.
Qed.

Lemma NoDup_fst_NoDup {A B : Type} (l : list (A * B)) :
  NoDup (map fst l) -> NoDup l.
Proof.
  induction l as [|[x y] l IH]; simpl; intros Hnd; [constructor|].
  inversion Hnd as [|? ? Hnot Hrest]; subst. constructor; [|auto].
  intros Hin%list_elem_of_In. apply Hnot, list_elem_of_In, in_map_iff.
  exists (x, y). auto.
Qed.

Lemma NoDup_fst_filter {A B : Type} (f : A * B -> bool) (l : list (A * B)) :
  NoDup (map fst l) -> NoDup (map fst (List.filter f l)).
Proof.
  induction l as [|e l IH]; simpl; intros Hnd; [constructor|].
  inversion Hnd as [|? ? Hnot Hrest]; subst.
  destruct (f e); simpl; [|auto]. constructor; [|auto].
  intros Hin%list_elem_of_In. apply Hnot, list_elem_of_In.
  apply in_map_iff in Hin as (e' & He & Hin).
  apply in_map_iff. exists e'. split; [exact He|].
  apply filter_In in Hin. apply Hin.
Qed.

Lemma map_to_list_In (m : gmap string Z) key n :
  In (key, n) (map_to_list m) <-> m !! key = Some n.
Proof. rewrite <- list_elem_of_In. apply elem_of_map_to_list. Qed.

Lemma NoDup_fst_range (m : gmap string Z) entries :
  rangeMap m entries -> NoDup (map fst entries).
Proof.
  intros Hrange. unfold rangeMap in Hrange. rewrite Hrange.
  exact (NoDup_fst_map_to_list m).
Qed.

Lemma groupOf_ext make make' counts counts' group :
  (forall e, make e = make' e) -> (forall key, counts key = counts' key) ->
  groupOf make counts group -> groupOf make' counts' group.
Proof.
  intros Hm Hc (entries & -> & Hnd & Hin). exists entries.
  split; [apply map_ext, Hm|]. split; [exact Hnd|].
  intros key n. rewrite <- Hc. apply Hin.
Qed.


(** Every range over a map appends a group of the map. *)
Lemma range_group make (m : gmap string Z) entries :
  rangeMap m entries ->
  groupOf make (fun key => m !! key) (flat_map (reportsIf make) entries).
Proof.
  intros Hrange. exists (List.filter reportable entries).
  split; [apply flat_map_reportsIf|].
  split; [apply NoDup_fst_filter, (NoDup_fst_range m), Hrange|].
  intros key n. rewrite filter_In. unfold reportable. simpl.
  rewrite Z.ltb_lt, <- map_to_list_In.
  split; intros [Hin Hn]; (split; [|exact Hn]).
  - apply (Permutation_in _ Hrange), Hin.
  - apply (Permutation_in _ (Permutation_sym Hrange)), Hin.
Qed.

(** Every group of a map is appended by some range over it. *)
Lemma group_range make (m : gmap string Z) group :
  groupOf make (fun key => m !! key) group ->
  exists entries, rangeMap m entries /\ flat_map (reportsIf make) entries = group.
Proof.
  intros (entries & -> & Hnd & Hin).
  exists (entries ++ List.filter (fun e => negb (reportable e)) (map_to_list m)).
  assert (Hall : forall e, In e entries -> reportable e = true).
  { intros [key n] He. apply Hin in He as [_ Hn]. apply Z.ltb_lt, Hn. }
  split.
  - unfold rangeMap. rewrite (filter_complement reportable (map_to_list m)) at 2.
    apply Permutation_app_tail, NoDup_Permutation.
    + apply NoDup_fst_NoDup, Hnd.
    + apply NoDup_fst_NoDup, NoDup_fst_filter. exact (NoDup_fst_map_to_list m).
    + intros [key n]. rewrite !list_elem_of_In, Hin, filter_In, map_to_list_In.
      unfold reportable. simpl. rewrite Z.ltb_lt. reflexivity.
  - rewrite flat_map_reportsIf, List.filter_app.
    replace (List.filter reportable
               (List.filter (fun e => negb (reportable e)) (map_to_list m)))
      with (@nil (string * Z)).
    + rewrite app_nil_r. f_equal.
      clear Hnd Hin. induction entries as [|e entries IH]; [reflexivity|].
      simpl. rewrite (Hall e) by (left; reflexivity).
      f_equal. apply IH. intros e' He'. apply Hall. right. exact He'.
    + induction (map_to_list m) as [|e l IH]; [reflexivity|].
      simpl. destruct (reportable e) eqn:He; simpl; [exact IH|].
      rewrite He. exact IH.
Qed.

Section PassGroups.
Context {N : Type}.
Variable table : N -> option (gmap string Z).
Variable emit : N -> list (string * Z) -> list Report -> list Report.
Variable make : N -> string * Z -> Report.
Hypothesis emit_eq : forall n entries reports,
  emit n entries reports = reports ++ flat_map (reportsIf (make n)) entries.

(** What a run appends: one group per visited node, in the order of the
    visit. *)
Lemma runPass_groups ns reports reports' :
  runPass table emit ns reports reports' ->
  exists groups, reports' = reports ++ concat groups
    /\ Forall2 (passGroup table make) ns groups.
Proof.
  induction 1 as [reports | n ns reports reports' Hn _ IH
                 | n ns m entries reports reports' Hn Hrange _ IH].
  - exists []. simpl. rewrite app_nil_r. split; [reflexivity | constructor].
  - destruct IH as (groups & -> & Hg). exists ([] :: groups).
    split; [reflexivity|]. constructor; [|exact Hg].
    unfold passGroup. rewrite Hn. reflexivity.
  - destruct IH as (groups & -> & Hg).
    exists (flat_map (reportsIf (make n)) entries :: groups).
    split; [rewrite emit_eq, <- app_assoc; reflexivity|].
    constructor; [|exact Hg].
    unfold passGroup. rewrite Hn. apply range_group, Hrange.
Qed.

(** And every such list of groups is appended by a run. *)
Lemma groups_runPass ns groups :
  Forall2 (passGroup table make) ns groups ->
  forall reports, runPass table emit ns reports (reports ++ concat groups).
Proof.
  induction 1 as [|n group ns groups Hg _ IH]; intros reports; simpl.
  - rewrite app_nil_r. constructor.
  - unfold passGroup in Hg. destruct (table n) as [m|] eqn:Hn.
    + apply group_range in Hg as (entries & Hrange & <-).
      eapply runPass_range; [exact Hn | exact Hrange|].
      rewrite emit_eq, app_assoc. apply IH.
    + subst group. simpl. apply runPass_skip; [exact Hn | apply IH].
Qed.
End PassGroups.



(** ** The groups of the three passes *)

Lemma loopGroup_pass node group :
  passGroup loopStorageVars (fun n => loopReport (Src n)) node group
  <-> loopGroup node group.
Proof.
  unfold passGroup, loopStorageVars, loopGroup, isLoopType.
  destruct (String.eqb (NodeType node) "ForStatement"
            || String.eqb (NodeType node) "WhileStatement"); [|reflexivity].
  split; apply groupOf_ext;
    try (intros [key n]; reflexivity);
    intros key; destruct (Body node); rewrite ?lookup_empty; reflexivity.
Qed.

Lemma redundantGroup_pass node group :
  passGroup functionExprMap (fun n => redundantReport (Src n)) node group
  <-> redundantGroup node group.
Proof.
  unfold passGroup, functionExprMap, redundantGroup.
  destruct (Body node) as [body|];
    destruct (String.eqb (NodeType node) "FunctionDefinition"); try reflexivity.
  split; apply groupOf_ext; try (intros [key n]; reflexivity); reflexivity.
Qed.

Lemma customLoopGroup_pass node group :
  passGroup customLoopVars (fun n => loopReport ("line " ++ pretty (Node.Line n)))
    node group
  <-> customLoopGroup node group.
Proof.
  unfold passGroup, customLoopVars, customLoopGroup, isLoopType.
  destruct (String.eqb (Node.Type_ node) "ForStatement"
            || String.eqb (Node.Type_ node) "WhileStatement"); [|reflexivity].
  split; apply groupOf_ext; try (intros [key n]; reflexivity); reflexivity.
Qed.

Lemma Forall2_iff {A B : Type} (P Q : A -> B -> Prop) (l : list A) (k : list B) :
  (forall a b, P a b <-> Q a b) -> Forall2 P l k <-> Forall2 Q l k.
Proof.
  intros H. split; intros HF; (eapply Forall2_impl; [exact HF|]);
    intros a b; apply H.
Qed.

(** The runs of the loop pass over the external tree. *)
Lemma checkLoopsForStorageReads_groups root reports reports' :
  checkLoopsForStorageReads root reports reports' <->
  exists groups, reports' = reports ++ concat groups
    /\ Forall2 loopGroup (walkSolcAST root) groups.
Proof.
  unfold checkLoopsForStorageReads. split.
  - intros (groups & -> & Hg)%(runPass_groups _ _ _ emitLoopSolc_eq).
    exists groups. split; [reflexivity|].
    apply (Forall2_iff _ _ _ _ loopGroup_pass), Hg.
  - intros (groups & -> & Hg).
    apply (groups_runPass _ _ _ emitLoopSolc_eq).
    apply (Forall2_iff _ _ _ _ loopGroup_pass), Hg.
Qed.

(** The runs of the redundant-expression pass. *)
Lemma checkRedundantOperations_groups root reports reports' :
  checkRedundantOperations root reports reports' <->
  exists groups, reports' = reports ++ concat groups
    /\ Forall2 redundantGroup (walkSolcAST root) groups.
Proof.
  unfold checkRedundantOperations. split.
  - intros (groups & -> & Hg)%(runPass_groups _ _ _ emitRedundant_eq).
    exists groups. split; [reflexivity|].
    apply (Forall2_iff _ _ _ _ redundantGroup_pass), Hg.
  - intros (groups & -> & Hg).
    apply (groups_runPass _ _ _ emitRedundant_eq).
    apply (Forall2_iff _ _ _ _ redundantGroup_pass), Hg.
Qed.

(** The runs of the pass over the fallback tree. *)
Lemma analyzeCustomAST_groups ast reports reports' :
  analyzeCustomAST ast reports reports' <->
  exists groups, reports' = reports ++ concat groups
    /\ Forall2 customLoopGroup (Node.Children ast) groups.
Proof.
  unfold analyzeCustomAST. split.
  - intros (groups & -> & Hg)%(runPass_groups _ _ _ emitLoopCustom_eq).
    exists groups. split; [reflexivity|].
    apply (Forall2_iff _ _ _ _ customLoopGroup_pass), Hg.
  - intros (groups & -> & Hg).
    apply (groups_runPass _ _ _ emitLoopCustom_eq).
    apply (Forall2_iff _ _ _ _ customLoopGroup_pass), Hg.
Qed.

(** The runs of the three passes over the external tree, one after the
    other. *)
Lemma analyzeSolcRoot_groups root reports reports' :
  analyzeSolcRoot root reports reports' <->
  exists loops redundant,
    reports' = reports ++ concat loops ++ flat_map typeReports (walkSolcAST root)
                 ++ concat redundant
    /\ Forall2 loopGroup (walkSolcAST root) loops
    /\ Forall2 redundantGroup (walkSolcAST root) redundant.
Proof.
  unfold analyzeSolcRoot. split.
  - intros (r1 & (loops & -> & Hl)%checkLoopsForStorageReads_groups
               & (redundant & -> & Hr)%checkRedundantOperations_groups).
    exists loops, redundant. rewrite checkInefficientTypes_eq, <- !app_assoc. auto.
  - intros (loops & redundant & -> & Hl & Hr).
    exists (reports ++ concat loops). split.
    + apply checkLoopsForStorageReads_groups. eauto.
    + apply checkRedundantOperations_groups. exists redundant.
      rewrite checkInefficientTypes_eq, <- !app_assoc. auto.
Qed.





Section AnalyzeGroups.
Context {J : Type}.
Variable decodeRoot : J -> SolcASTNode.


End AnalyzeGroups.

(** * Two runs of Analyze *)



(** * The loop pass and the redundant-expression pass, on every tree *)

Lemma entries_single {A B : Type} (entries : list (A * B)) k0 n0 :
  NoDup (map fst entries) ->
  (forall key n, In (key, n) entries <-> key = k0 /\ n = n0) ->
  entries = [(k0, n0)].
Proof.
  intros Hnd Hin.
  assert (H0 : In (k0, n0) entries) by (apply Hin; auto).
  destruct entries as [|[k n] rest]; [destruct H0|].
  assert (Hk : k = k0 /\ n = n0) by (apply Hin; left; reflexivity).
  destruct Hk as [-> ->]. f_equal.
  destruct rest as [|[k n] rest]; [reflexivity|]. exfalso.
  assert (Hk : k = k0 /\ n = n0) by (apply Hin; right; left; reflexivity).
  destruct Hk as [-> ->]. simpl in Hnd.
  inversion Hnd as [|? ? Hnot _]; subst. apply Hnot. left.
Qed.

(** The group of counts with a single key above one, and of counts with
    none. *)
Lemma groupOf_single make counts k0 n0 group :
  (forall key n, counts key = Some n /\ (1 < n)%Z <-> key = k0 /\ n = n0) ->
  groupOf make counts group <-> group = [make (k0, n0)].
Proof.
  intros Hc. split.
  - intros (entries & -> & Hnd & Hin).
    rewrite (entries_single entries k0 n0 Hnd); [reflexivity|].
    intros key n. rewrite Hin. apply Hc.
  - intros ->. exists [(k0, n0)]. split; [reflexivity|].
    split; [repeat constructor; apply not_elem_of_nil|].
    intros key n. rewrite Hc. simpl. split.
    + intros [[= <- <-]|[]]. auto.
    + intros [-> ->]. left. reflexivity.
Qed.


Lemma twoAndOneBody_counts key n :
  collectStorageReadsSolc twoAndOneBody ∅ !! key = Some n /\ (1 < n)%Z
  <-> key = "data[i]" /\ n = 2%Z.
Proof.
  rewrite collectStorageReadsSolc_keys, incrAll_empty.
  change (readKeys twoAndOneBody) with ["data[i]"; "data[i]"; "data[j]"].
  unfold countOf, countKey. cbn [List.filter].
  destruct (String.eqb_spec key "data[i]") as [Hi|Hi];
    destruct (String.eqb_spec key "data[j]") as [Hj|Hj];
    try congruence; simpl; split;
    try (intros [[= <-] Hn]); try (intros [Hk ->]);
    try discriminate; try lia; try congruence; auto with lia.
Qed.

(** C5.  A run of the loop pass over any tree appends, after the reports
    present, one group per visited node, in the order of the visit, and every
    such list of groups is appended by a run.  Every node that can be reached
    from the root through Nodes, Body and Statements is visited, so a loop
    at any depth has its group.  The group of a loop holds, for every key
    that collectStorageReadsSolc counts n > 1 times in its body, exactly one
    report, with savings (n-1)*(800-3), and nothing else; the group of a node
    that is no loop is empty.  The count of a key is the number of times it
    occurs in [readKeys], the keys of the declaration statements initialised
    from an index access that are met from the body through statement lists
    and bodies.  The costs are 800 and 3.  For a loop whose body declares
    two locals from data[i] and one from data[j], wherever it stands, the
    group is the one report for data[i], with savings 797. *)
Theorem loop_pass_savings (root loop body : SolcASTNode)
    (reports rs group : list Report) :
  checkLoopsForStorageReads root reports rs ->
  GasSload = 800%Z /\ GasMload = 3%Z
  /\ (forall d, reaches root d -> In d (walkSolcAST root))
  /\ (exists groups, rs = reports ++ concat groups
        /\ Forall2 loopGroup (walkSolcAST root) groups)
  /\ (forall groups, Forall2 loopGroup (walkSolcAST root) groups ->
      checkLoopsForStorageReads root reports (reports ++ concat groups))
  /\ (forall key, collectStorageReadsSolc body ∅ !! key = countOf key (readKeys body))
  /\ (NodeType loop = "ForStatement" \/ NodeType loop = "WhileStatement" ->
      Body loop = Some twoAndOneBody ->
      (loopGroup loop group <->
       group = [mkReport "Variable 'data[i]' read 2 times in loop"
                  "Cache 'data[i]' in memory before loop" 797 (Src loop)])).
Proof.
  intros Hrun. split; [reflexivity|]. split; [reflexivity|].
  split; [intros d; apply reaches_walkSolcAST|].
  split; [apply checkLoopsForStorageReads_groups, Hrun|].
  split; [intros groups Hg; apply checkLoopsForStorageReads_groups; eauto|].
  split; [intros key; rewrite collectStorageReadsSolc_keys; apply incrAll_empty|].
  - intros Hty Hbody. unfold loopGroup. rewrite Hbody.
    replace (String.eqb (NodeType loop) "ForStatement"
             || String.eqb (NodeType loop) "WhileStatement") with true.
    + etransitivity; [apply (groupOf_single _ _ "data[i]" 2%Z), twoAndOneBody_counts|].
      reflexivity.
    + symmetry. apply orb_true_iff. rewrite !String.eqb_eq. exact Hty.
Qed.

Lemma loop_pass_savings_witness :
  checkLoopsForStorageReads sampleContract []
    (runPassWith loopStorageVars emitLoopSolc map_to_list (walkSolcAST sampleContract) [])
  /\ reaches sampleContract loopTwoAndOne
  /\ In loopTwoAndOne (walkSolcAST sampleContract)
  /\ (exists groups,
        runPassWith loopStorageVars emitLoopSolc map_to_list
          (walkSolcAST sampleContract) []
        = [] ++ concat groups
        /\ Forall2 loopGroup (walkSolcAST sampleContract) groups
        /\ checkLoopsForStorageReads sampleContract [] ([] ++ concat groups))
  /\ (NodeType loopTwoAndOne = "ForStatement" \/ NodeType loopTwoAndOne = "WhileStatement")
  /\ Body loopTwoAndOne = Some twoAndOneBody
  /\ loopGroup loopTwoAndOne [twoAndOneReport]
  /\ runPassWith loopStorageVars emitLoopSolc map_to_list (walkSolcAST sampleContract) []
     = [twoAndOneReport].
Proof.
  assert (Hrun : checkLoopsForStorageReads sampleContract []
                   (runPassWith loopStorageVars emitLoopSolc map_to_list
                      (walkSolcAST sampleContract) []))
    by apply runPassWith_run, rangeMap_map_to_list.
  assert (Hreach : reaches sampleContract loopTwoAndOne).
  { eapply reaches_node; [right; left; reflexivity|].
    eapply reaches_body; [reflexivity|].
    eapply reaches_statement; [left; reflexivity|]. constructor. }
  assert (Hty : NodeType loopTwoAndOne = "ForStatement"
                \/ NodeType loopTwoAndOne = "WhileStatement") by (left; reflexivity).
  destruct (loop_pass_savings sampleContract loopTwoAndOne twoAndOneBody [] _
              [twoAndOneReport] Hrun)
    as (_ & _ & Hvisit & (groups & E & Hg) & Hall & _ & Hexample).
  split; [exact Hrun|]. split; [exact Hreach|]. split; [exact (Hvisit _ Hreach)|].
  split; [exists groups; auto|]. split; [exact Hty|]. split; [reflexivity|].
  split; [apply (Hexample Hty eq_refl); reflexivity|].
  vm_compute. reflexivity.
Defined.






(** * The reports of the two paths, group by group *)

Lemma customLoopGroup_keys node group :
  customLoopGroup node group <->
  if String.eqb (Node.Type_ node) "ForStatement"
     || String.eqb (Node.Type_ node) "WhileStatement"
  then
    groupOf
      (fun '(key, n) =>
         mkReport ("Variable '" ++ key ++ "' read " ++ pretty n ++ " times in loop")
           ("Cache '" ++ key ++ "' in memory before loop")
           ((n - 1) * 797)%Z ("line " ++ pretty (Node.Line node)))
      (fun key => countOf key (customKeys node)) group
  else group = [].
Proof.
  unfold customLoopGroup.
  destruct (String.eqb (Node.Type_ node) "ForStatement"
            || String.eqb (Node.Type_ node) "WhileStatement"); [|reflexivity].
  split; apply groupOf_ext; try (intros [key n]; reflexivity);
    intros key; rewrite collectStorageReadsCustom_keys, incrAll_empty; reflexivity.
Qed.

Lemma loopGroup_keys node group :
  loopGroup node group <->
  if String.eqb (NodeType node) "ForStatement"
     || String.eqb (NodeType node) "WhileStatement"
  then
    groupOf
      (fun '(key, n) =>
         mkReport ("Variable '" ++ key ++ "' read " ++ pretty n ++ " times in loop")
           ("Cache '" ++ key ++ "' in memory before loop")
           ((n - 1) * 797)%Z (Src node))
      (fun key => countOf key (optionKeys readKeys (Body node))) group
  else group = [].
Proof.
  unfold loopGroup.
  destruct (String.eqb (NodeType node) "ForStatement"
            || String.eqb (NodeType node) "WhileStatement"); [|reflexivity].
  split; apply groupOf_ext; try (intros [key n]; reflexivity);
    intros key; destruct (Body node); simpl;
    rewrite ?collectStorageReadsSolc_keys, ?incrAll_empty; reflexivity.
Qed.

Lemma redundantGroup_keys node group :
  redundantGroup node group <->
  match Body node with
  | Some body =>
      if String.eqb (NodeType node) "FunctionDefinition" then
        groupOf
          (fun '(key, n) =>
             mkReport ("Expression '" ++ key ++ "' computed " ++ pretty n ++ " times")
               "Cache the result in a local variable" (n * 50)%Z (Src node))
          (fun key => countOf key (exprKeys body)) group
      else group = []
  | None => group = []
  end.
Proof.
  unfold redundantGroup.
  destruct (Body node) as [body|]; [|reflexivity].
  destruct (String.eqb (NodeType node) "FunctionDefinition"); [|reflexivity].
  split; apply groupOf_ext; try (intros [key n]; reflexivity);
    intros key; rewrite collectExpressions_keys, incrAll_empty; reflexivity.
Qed.

(** X13.  On the fallback tree a run appends, after the reports present,
    one group per child of the root, in the order of the children.  The
    group of a child that is a loop holds, for every key base.member that
    the accesses below the loop hold n > 1 times, exactly one report,
    located at "line N", N the line of the loop, with savings (n-1)*797,
    and nothing else; the group of any other child is empty.  So a loop below a function, and any
    other kind of finding, is never reported on the fallback path. *)
Theorem analyzeCustomAST_reports (ast : Node.t) (reports reports' : list Report) :
  analyzeCustomAST ast reports reports' ->
  exists groups,
     reports' = reports ++ concat groups
     /\ Forall2
          (fun loop group =>
             if String.eqb (Node.Type_ loop) "ForStatement"
                || String.eqb (Node.Type_ loop) "WhileStatement"
             then
               groupOf
                 (fun '(key, n) =>
                    mkReport
                      ("Variable '" ++ key ++ "' read " ++ pretty n ++ " times in loop")
                      ("Cache '" ++ key ++ "' in memory before loop")
                      ((n - 1) * 797)%Z ("line " ++ pretty (Node.Line loop)))
                 (fun key => countOf key (customKeys loop)) group
             else group = [])
          (Node.Children ast) groups.
Proof.
  intros (groups & -> & Hg)%analyzeCustomAST_groups.
  exists groups. split; [reflexivity|].
  eapply Forall2_impl; [exact Hg|]. intros loop group. apply customLoopGroup_keys.
Qed.

Lemma analyzeCustomAST_reports_witness :
  analyzeCustomAST (Node.mk "Root" "" [readTwiceLoop] 0) []
    (analyzeCustomASTWith map_to_list (Node.mk "Root" "" [readTwiceLoop] 0) [])
  /\ exists group,
       analyzeCustomASTWith map_to_list (Node.mk "Root" "" [readTwiceLoop] 0) []
       = [] ++ concat [group]
       /\ groupOf
            (fun '(key, n) =>
               mkReport
                 ("Variable '" ++ key ++ "' read " ++ pretty n ++ " times in loop")
                 ("Cache '" ++ key ++ "' in memory before loop")
                 ((n - 1) * 797)%Z ("line " ++ pretty (Node.Line readTwiceLoop)))
            (fun key => countOf key (customKeys readTwiceLoop)) group.
Proof.
  assert (H : analyzeCustomAST (Node.mk "Root" "" [readTwiceLoop] 0) []
                (analyzeCustomASTWith map_to_list (Node.mk "Root" "" [readTwiceLoop] 0) []))
    by apply runPassWith_run, rangeMap_map_to_list.
  split; [exact H|].
  destruct (analyzeCustomAST_reports _ _ _ H) as (groups & E & Hg).
  inversion Hg as [|loop group ns gs Hgroup Hrest]; subst.
  inversion Hrest; subst. exists group. split; [exact E | exact Hgroup].
Defined.

(** X19.  On the external tree a run of the analysis appends three parts in
    this order: the groups of the loop pass, one per visited node; the
    type-width reports, in the order of the visit; the groups of the
    redundant-expression pass, one per visited node.  The group of a
    visited loop holds, for every key its body holds n > 1 times, exactly
    one report, at the Src of the loop, with savings (n-1)*797; the group of
    a visited function definition with a body holds, for every expression
    key the body holds n > 1 times, exactly one report, at the Src of the
    function, with savings n*50; the other groups are empty. *)
Theorem analyzeSolcRoot_reports (root : SolcASTNode) (reports reports' : list Report) :
  analyzeSolcRoot root reports reports' ->
  exists loops redundant,
    reports' = reports ++ concat loops
                 ++ map typeReport (List.filter smallWidthDeclaration (walkSolcAST root))
                 ++ concat redundant
    /\ Forall2
         (fun loop group =>
            if String.eqb (NodeType loop) "ForStatement"
               || String.eqb (NodeType loop) "WhileStatement"
            then
              groupOf
                (fun '(key, n) =>
                   mkReport
                     ("Variable '" ++ key ++ "' read " ++ pretty n ++ " times in loop")
                     ("Cache '" ++ key ++ "' in memory before loop")
                     ((n - 1) * 797)%Z (Src loop))
                (fun key => countOf key (optionKeys readKeys (Body loop))) group
            else group = [])
         (walkSolcAST root) loops
    /\ Forall2
         (fun fn group =>
            match Body fn with
            | Some body =>
                if String.eqb (NodeType fn) "FunctionDefinition" then
                  groupOf
                    (fun '(key, n) =>
                       mkReport
                         ("Expression '" ++ key ++ "' computed " ++ pretty n ++ " times")
                         "Cache the result in a local variable" (n * 50)%Z (Src fn))
                    (fun key => countOf key (exprKeys body)) group
                else group = []
            | None => group = []
            end)
         (walkSolcAST root) redundant.
Proof.
  intros (loops & redundant & -> & Hl & Hr)%analyzeSolcRoot_groups.
  exists loops, redundant. rewrite flat_map_typeReports.
  split; [reflexivity|]. split.
  - eapply Forall2_impl; [exact Hl|]. intros loop group. apply loopGroup_keys.
  - eapply Forall2_impl; [exact Hr|]. intros fn group. apply redundantGroup_keys.
Qed.

Lemma analyzeSolcRoot_reports_witness :
  analyzeSolcRoot sampleContract [] (analyzeSolcRootWith map_to_list sampleContract [])
  /\ exists loops redundant,
       analyzeSolcRootWith map_to_list sampleContract []
       = [] ++ concat loops
           ++ map typeReport
                (List.filter smallWidthDeclaration (walkSolcAST sampleContract))
           ++ concat redundant
       /\ length loops = length (walkSolcAST sampleContract)
       /\ length redundant = length (walkSolcAST sampleContract).
Proof.
  assert (H : analyzeSolcRoot sampleContract []
                (analyzeSolcRootWith map_to_list sampleContract [])).
  { eexists. split; apply runPassWith_run, rangeMap_map_to_list. }
  split; [exact H|].
  destruct (analyzeSolcRoot_reports _ _ _ H) as (loops & redundant & E & Hl & Hr).
  exists loops, redundant. split; [exact E|].
  split; symmetry; eapply Forall2_length; eassumption.
Defined.
